(** * BLAG blocklist tool: a shallow embedding of its resolution engine

    The development follows the three source files of the package:
    - [src/blagbl/main.py]      (module [Main]),
    - [src/blagbl/__init__.py]  (module [BlagBL]),
    - [src/blagbl/tools/main.py] (module [Tools]),
    on top of a model of the parts of the Python standard library that
    they call (module [Py]): [str.split], [csv.reader], [dict] and
    [defaultdict], [bytes.decode], [zipfile] and [ipaddress]. *)

From Stdlib Require Import ZArith NArith List Lia Bool String Ascii Zwf.
From Stdlib Require DecimalString HexadecimalString.
From stdpp Require Import base option list gmap.
From Equations Require Import Equations.

#[local] Open Scope Z_scope.

(** ** Python values shared by all modules *)

(** A [str] is a sequence of Unicode code points. *)
Abbreviation char := N (only parsing).
Abbreviation str := (list N) (only parsing).
Abbreviation bytes := (list N) (only parsing).

(** The exceptions the modelled code can raise. *)
Inductive exn : Type :=
| IndexError
| KeyError (key : str)
| CsvError
| ValueError
| TypeError
| AttributeError
| AddressValueError
| NetmaskValueError
| UnicodeDecodeError.

Inductive result (A : Type) : Type :=
| OK (a : A)
| Raise (e : exn).
Arguments OK {A} a.
Arguments Raise {A} e.

(** Sequencing: an exception raised by [m] skips the rest. *)
#[global] Instance result_bind : MBind result := fun A B k m =>
  match m with
  | OK a => k a
  | Raise e => Raise e
  end.
#[global] Instance result_ret : MRet result := fun A a => OK a.
#[global] Instance result_fmap : FMap result := fun A B f m =>
  match m with
  | OK a => OK (f a)
  | Raise e => Raise e
  end.

Definition is_OK {A} (m : result A) : bool :=
  match m with OK _ => true | Raise _ => false end.

(** [for x in xs: s = body(s, x)], stopping at the first exception. *)
Fixpoint for_each {A S} (body : S -> A -> result S) (xs : list A) (s : S)
  : result S :=
  match xs with
  | [] => OK s
  | x :: xs' => s' ← body s x; for_each body xs' s'
  end.

(** [[f(x) for x in xs]], stopping at the first exception. *)
Fixpoint comprehension {A B} (f : A -> result B) (xs : list A)
  : result (list B) :=
  match xs with
  | [] => OK []
  | x :: xs' => y ← f x; ys ← comprehension f xs'; OK (y :: ys)
  end.

Module Py.

(** *** Text literals *)

(** ASCII literals of the development, as code-point sequences. *)
Definition lit (s : string) : str :=
  List.map N_of_ascii (list_ascii_of_string s).

Definition LF : N := 10%N.
Definition CR : N := 13%N.
Definition COMMA : N := 44%N.
Definition QUOTE : N := 34%N.

(** *** [list] subscripts *)

(** [l[i]] for a non-negative literal index [i]. *)
Definition getitem {A} (l : list A) (i : nat) : result A :=
  match l !! i with
  | Some x => OK x
  | None => Raise IndexError
  end.

(** [l.pop(0)]: the first element and the list that remains. *)
Definition pop0 {A} (l : list A) : result (A * list A) :=
  match l with
  | [] => Raise IndexError
  | x :: l' => OK (x, l')
  end.

(** [d[k]] on a plain [dict]. *)
Definition dict_getitem {V} (d : gmap str V) (k : str) : result V :=
  match d !! k with
  | Some v => OK v
  | None => Raise (KeyError k)
  end.

(** *** [str.split()] *)

(** [str.isspace] on one code point (CPython's [_PyUnicode_IsWhitespace]). *)
Definition isspace (c : N) : bool :=
  ((9 <=? c) && (c <=? 13) || (28 <=? c) && (c <=? 32)
   || (c =? 133) || (c =? 160) || (c =? 5760)
   || (8192 <=? c) && (c <=? 8202)
   || (c =? 8232) || (c =? 8233) || (c =? 8239) || (c =? 8287)
   || (c =? 12288))%N.

(** [s.split()] without arguments: the maximal runs of non-whitespace
    code points, in order; [cur] is the run being read. *)
Fixpoint split_from (cur : str) (s : str) : list str :=
  match s with
  | [] => match cur with [] => [] | _ => [cur] end
  | c :: s' =>
      if isspace c
      then match cur with
           | [] => split_from [] s'
           | _ => cur :: split_from [] s'
           end
      else split_from (cur ++ [c]) s'
  end.

Definition split (s : str) : list str := split_from [] s.

(** *** [csv.reader] with the default ("excel") dialect

    The reader is the state machine of CPython's [_csv.c], specialised to
    the default dialect: comma delimiter, double-quote character, doubled
    quotes, no escape character, not strict, no skipping of initial
    spaces.  Without an escape character the three escape states are
    unreachable and are left out.  The field size limit is the default of
    [csv.field_size_limit()], which the program never changes. *)

Inductive parser_state : Type :=
| START_RECORD
| START_FIELD
| IN_FIELD
| IN_QUOTED_FIELD
| QUOTE_IN_QUOTED_FIELD
| EAT_CRNL.

#[global] Instance parser_state_eq_dec : EqDecision parser_state.
Proof. solve_decision. Defined.

Record reader : Type := mkReader {
  state : parser_state;
  field : str;          (* the field being accumulated *)
  fields : list str     (* the fields saved for the current record *)
}.

(** What [parse_process_char] is fed: a character of the line, or the
    end-of-line marker sent after the last character of each line. *)
Inductive input : Type :=
| Ch (c : N)
| EOL.

Definition is_newline (i : input) : bool :=
  match i with
  | Ch c => (c =? LF)%N || (c =? CR)%N
  | EOL => false
  end.

Definition is_EOL (i : input) : bool :=
  match i with EOL => true | Ch _ => false end.

Definition is_char (i : input) (d : N) : bool :=
  match i with Ch c => (c =? d)%N | EOL => false end.

Definition parse_reset : reader := mkReader START_RECORD [] [].

Definition parse_save_field (r : reader) : reader :=
  mkReader (state r) [] (fields r ++ [field r]).

Definition field_limit : N := 131072%N.

(** A character is refused once the field holds [field_limit] of them.
    The end-of-line marker never gets here. *)
Definition parse_add_char (r : reader) (i : input) : result reader :=
  match i with
  | Ch c =>
      if (field_limit <=? N.of_nat (length (field r)))%N then Raise CsvError
      else OK (mkReader (state r) (field r ++ [c]) (fields r))
  | EOL => OK r
  end.

Definition set_state (s : parser_state) (r : reader) : reader :=
  mkReader s (field r) (fields r).

(** The [START_FIELD] case, which [START_RECORD] falls through to. *)
Definition start_field (r : reader) (i : input) : result reader :=
  if is_newline i || is_EOL i then
    OK (set_state (if is_EOL i then START_RECORD else EAT_CRNL)
                  (parse_save_field r))
  else if is_char i QUOTE then OK (set_state IN_QUOTED_FIELD r)
  else if is_char i COMMA then OK (parse_save_field r)
  else r' ← parse_add_char r i; OK (set_state IN_FIELD r').

Definition parse_process_char (r : reader) (i : input) : result reader :=
  match state r with
  | START_RECORD =>
      if is_EOL i then OK r
      else if is_newline i then OK (set_state EAT_CRNL r)
      else start_field (set_state START_FIELD r) i
  | START_FIELD => start_field r i
  | IN_FIELD =>
      if is_newline i || is_EOL i then
        OK (set_state (if is_EOL i then START_RECORD else EAT_CRNL)
                      (parse_save_field r))
      else if is_char i COMMA then
        OK (set_state START_FIELD (parse_save_field r))
      else parse_add_char r i
  | IN_QUOTED_FIELD =>
      if is_EOL i then OK r
      else if is_char i QUOTE then OK (set_state QUOTE_IN_QUOTED_FIELD r)
      else parse_add_char r i
  | QUOTE_IN_QUOTED_FIELD =>
      if is_char i QUOTE then
        r' ← parse_add_char r i; OK (set_state IN_QUOTED_FIELD r')
      else if is_char i COMMA then
        OK (set_state START_FIELD (parse_save_field r))
      else if is_newline i || is_EOL i then
        OK (set_state (if is_EOL i then START_RECORD else EAT_CRNL)
                      (parse_save_field r))
      else r' ← parse_add_char r i; OK (set_state IN_FIELD r')
  | EAT_CRNL =>
      if is_newline i then OK r
      else if is_EOL i then OK (set_state START_RECORD r)
      else Raise CsvError
  end.

(** One line: its characters, then the end-of-line marker. *)
Definition parse_line (r : reader) (line : str) : result reader :=
  for_each parse_process_char (List.map Ch line ++ [EOL]) r.

(** The iteration protocol of the reader, unrolled over the whole input:
    the rows it yields, in order, and the exception (if any) that the
    call after the last yielded row raises.  A record still open when
    the input ends is yielded as it stands. *)
Fixpoint read_rows (r : reader) (lines : list str)
  : list (list str) * option exn :=
  match lines with
  | [] =>
      match field r, state r with
      | [], IN_QUOTED_FIELD | _ :: _, _ =>
          ([fields (parse_save_field r)], None)
      | [], _ => ([], None)
      end
  | line :: lines' =>
      match parse_line r line with
      | Raise e => ([], Some e)
      | OK r' =>
          match state r' with
          | START_RECORD =>
              let '(rows, e) := read_rows parse_reset lines' in
              (fields r' :: rows, e)
          | _ => read_rows r' lines'
          end
      end
  end.

Definition csv_reader (lines : list str) : list (list str) * option exn :=
  read_rows parse_reset lines.

(** [for row in reader: s = body(s, row)]. *)
Definition for_rows {S} (body : S -> list str -> result S)
  (rd : list (list str) * option exn) (s : S) : result S :=
  s' ← for_each body (fst rd) s;
  match snd rd with
  | Some e => Raise e
  | None => OK s'
  end.

(** *** [str.join] and the format specification [<40] *)

(** [sep.join(parts)]. *)
Fixpoint join (sep : str) (parts : list str) : str :=
  match parts with
  | [] => []
  | [p] => p
  | p :: ps => p ++ sep ++ join sep ps
  end.

(** [format(s, "<w")]: [s] padded on the right with spaces to width [w]. *)
Definition ljust (w : nat) (s : str) : str :=
  s ++ replicate (w - length s) 32%N.

(** *** [print]

    The builtin writes its argument and a line feed.  Failures of the
    output stream are not modelled. *)
Definition builtin_print (s : str) : result str := OK (s ++ [LF]).

(** *** [collections.defaultdict] *)

(** A [defaultdict] is a [dict] with a factory for the value of a missing
    key. *)
Record defaultdict (V : Type) : Type := mkDefaultdict {
  default_factory : V;
  data : gmap str V
}.
Arguments mkDefaultdict {V}.
Arguments default_factory {V}.
Arguments data {V}.

(** [d[k] = v]. *)
Definition dd_setitem {V} (d : defaultdict V) (k : str) (v : V)
  : defaultdict V :=
  mkDefaultdict (default_factory d) (<[k := v]> (data d)).

(** [d[k]]: a missing key is first inserted with the factory's value
    ([__missing__]), so the subscript never raises and may grow [d]. *)
Definition dd_getitem {V} (d : defaultdict V) (k : str)
  : V * defaultdict V :=
  match data d !! k with
  | Some v => (v, d)
  | None => (default_factory d, dd_setitem d k (default_factory d))
  end.

(** *** [bytes.decode('utf-8')]

    Strict decoding of well-formed UTF-8 (no overlong forms, no
    surrogates, nothing above U+10FFFF); a byte is a number below 256. *)

Definition in_range (lo hi b : N) : bool := ((lo <=? b) && (b <=? hi))%N.

Definition cont (b : N) : bool := in_range 128 191 b.

Definition low6 (b : N) : N := (b - 128)%N.

Fixpoint decode_utf8 (bs : bytes) : result str :=
  match bs with
  | [] => OK []
  | b1 :: r1 =>
      if (b1 <? 128)%N then s ← decode_utf8 r1; OK (b1 :: s)
      else
        match r1 with
        | [] => Raise UnicodeDecodeError
        | b2 :: r2 =>
            if in_range 194 223 b1 && cont b2 then
              s ← decode_utf8 r2;
              OK (((b1 - 192) * 64 + low6 b2)%N :: s)
            else
              match r2 with
              | [] => Raise UnicodeDecodeError
              | b3 :: r3 =>
                  if in_range 224 239 b1
                     && in_range (if (b1 =? 224)%N then 160 else 128)
                                 (if (b1 =? 237)%N then 159 else 191) b2
                     && cont b3 then
                    s ← decode_utf8 r3;
                    OK (((b1 - 224) * 4096 + low6 b2 * 64 + low6 b3)%N :: s)
                  else
                    match r3 with
                    | [] => Raise UnicodeDecodeError
                    | b4 :: r4 =>
                        if in_range 240 244 b1
                           && in_range (if (b1 =? 240)%N then 144 else 128)
                                       (if (b1 =? 244)%N then 143 else 191) b2
                           && cont b3 && cont b4 then
                          s ← decode_utf8 r4;
                          OK (((b1 - 240) * 262144 + low6 b2 * 4096
                               + low6 b3 * 64 + low6 b4)%N :: s)
                        else Raise UnicodeDecodeError
                    end
              end
        end
  end.

(** *** [zipfile.ZipFile]

    An opened archive is the ordered list of its members (the central
    directory, as [infolist()] returns it).  [open(name)] goes through the
    archive's name table [NameToInfo], which is filled in directory order
    by [NameToInfo[x.filename] = x]: of several members filed under one
    name, the last one is the one opened.  The members are those that
    read back: a member whose data cannot be read (a bad checksum, an
    unsupported compression method, encryption) is outside this model. *)

Record ZipInfo : Type := mkZipInfo {
  filename : str;
  content : bytes
}.

Definition infolist (zfile : list ZipInfo) : list ZipInfo := zfile.

Definition NameToInfo (zfile : list ZipInfo) : gmap str ZipInfo :=
  fold_left (fun tbl x => <[filename x := x]> tbl) zfile ∅.

(** [zfile.open(name).read()]. *)
Definition zip_read (zfile : list ZipInfo) (name : str) : result bytes :=
  match NameToInfo zfile !! name with
  | Some x => OK (content x)
  | None => Raise (KeyError name)
  end.

(** *** [int] and [str(int)] *)

(** [n.bit_length()]. *)
Definition bit_length (n : Z) : Z :=
  if n =? 0 then 0 else Z.log2 (Z.abs n) + 1.

(** [str(n)] and ['%x' % n] for a natural number [n]. *)
Definition str_of_N (n : N) : str :=
  lit (DecimalString.NilZero.string_of_uint (N.to_uint n)).

Definition hex_of_N (n : N) : str :=
  lit (HexadecimalString.NilZero.string_of_uint (N.to_hex_uint n)).

(** *** [ipaddress] *)

Inductive version : Type := V4 | V6.

#[global] Instance version_eq_dec : EqDecision version.
Proof. solve_decision. Defined.

Definition max_prefixlen (v : version) : Z :=
  match v with V4 => 32 | V6 => 128 end.

Definition ALL_ONES (v : version) : Z := 2 ^ max_prefixlen v - 1.

(** An [IPv4Address] or [IPv6Address] object. *)
Record address : Type := mkAddress {
  addr_version : version;
  ip : Z
}.

(** [IPv4Address(n)] / [IPv6Address(n)] for an integer [n]
    ([_check_int_address]). *)
Definition IPAddress (v : version) (n : Z) : result address :=
  if n <? 0 then Raise AddressValueError
  else if n >? ALL_ONES v then Raise AddressValueError
  else OK (mkAddress v n).

Definition IPv4Address : Z -> result address := IPAddress V4.
Definition IPv6Address : Z -> result address := IPAddress V6.

(** An [IPv4Network] or [IPv6Network] object. *)
Record network : Type := mkNetwork {
  net_version : version;
  network_address : Z;
  prefixlen : Z
}.

(** [_ip_int_from_prefix]: the netmask of a prefix length. *)
Definition ip_int_from_prefix (v : version) (plen : Z) : Z :=
  Z.lxor (ALL_ONES v) (Z.shiftr (ALL_ONES v) plen).

(** [IPv4Network((addr, plen))] / [IPv6Network((addr, plen))], strict. *)
Definition IPNetwork (v : version) (addr plen : Z) : result network :=
  a ← IPAddress v addr;
  if negb ((0 <=? plen) && (plen <=? max_prefixlen v))
  then Raise NetmaskValueError
  else
    let netmask := ip_int_from_prefix v plen in
    let packed := ip a in
    if negb (Z.land packed netmask =? packed) then Raise ValueError
    else OK (mkNetwork v packed plen).

(** [_count_righthand_zero_bits(number, bits)]. *)
Definition count_righthand_zero_bits (number bits : Z) : Z :=
  if number =? 0 then bits
  else Z.min bits (bit_length (Z.land (Z.lnot number) (number - 1))).

(** The [nbits] of one turn of the loop of [summarize_address_range]. *)
Definition nbits_of (ip_bits first_int last_int : Z) : Z :=
  Z.min (count_righthand_zero_bits first_int ip_bits)
        (bit_length (last_int - first_int + 1) - 1).

(** The loop terminates because the span [last_int + 1 - first_int]
    shrinks and stays non-negative. *)
#[local] Instance Zwf_WellFounded : WellFounded (Zwf 0) :=
  Acc_intro_generator 12 (Zwf_well_founded 0).

(** The [while] loop of [summarize_address_range]; the networks it
    yields, in order.  [1 << nbits] with a negative [nbits] is a
    [ValueError], raised after the network of that turn is built. *)
Equations? summarize_loop (v : version) (first_int last_int : Z)
  : result (list network) by wf (last_int + 1 - first_int) (Zwf 0) :=
  summarize_loop v first_int last_int with decide (first_int <= last_int) => {
    | right _ => OK [];
    | left _ with decide (0 <= nbits_of (max_prefixlen v) first_int last_int) => {
      | right _ =>
          let nbits := nbits_of (max_prefixlen v) first_int last_int in
          net ← IPNetwork v first_int (max_prefixlen v - nbits);
          Raise ValueError;
      | left _ =>
          let nbits := nbits_of (max_prefixlen v) first_int last_int in
          net ← IPNetwork v first_int (max_prefixlen v - nbits);
          let first_int' := first_int + Z.shiftl 1 nbits in
          if first_int' - 1 =? ALL_ONES v then OK [net]
          else rest ← summarize_loop v first_int' last_int; OK (net :: rest) } }.
Proof.
  assert (0 < Z.shiftl 1 nbits)
    by (rewrite Z.shiftl_1_l; apply Z.pow_pos_nonneg; lia).
  unfold Zwf; lia.
Qed.

(** [summarize_address_range(first, last)], with the generator run to its
    end. *)
Definition summarize_address_range (first last : address)
  : result (list network) :=
  if negb (bool_decide (addr_version first = addr_version last))
  then Raise TypeError
  else if ip first >? ip last then Raise ValueError
  else summarize_loop (addr_version first) (ip first) (ip last).

(** [str(IPv4Address)]: the four octets in decimal. *)
Definition octet (n : Z) (i : Z) : N :=
  Z.to_N (Z.land (Z.shiftr n (8 * i)) 255).

Definition str_v4 (n : Z) : str :=
  join (lit ".") (List.map (fun i => str_of_N (octet n i)) [3; 2; 1; 0]).

(** [_compress_hextets]: the longest run of at least two ["0"] hextets
    (the first one of that length) is replaced by one empty string, with
    an extra empty string when the run touches either end. *)
Definition compress_scan (hextets : list str) : Z * Z :=
  let '(best_start, best_len, _, _, _) :=
    fold_left
      (fun '(best_start, best_len, start, len, index) hextet =>
         if bool_decide (hextet = lit "0") then
           let len := len + 1 in
           let start := if start =? -1 then index else start in
           if len >? best_len
           then (start, len, start, len, index + 1)
           else (best_start, best_len, start, len, index + 1)
         else (best_start, best_len, -1, 0, index + 1))
      hextets (-1, 0, -1, 0, 0) in
  (best_start, best_len).

Definition compress_hextets (hextets : list str) : list str :=
  let '(best_start, best_len) := compress_scan hextets in
  if best_len >? 1 then
    let best_end := best_start + best_len in
    let hextets :=
      if best_end =? Z.of_nat (length hextets) then hextets ++ [[]]
      else hextets in
    let hextets :=
      take (Z.to_nat best_start) hextets ++ [[]]
      ++ drop (Z.to_nat best_end) hextets in
    if best_start =? 0 then [] :: hextets else hextets
  else hextets.

(** [str(IPv6Address)] ([_string_from_ip_int]). *)
Definition hextet (n : Z) (i : Z) : N :=
  Z.to_N (Z.land (Z.shiftr n (16 * i)) 65535).

Definition str_v6 (n : Z) : str :=
  join (lit ":")
       (compress_hextets
          (List.map (fun i => hex_of_N (hextet n i)) [7; 6; 5; 4; 3; 2; 1; 0])).

(** [str(net)]: address, slash, prefix length. *)
Definition str_network (net : network) : str :=
  (match net_version net with
   | V4 => str_v4 (network_address net)
   | V6 => str_v6 (network_address net)
   end) ++ lit "/" ++ str_of_N (Z.to_N (prefixlen net)).

(** *** Paths, the file system and the network

    A path is the list of its components below the root, which is the
    empty list.  A file system is the set of its directories and the
    content of its files; the root is always a directory. *)

Record filesystem : Type := mkFS {
  dirs : gset (list str);
  files : gmap (list str) bytes
}.

Inductive os_error : Type :=
| FileExistsError
| FileNotFoundError
| NotADirectoryError
| IsADirectoryError.

(** What ends a call that changes the file system other than a return:
    one of the exceptions above, an [OSError], or [sys.exit(code)]. *)
Inductive error : Type :=
| Exn (e : exn)
| OSError (e : os_error)
| SystemExit (code : Z).

(** The outcome of such a call, with the file system it leaves. *)
Inductive run (A : Type) : Type :=
| Return (fs : filesystem) (a : A)
| Throw (fs : filesystem) (e : error).
Arguments Return {A} fs a.
Arguments Throw {A} fs e.

Definition and_then {A B} (m : run A) (k : filesystem -> A -> run B) : run B :=
  match m with
  | Return fs a => k fs a
  | Throw fs e => Throw fs e
  end.

(** [Path.is_file()], [Path.is_dir()], [Path.parent], [Path.joinpath]. *)
Definition is_file (fs : filesystem) (p : list str) : bool :=
  bool_decide (is_Some (files fs !! p)).

Definition is_dir (fs : filesystem) (p : list str) : bool :=
  bool_decide (p = [] \/ p ∈ dirs fs).

Definition parent (p : list str) : list str := removelast p.

Definition joinpath (p : list str) (name : str) : list str := p ++ [name].

(** Some proper ancestor of [p] is a file. *)
Definition blocked (fs : filesystem) (p : list str) : bool :=
  existsb (fun n => is_file fs (take n p)) (seq 0 (length p)).

(** [os.mkdir(p)]. *)
Definition os_mkdir (fs : filesystem) (p : list str) : run unit :=
  if is_dir fs p || is_file fs p then Throw fs (OSError FileExistsError)
  else if blocked fs p then Throw fs (OSError NotADirectoryError)
  else if negb (is_dir fs (parent p)) then Throw fs (OSError FileNotFoundError)
  else Return (mkFS ({[p]} ∪ dirs fs) (files fs)) tt.

(** [p.mkdir(parents=False, exist_ok=exist_ok)]. *)
Definition mkdir_single (fs : filesystem) (p : list str) (exist_ok : bool)
  : run unit :=
  match os_mkdir fs p with
  | Return fs' u => Return fs' u
  | Throw fs' (OSError FileNotFoundError) =>
      Throw fs' (OSError FileNotFoundError)
  | Throw fs' e =>
      if negb exist_ok || negb (is_dir fs' p) then Throw fs' e
      else Return fs' tt
  end.

(** [p.mkdir(parents=True, exist_ok=exist_ok)]: a missing parent is made
    first, with [parents=True, exist_ok=True]. *)
Equations? mkdir_parents (fs : filesystem) (p : list str) (exist_ok : bool)
  : run unit by wf (length p) lt :=
  mkdir_parents fs p exist_ok with os_mkdir fs p => {
    | Return fs' u => Return fs' u;
    | Throw fs' (OSError FileNotFoundError) with decide (parent p = p) => {
      | left _ => Throw fs' (OSError FileNotFoundError);
      | right _ =>
          and_then (mkdir_parents fs' (parent p) true)
                   (fun fs'' _ => mkdir_single fs'' p exist_ok) };
    | Throw fs' e =>
        if negb exist_ok || negb (is_dir fs' p) then Throw fs' e
        else Return fs' tt }.
Proof.
  unfold parent in *. destruct p as [|c p] using rev_ind; [done|].
  rewrite removelast_last, length_app. simpl. lia.
Qed.

(** [p.open("wb")]: the file is created, or emptied if it is there. *)
Definition open_wb (fs : filesystem) (p : list str) : run unit :=
  if is_dir fs p then Throw fs (OSError IsADirectoryError)
  else if blocked fs p then Throw fs (OSError NotADirectoryError)
  else if negb (is_dir fs (parent p)) then Throw fs (OSError FileNotFoundError)
  else Return (mkFS (dirs fs) (<[p := []]> (files fs))) tt.

(** [storage.write(chunk)] on the file opened at [p]. *)
Definition write (fs : filesystem) (p : list str) (chunk : bytes)
  : filesystem :=
  mkFS (dirs fs) (<[p := default [] (files fs !! p) ++ chunk]> (files fs)).

(** The response to a [requests.get(url, stream=True)]: its status code
    and the chunks that [iter_content] yields.  A request that gets no
    response (a connection error) is not modelled. *)
Record response : Type := mkResponse {
  status_code : Z;
  iter_content : list bytes
}.

(** A date, and its [strftime("%Y/%m/%Y-%m-%d.zip")]. *)
Record date : Type := mkDate {
  year : N;
  month : N;
  day : N
}.

Definition two_digits (n : N) : str :=
  if (n <? 10)%N then lit "0" ++ str_of_N n else str_of_N n.

Definition strftime_zip (d : date) : str :=
  str_of_N (year d) ++ lit "/" ++ two_digits (month d) ++ lit "/"
  ++ str_of_N (year d) ++ lit "-" ++ two_digits (month d) ++ lit "-"
  ++ two_digits (day d) ++ lit ".zip".

End Py.

(** ** [src/blagbl/main.py] *)

Module Main.
Import Py.

(** A lookup result, the dictionary whose keys are [COLUMN_NAMES]
    (lines 20-21); [ip_numeric] is present for address results only. *)
Record record : Type := mkRecord {
  ip_numeric : option Z;
  ASN : str;
  owner : str;
  country : str;
  ip_range : Z * Z
}.

(** Lines 161-168 of [output_pcap_filter]: the networks of one result. *)
Definition range_networks (range : Z * Z) : result (list network) :=
  let '(left_int, right_int) := range in
  if left_int <=? 2 ^ 33 then
    left_addr ← IPv4Address left_int;
    right_addr ← IPv4Address right_int;
    summarize_address_range left_addr right_addr
  else
    left_addr ← IPv6Address left_int;
    right_addr ← IPv6Address right_int;
    summarize_address_range left_addr right_addr.

(** Lines 159-170: the list [expressions] when the loop ends. *)
Definition expressions (results : list record) : result (list str) :=
  for_each (fun expressions result =>
              ranges ← range_networks (ip_range result);
              OK (expressions
                  ++ List.map (fun range => lit "net " ++ str_network range)
                              ranges))
           results [].

(** [output_pcap_filter(results)], lines 157-173: the text written to
    standard output, and whether the call returns. *)
Definition output_pcap_filter (results : list record) : str * result unit :=
  match expressions results with
  | OK expressions =>
      (lit "( " ++ join (lit " or ") expressions ++ lit " )" ++ [LF], OK tt)
  | Raise e => (lit "( ", Raise e)
  end.

(** A field of a row of [process_fsdb]. *)
Inductive cell : Type :=
| Text (s : str)
| Int (n : Z)
| Range (r : Z * Z).

(** [output_fsdb_row(outf, address, result)], lines 139-154: the row
    appended to [outf]. *)
Definition output_fsdb_row (address : cell) (result : record) : list cell :=
  match ip_numeric result with
  | Some n =>
      [address; Int n; Text (ASN result); Text (owner result);
       Text (country result); Range (ip_range result)]
  | None =>
      [Text (ASN result); Text (owner result); Text (country result);
       Range (ip_range result)]
  end.

Section process_fsdb.

(** The index object [i2a] that [process_fsdb] receives: the package
    does not define its class, so the two methods are assumptions of
    this section. *)
Variable lookup_asn : str -> Z -> list record.
Variable lookup_address : str -> option record.

(** The body of the loop of [process_fsdb], lines 186-210: the row that
    is appended to the output for the input row [row], whose key column
    holds [key]. *)
Definition process_row (by_asn : bool) (key : str) (row : list cell)
  : result (list cell) :=
  let dashes := replicate 5 (Text (lit "-")) in
  if by_asn then
    let results := lookup_asn key 1 in
    if (length results =? 0)%nat then OK (row ++ dashes)
    else
      r ← getitem results 0;
      OK (row ++ [Text (owner r); Text (country r); Range (ip_range r)])
  else
    match lookup_address key with
    | Some r =>
        n ← match ip_numeric r with
            | Some n => OK n
            | None => Raise (KeyError (lit "ip_numeric"))
            end;
        OK (row ++ [Int n; Text (ASN r); Text (owner r); Text (country r);
                    Range (ip_range r)])
    | None => OK (row ++ dashes)
    end.

End process_fsdb.

(** Modelled from the spec: [lookup_asn], the method of the index object
    that [process_fsdb] calls as [i2a.lookup_asn(row[key_col], limit=1)];
    no file of the package defines it.  The spec's words: a linear scan of
    all resolved entries whose descriptor ASN field equals the query, in
    dataset iteration order, truncated to [limit] results when
    [limit > 0]; a limit of 0 means unbounded. *)
Fixpoint scan_asn (index : list record) (asn : str) : list record :=
  match index with
  | [] => []
  | r :: index' =>
      if bool_decide (ASN r = asn) then r :: scan_asn index' asn
      else scan_asn index' asn
  end.

Definition lookup_asn (index : list record) (asn : str) (limit : Z)
  : list record :=
  let matches := scan_asn index asn in
  if limit >? 0 then take (Z.to_nat limit) matches else matches.

(** [COLUMN_NAMES] and [ASN_COLUMN_NAMES], lines 20-21. *)
Definition COLUMN_NAMES : list str :=
  [lit "address"; lit "ip_numeric"; lit "ASN"; lit "owner"; lit "country";
   lit "ip_range"].

Definition ASN_COLUMN_NAMES : list str :=
  [lit "ASN"; lit "owner"; lit "country"; lit "ip_range"].

(** Lines 179-182 of [process_fsdb]: the columns declared for the output,
    from those of the input. *)
Definition out_column_names (by_asn : bool) (column_names : list str)
  : list str :=
  if by_asn then column_names ++ drop 1 ASN_COLUMN_NAMES
  else column_names ++ drop 1 COLUMN_NAMES.

Section storage.

(** The environment of a run: the components of [$HOME] and of the
    working directory, the response of the server to a request, and what
    [dateparser.parse("yesterday")] returns.  Log messages are left
    out. *)
Variable home : list str.
Variable cwd : list str.
Variable http : str -> response.
Variable yesterday : option date.

(** [default_store], line 23. *)
Definition default_store : list str :=
  home ++ [lit ".local"; lit "share"; lit "blag"].

(** [get_blag_path(args, exit_on_error)], lines 213-232;
    [blag_database] is [args.blag_database]. *)
Definition get_blag_path (fs : filesystem) (blag_database : list str)
  (exit_on_error : bool) : run (list str) :=
  let database := joinpath default_store (lit "blag.zip") in
  if is_file fs blag_database then Return fs blag_database
  else if is_file fs (joinpath cwd (lit "blag.zip"))
  then Return fs (joinpath cwd (lit "blag.zip"))
  else if is_file fs database then Return fs database
  else if exit_on_error then Throw fs (SystemExit 1)
  else Return fs database.

(** The path of the request, lines 236-238. *)
Definition date_path_or_yesterday (fs : filesystem) (date_path : option str)
  : run str :=
  match date_path with
  | Some (c :: s) => Return fs (c :: s)
  | _ =>
      match yesterday with
      | Some d => Return fs (strftime_zip d)
      | None => Throw fs (Exn AttributeError)
      end
  end.

Definition request_url (date_path : str) : str :=
  lit "https://steel.isi.edu/projects/BLAG/data/" ++ date_path.

(** [fetch_blag(storage_directory, date_path)], lines 235-262. *)
Definition fetch_blag (fs : filesystem) (storage_directory : list str)
  (date_path : option str) : run unit :=
  and_then (date_path_or_yesterday fs date_path) (fun fs date_path =>
  let request_url := request_url date_path in
  and_then (if negb (is_dir fs storage_directory)
            then mkdir_parents fs storage_directory false
            else Return fs tt) (fun fs _ =>
  let zip_storage := joinpath storage_directory (lit "blag.zip") in
  let request := http request_url in
  if negb (status_code request =? 200) then Throw fs (SystemExit 1)
  else
    and_then (open_wb fs zip_storage) (fun fs _ =>
    Return (fold_left (fun fs chunk => write fs zip_storage chunk)
                      (iter_content request) fs) tt))).

(** [main()] with [--fetch], lines 296-302. *)
Definition main_fetch (fs : filesystem) (blag_database : list str)
  : run unit :=
  and_then (get_blag_path fs blag_database false) (fun fs database =>
  and_then (fetch_blag fs database None) (fun fs _ =>
  Throw fs (SystemExit 0))).

End storage.

(** Lines 281-284 of [parse_blag_contents]: the table [blag_map]. *)
Definition read_blag_map (map_list : str) : result (gmap str str) :=
  let map_csv := csv_reader (split map_list) in
  for_rows (fun (blag_map : gmap str str) row =>
              v ← getitem row 0;
              k ← getitem row 1;
              OK (<[k := v]> blag_map))
           map_csv ∅.

(** Lines 286-290 of [parse_blag_contents]: the dictionary [ips]. *)
Definition read_ips (blag_map : gmap str str) (blag_list : str)
  : result (gmap str (list str)) :=
  let blag_csv := csv_reader (split blag_list) in
  for_rows (fun (ips : gmap str (list str)) row =>
              '(ip, row) ← pop0 row;
              descs ← comprehension (dict_getitem blag_map) row;
              OK (<[ip := descs]> ips))
           blag_csv ∅.

(** [parse_blag_contents(blag_list, map_list)], lines 279-292. *)
Definition parse_blag_contents (blag_list map_list : str)
  : result (gmap str (list str)) :=
  blag_map ← read_blag_map map_list;
  ips ← read_ips blag_map blag_list;
  OK ips.

(** [fetch_blag_files(storage_file)], lines 265-276; [zfile] is the
    archive stored at [storage_file]. *)
Definition fetch_blag_files (zfile : list ZipInfo) : result (str * str) :=
  let items := infolist zfile in
  blag_name ← getitem items 1;
  map_name ← getitem items 2;
  blag_contents ← zip_read zfile (filename blag_name);
  map_contents ← zip_read zfile (filename map_name);
  blag_text ← decode_utf8 blag_contents;
  map_text ← decode_utf8 map_contents;
  OK (blag_text, map_text).

(** What one query hands to the caller: nothing, or a descriptor list. *)
Inductive outcome : Type :=
| Absent
| Found (descs : list str).

(** The lookup of [main], lines 311-312: [if ip in ips: ... ips[ip]]. *)
Definition lookup (ips : gmap str (list str)) (ip : str) : result outcome :=
  if decide (is_Some (ips !! ip))
  then descs ← dict_getitem ips ip; OK (Found descs)
  else OK Absent.

(** The line printed for a hit: [f"{ip:<40} {', '.join(ips[ip])}"]. *)
Definition report_line (ip : str) (descs : list str) : str :=
  ljust 40 ip ++ lit " " ++ join (lit ", ") descs.

(** [main()] after argument parsing, without [--fetch], lines 304-312:
    the strings handed to the builtin [print] for [addresses], each
    written as a line. *)
Definition main (zfile : list ZipInfo) (addresses : list str)
  : result (list str) :=
  '(blag_list, map_list) ← fetch_blag_files zfile;
  ips ← parse_blag_contents blag_list map_list;
  for_each (fun out ip =>
              r ← lookup ips ip;
              match r with
              | Found descs => OK (out ++ [report_line ip descs])
              | Absent => OK out
              end)
           addresses [].

End Main.

(** ** [src/blagbl/__init__.py] *)

Module BlagBL.
Import Py.

(** An instance of the class; [database] is the archive stored at the
    path the instance holds. *)
Record t : Type := mkBlagBL {
  database : list ZipInfo;
  blag_list : option str;
  map_list : option str;
  ips : option (defaultdict (list str))
}.

(** [BlagBL(database)] once the path is resolved, lines 30-33. *)
Definition init (zfile : list ZipInfo) : t :=
  mkBlagBL zfile None None None.

(** The attribute [database] is a [str] or a [pathlib.Path]. *)
Inductive path_value : Type :=
| StrPath (p : list str)
| PathObject (p : list str).

Definition path_of (v : path_value) : list str :=
  match v with StrPath p | PathObject p => p end.

Section storage.

Variable home : list str.
Variable cwd : list str.
Variable http : str -> response.
Variable yesterday : option date.

(** [default_store], line 24. *)
Definition default_store : list str :=
  home ++ [lit ".local"; lit "share"; lit "blag"].

(** [self.get_blag_path(suggested_database, exit_on_error)], lines 53-74;
    [suggested_database] is [None] for [None] and for the empty string. *)
Definition get_blag_path (fs : filesystem)
  (suggested_database : option path_value) (exit_on_error : bool)
  : run path_value :=
  let database := joinpath default_store (lit "blag.zip") in
  match suggested_database with
  | Some s =>
      if is_file fs (path_of s) then Return fs s
      else if is_file fs (joinpath cwd (lit "blag.zip"))
      then Return fs (StrPath (joinpath cwd (lit "blag.zip")))
      else if is_file fs database then Return fs (PathObject database)
      else if exit_on_error then Throw fs (SystemExit 1)
      else Return fs (PathObject database)
  | None =>
      if is_file fs (joinpath cwd (lit "blag.zip"))
      then Return fs (StrPath (joinpath cwd (lit "blag.zip")))
      else if is_file fs database then Return fs (PathObject database)
      else if exit_on_error then Throw fs (SystemExit 1)
      else Return fs (PathObject database)
  end.

(** [database.parent()]: [parent] is a property, so on a [Path] the call
    is a call of the parent path, and a [str] has no such attribute. *)
Definition call_parent (fs : filesystem) (database : path_value)
  : run (list str) :=
  match database with
  | PathObject _ => Throw fs (Exn TypeError)
  | StrPath _ => Throw fs (Exn AttributeError)
  end.

(** [self.fetch(date_path)], lines 76-98, on the attribute [database]. *)
Definition fetch (fs : filesystem) (database : path_value)
  (date_path : option str) : run unit :=
  and_then (Main.date_path_or_yesterday yesterday fs date_path)
    (fun fs date_path =>
  let request_url := Main.request_url date_path in
  and_then (call_parent fs database) (fun fs parent_dir =>
  and_then (if negb (is_dir fs parent_dir)
            then mkdir_parents fs (path_of database) false
            else Return fs tt) (fun fs _ =>
  let request := http request_url in
  if negb (status_code request =? 200) then Throw fs (SystemExit 1)
  else
    and_then (open_wb fs (path_of database)) (fun fs _ =>
    Return (fold_left (fun fs chunk => write fs (path_of database) chunk)
                      (iter_content request) fs) tt)))).

End storage.

(** Truth value of an attribute that is [None] or a [str]. *)
Definition truthy (s : option str) : bool :=
  match s with
  | None | Some [] => false
  | Some (_ :: _) => true
  end.

(** The text held by an attribute that the code uses as a [str]. *)
Definition text (s : option str) : result str :=
  match s with
  | Some s => OK s
  | None => Raise AttributeError
  end.

(** [self.extract_blag_files()], lines 100-114. *)
Definition extract_blag_files (self : t) : result ((str * str) * t) :=
  let zfile := database self in
  let items := infolist zfile in
  blag_name ← getitem items 1;
  map_name ← getitem items 2;
  blag_contents ← zip_read zfile (filename blag_name);
  map_contents ← zip_read zfile (filename map_name);
  blag_text ← decode_utf8 blag_contents;
  map_text ← decode_utf8 map_contents;
  OK ((blag_text, map_text),
      mkBlagBL zfile (Some blag_text) (Some map_text) (ips self)).

(** Lines 118-119: extract unless both texts are already loaded. *)
Definition ensure_extracted (self : t) : result t :=
  if negb (truthy (blag_list self)) || negb (truthy (map_list self))
  then '(_, self') ← extract_blag_files self; OK self'
  else OK self.

(** Lines 121-124 of [parse_blag_contents]: the table [blag_map]. *)
Definition read_blag_map (map_list : str) : result (gmap str str) :=
  let map_csv := csv_reader (split map_list) in
  for_rows (fun (blag_map : gmap str str) row =>
              v ← getitem row 0;
              k ← getitem row 1;
              OK (<[k := v]> blag_map))
           map_csv ∅.

(** Lines 126-130 of [parse_blag_contents]: the [defaultdict] [ips]. *)
Definition read_ips (blag_map : gmap str str) (blag_list : str)
  : result (defaultdict (list str)) :=
  let blag_csv := csv_reader (split blag_list) in
  for_rows (fun (ips : defaultdict (list str)) row =>
              '(ip, row) ← pop0 row;
              descs ← comprehension (dict_getitem blag_map) row;
              OK (dd_setitem ips ip descs))
           blag_csv (mkDefaultdict [] ∅).

(** [self.parse_blag_contents()], lines 116-133: the value returned and
    the instance afterwards. *)
Definition parse_blag_contents (self : t)
  : result (defaultdict (list str) * t) :=
  self ← ensure_extracted self;
  map_text ← text (map_list self);
  blag_map ← read_blag_map map_text;
  blag_text ← text (blag_list self);
  ips ← read_ips blag_map blag_text;
  OK (ips, mkBlagBL (database self) (blag_list self) (map_list self)
                    (Some ips)).

End BlagBL.

(** ** [src/blagbl/tools/main.py] *)

Module Tools.
Import Py.

(** The lookup of [main], line 167: [bl.ips[ip]] on the [defaultdict]. *)
Definition lookup (ips : defaultdict (list str)) (ip : str)
  : Main.outcome * defaultdict (list str) :=
  let '(descs, ips') := dd_getitem ips ip in (Main.Found descs, ips').

Section main.

(** The name [print] of this module: [rich.print] when [rich] can be
    imported (lines 14-20), the builtin otherwise.  A call writes some
    text, which for [rich] is its rendering of the argument (markup
    consumed, long lines wrapped), or raises. *)
Variable print : str -> result str.

(** [main()] after argument parsing, without [--fetch], lines 163-167:
    what the calls of [print] write for [addresses], call by call. *)
Definition main (zfile : list ZipInfo) (addresses : list str)
  : result (list str) :=
  let bl := BlagBL.init zfile in
  '(ips, bl) ← BlagBL.parse_blag_contents bl;
  '(out, _) ←
     for_each (fun '(out, ips) ip =>
                 let '(r, ips') := lookup ips ip in
                 match r with
                 | Main.Found descs =>
                     written ← print (Main.report_line ip descs);
                     OK (out ++ [written], ips')
                 | Main.Absent => OK (out, ips')
                 end)
              addresses ([], ips);
  OK out.

End main.

(** [main()] with [--fetch], lines 155-161: the instance is made with
    [exit_on_error=False], then [bl.fetch()] and [sys.exit()]. *)
Definition main_fetch (home cwd : list str) (http : str -> response)
  (yesterday : option date) (fs : filesystem)
  (blag_database : option BlagBL.path_value) : run unit :=
  and_then (BlagBL.get_blag_path home cwd fs blag_database false)
    (fun fs database =>
  and_then (BlagBL.fetch http yesterday fs database None) (fun fs _ =>
  Throw fs (SystemExit 0))).

End Tools.

Import Py.

(** ** Vocabulary of the statements *)

(** The rows of a dataset text: what the reader yields for the tokens of
    [str.split], up to the point where it raises, if it does. *)
Definition records (text : str) : list (list str) :=
  fst (csv_reader (split text)).

(** The exception, if any, with which the reader ends after these rows. *)
Definition reader_error (text : str) : option exn :=
  snd (csv_reader (split text)).

(** What follows the last row: the exception of the reader, or the value
    of the loop. *)
Definition then_raise {A} (e : option exn) (a : A) : result A :=
  match e with
  | Some e => Raise e
  | None => OK a
  end.

(** *** The dataset text format, in the spec's words

    Following the spec: records are separated by ASCII whitespace, and
    each record is a comma-separated row of fields.  [pieces sep s] cuts
    [s] at every separator; the records of a text are its non-empty
    pieces between whitespace, the fields of a record are its pieces
    between commas. *)
Definition ascii_whitespace (c : N) : bool :=
  ((c =? 9) || (c =? 10) || (c =? 11) || (c =? 12) || (c =? 13)
   || (c =? 32))%N.

Definition is_comma (c : N) : bool := (c =? COMMA)%N.

(** [p] put in front of the first piece. *)
Definition glue (p : str) (ps : list str) : list str :=
  match ps with
  | q :: qs => (p ++ q) :: qs
  | [] => [p]
  end.

Fixpoint pieces (sep : N -> bool) (s : str) : list str :=
  match s with
  | [] => [[]]
  | c :: s' => if sep c then [] :: pieces sep s' else glue [c] (pieces sep s')
  end.

Definition spec_records (text : str) : list (list str) :=
  pieces is_comma <$> filter (fun rec => rec <> []) (pieces ascii_whitespace text).

(** A text in the plain format: it has no double quote, the characters
    at which [str.split] cuts are the ASCII whitespace, and no field is
    longer than the reader accepts. *)
Definition plain (text : str) : Prop :=
  Forall (fun c => c <> QUOTE /\ isspace c = ascii_whitespace c) text
  /\ Forall (Forall (fun f => (N.of_nat (length f) <= field_limit)%N))
        (spec_records text).

#[global] Instance plain_dec text : Decision (plain text).
Proof. unfold plain. apply _. Defined.

(** A token of [split]: not empty, and free of whitespace. *)
Definition token (tok : str) : Prop :=
  tok <> [] /\ Forall (fun c => isspace c = false) tok.

(** Inside a record: neither between records nor after a line break. *)
Definition mid (r : reader) : Prop :=
  state r <> START_RECORD /\ state r <> EAT_CRNL.

(** The spec's table, in its words: field 1 of a record is the code,
    field 0 the descriptor, and of two records with one code the later
    one wins. *)
Fixpoint last_descriptor (rows : list (list str)) (code : str) : option str :=
  match rows with
  | [] => None
  | row :: rows' =>
      match last_descriptor rows' code with
      | Some d => Some d
      | None => if bool_decide (row !! 1%nat = Some code) then row !! 0%nat
                else None
      end
  end.

(** The bodies of the mapping loop and of the two entries loops. *)
Definition blag_map_step (blag_map : gmap str str) (row : list str)
  : result (gmap str str) :=
  v ← getitem row 0; k ← getitem row 1; OK (<[k := v]> blag_map).

(** The codes of the last record whose address is [addr]. *)
Fixpoint last_codes (rows : list (list str)) (addr : str)
  : option (list str) :=
  match rows with
  | [] => None
  | row :: rows' =>
      match last_codes rows' addr with
      | Some codes => Some codes
      | None =>
          match row with
          | a :: codes => if bool_decide (a = addr) then Some codes else None
          | [] => None
          end
      end
  end.

(** Codewise translation through the table; [None] if a code is absent. *)
Fixpoint resolve (table : gmap str str) (codes : list str)
  : option (list str) :=
  match codes with
  | [] => Some []
  | c :: codes' =>
      match table !! c, resolve table codes' with
      | Some d, Some ds => Some (d :: ds)
      | _, _ => None
      end
  end.

(** A record one of whose codes (the fields after the address) is absent
    from the table. *)
Definition unresolved (table : gmap str str) (row : list str) : Prop :=
  Exists (fun c => table !! c = None) (tail row).

#[global] Instance unresolved_dec table row : Decision (unresolved table row).
Proof. unfold unresolved. apply _. Defined.

Definition Main_ips_step (table : gmap str str)
  (ips : gmap str (list str)) (row : list str) : result (gmap str (list str)) :=
  '(ip, row) ← pop0 row;
  descs ← comprehension (dict_getitem table) row;
  OK (<[ip := descs]> ips).

Definition BlagBL_ips_step (table : gmap str str)
  (ips : defaultdict (list str)) (row : list str)
  : result (defaultdict (list str)) :=
  '(ip, row) ← pop0 row;
  descs ← comprehension (dict_getitem table) row;
  OK (dd_setitem ips ip descs).

(** An address is listed when it is field 0 of some record. *)
Definition listed (rows : list (list str)) (addr : str) : Prop :=
  Exists (fun row => head row = Some addr) rows.

(** *** Sample data *)

(** The mapping text of the spec's scenario: its second record is the
    single field [m1]. *)
Definition acme_mapping : str :=
  lit "ACME-ISP,3.3.4.4,US,1.2.3.4-1.2.3.10" ++ [LF] ++ lit "m1".

(** A mapping text in which the code [m1] comes twice. *)
Definition twice_mapping : str :=
  lit "OwnerX,m1" ++ [LF] ++ lit "OwnerY,m2,extra" ++ [LF] ++ lit "OwnerZ,m1".

(** Texts outside the plain format: a quoted field with a space in it, a
    quoted field with a comma in it, a quoted code; a no-break space,
    at which [str.split] cuts; a field one character longer than the
    reader accepts. *)
Definition quoted_space_mapping : str :=
  [QUOTE] ++ lit "a b" ++ [QUOTE] ++ lit ",c".

Definition quoted_comma_mapping : str :=
  [QUOTE] ++ lit "a,b" ++ [QUOTE] ++ lit ",c".

Definition quoted_code_entries : str :=
  lit "10.0.0.5," ++ [QUOTE] ++ lit "m1" ++ [QUOTE].

Definition NBSP : N := 160%N.

Definition long_field : str := replicate (N.to_nat (field_limit + 1)) 97%N.

Definition long_mapping : str := long_field ++ COMMA :: lit "m1".

(** Tables, and an entries text in which one address comes twice. *)
Definition one_code_table : gmap str str := {[ lit "m1" := lit "OwnerX" ]}.

Definition repeated_entries : str :=
  lit "10.0.0.5,m1,m2" ++ [LF] ++ lit "10.0.0.7,m1" ++ [LF] ++ lit "10.0.0.5,m2".

Definition two_code_table : gmap str str :=
  {[ lit "m1" := lit "OwnerX"; lit "m2" := lit "OwnerY" ]}.

(** An archive with two members filed under one name. *)
Definition duplicate_archive : list ZipInfo :=
  [ mkZipInfo (lit "README") (lit "r");
    mkZipInfo (lit "list") (lit "1.1.1.1,m1");
    mkZipInfo (lit "map") (lit "OwnerX,m1");
    mkZipInfo (lit "list") (lit "2.2.2.2,m1") ].

(** The archive of a one-entry dataset, and the dictionary parsed from
    it. *)
Definition dataset_archive : list ZipInfo :=
  [ mkZipInfo (lit "README") (lit "r");
    mkZipInfo (lit "list") (lit "10.0.0.5,m1");
    mkZipInfo (lit "map") (lit "OwnerX,m1") ].

Definition dataset_ips : gmap str (list str) :=
  {[ lit "10.0.0.5" := [lit "OwnerX"] ]}.

(** An index with two entries of one ASN. *)
Definition asn_index : list Main.record :=
  [ Main.mkRecord None (lit "111") (lit "OwnerX") (lit "US") (1, 2);
    Main.mkRecord None (lit "222") (lit "OwnerY") (lit "NL") (3, 4);
    Main.mkRecord None (lit "111") (lit "OwnerZ") (lit "US") (5, 6) ].

(** *** Networks

    The number of addresses of a network, and the addresses it holds. *)
Definition num_addresses (net : network) : Z :=
  2 ^ (max_prefixlen (net_version net) - prefixlen net).

Definition contains (net : network) (x : Z) : Prop :=
  network_address net <= x < network_address net + num_addresses net.

(** A CIDR prefix of the family [v]: a block of a power of two of
    addresses of the family, aligned on its own size. *)
Definition cidr_prefix (v : version) (net : network) : Prop :=
  net_version net = v
  /\ 0 <= prefixlen net <= max_prefixlen v
  /\ 0 <= network_address net
  /\ network_address net + num_addresses net <= 2 ^ max_prefixlen v
  /\ (num_addresses net | network_address net).

(** The union of the networks is exactly the interval from [lo] to [hi]. *)
Definition covers (nets : list network) (lo hi : Z) : Prop :=
  forall x, Exists (fun net => contains net x) nets <-> lo <= x <= hi.

(** No aligned block inside the interval from [a] to [b] has [first] in
    its interior. *)
Definition straddle_free (a b first : Z) : Prop :=
  forall s k, 0 <= k -> (2 ^ k | s) -> a <= s -> s + 2 ^ k - 1 <= b ->
    s < first -> first < s + 2 ^ k -> False.

(** The block of [2 ^ n] addresses at [first] lies in no larger aligned
    block inside the interval from [a] to [b]. *)
Definition maximal (bits a b first n : Z) : Prop :=
  forall s k, 0 <= k <= bits -> (2 ^ k | s) -> a <= s -> s + 2 ^ k - 1 <= b ->
    s <= first -> first + 2 ^ n <= s + 2 ^ k -> s = first /\ k = n.

(** [tiling v a b first nets]: the networks [nets] tile the interval from
    [first] to [b], in order, with maximal aligned blocks of the interval
    from [a] to [b]. *)
Inductive tiling (v : version) (a b : Z) : Z -> list network -> Prop :=
| tiling_done : tiling v a b (b + 1) []
| tiling_block first n rest :
    0 <= n <= max_prefixlen v ->
    (2 ^ n | first) ->
    first + 2 ^ n - 1 <= b ->
    maximal (max_prefixlen v) a b first n ->
    tiling v a b (first + 2 ^ n) rest ->
    tiling v a b first (mkNetwork v first (max_prefixlen v - n) :: rest).

(** What a tiling says of each of its blocks. *)
Definition greedy_block (v : version) (a b first : Z) (net : network) : Prop :=
  exists n,
    net = mkNetwork v (network_address net) (max_prefixlen v - n)
    /\ 0 <= n <= max_prefixlen v
    /\ first <= network_address net
    /\ (2 ^ n | network_address net)
    /\ network_address net + 2 ^ n - 1 <= b
    /\ maximal (max_prefixlen v) a b (network_address net) n.

(** *** Further vocabulary

    Definitions used by the statements on runs, filter expressions,
    ranges and the file system. *)


(** Line 171 of [output_pcap_filter]: the expression of one network. *)
Definition expression_of (range : network) : str :=
  lit "net " ++ str_network range.

(** The ranges that [output_pcap_filter] can decompose. *)
Definition decomposable (low high : Z) : Prop :=
  0 <= low <= high
  /\ (high < 2 ^ 32 \/ (2 ^ 33 < low /\ high < 2 ^ 128)).

(** The family that line 162 chooses from the lower bound. *)
Definition family_of (low : Z) : version :=
  if low <=? 2 ^ 33 then V4 else V6.

(** The networks of a range begin one where the other ends. *)
Fixpoint consecutive (start : Z) (nets : list network) (stop : Z) : Prop :=
  match nets with
  | [] => start = stop
  | net :: rest =>
      network_address net = start
      /\ consecutive (start + num_addresses net) rest stop
  end.

(** What a call leaves of the file system, however it ends. *)
Definition left_by {A} (m : run A) : filesystem :=
  match m with Return fs _ | Throw fs _ => fs end.

(** [fs'] has the files of [fs] and at least its directories. *)
Definition same_files (fs fs' : filesystem) : Prop :=
  files fs' = files fs /\ dirs fs ⊆ dirs fs'.

(** The ways [fetch_blag] can end. *)
Inductive fetch_end (http : str -> response) (fs : filesystem)
  (storage_directory : list str) (text : str) : run unit -> Prop :=
| fetch_no_directory fs1 oe :
    files fs1 = files fs -> dirs fs ⊆ dirs fs1 ->
    fetch_end http fs storage_directory text (Throw fs1 (OSError oe))
| fetch_refused fs1 :
    files fs1 = files fs -> dirs fs ⊆ dirs fs1 ->
    status_code (http (Main.request_url text)) <> 200 ->
    fetch_end http fs storage_directory text (Throw fs1 (SystemExit 1))
| fetch_stored fs1 :
    dirs fs ⊆ dirs fs1 -> is_dir fs1 storage_directory = true ->
    status_code (http (Main.request_url text)) = 200 ->
    files fs1
    = <[joinpath storage_directory (lit "blag.zip")
        := concat (iter_content (http (Main.request_url text)))]> (files fs) ->
    fetch_end http fs storage_directory text (Return fs1 tt).

(** A small world: an empty file system, a server that answers every
    request with two chunks, and a date. *)
Definition empty_fs : filesystem := mkFS ∅ ∅.

Definition two_chunks (url : str) : response :=
  mkResponse 200 [lit "PK"; lit "zip"].


Definition a_date : option date := Some (mkDate 2024 3 5).

(** No path is both a file and a directory. *)
Definition consistent (fs : filesystem) : Prop :=
  forall p, is_file fs p = true -> is_dir fs p = false.

(** * Properties *)

(** ** The result monad and loops *)

Lemma bind_OK {A B} (m : result A) (k : A -> result B) (b : B) :
  m ≫= k = OK b -> exists a, m = OK a /\ k a = OK b.
Proof. destruct m; simpl; [eauto | discriminate]. Qed.

Lemma for_each_app {A S} (body : S -> A -> result S) xs ys s :
  for_each body (xs ++ ys) s = for_each body xs s ≫= for_each body ys.
Proof.
  revert s; induction xs as [|x xs IH]; intros s; simpl; [done|].
  destruct (body s x); simpl; auto.
Qed.

(** ** Tokens and rows *)

Lemma split_from_tokens cur s :
  Forall (fun c => isspace c = false) cur ->
  Forall token (split_from cur s).
Proof.
  revert cur; induction s as [|c s IH]; intros cur Hcur; simpl.
  - destruct cur; [constructor|]. constructor; [by split | constructor].
  - destruct (isspace c) eqn:Hc.
    + destruct cur; [by apply IH|].
      constructor; [by split | by apply IH].
    + apply IH. apply Forall_app; split; [done|]. by repeat constructor.
Qed.

Lemma split_tokens s : Forall token (split s).
Proof. apply split_from_tokens. constructor. Qed.

Lemma not_space_not_newline c : isspace c = false -> is_newline (Ch c) = false.
Proof.
  unfold isspace, is_newline, LF, CR; intros H.
  destruct (N.eqb_spec c 10) as [->|]; [discriminate|].
  destruct (N.eqb_spec c 13) as [->|]; [discriminate|]. done.
Qed.

(** The reader raises nothing but its own error. *)
Lemma parse_add_char_cases r c :
  ((field_limit <= N.of_nat (length (field r)))%N
   /\ parse_add_char r (Ch c) = Raise CsvError)
  \/ ((N.of_nat (length (field r)) < field_limit)%N
      /\ parse_add_char r (Ch c)
         = OK (mkReader (state r) (field r ++ [c]) (fields r))).
Proof.
  unfold parse_add_char.
  destruct (N.leb_spec field_limit (N.of_nat (length (field r))));
    [by left | by right].
Qed.

Lemma parse_process_char_error r i e :
  parse_process_char r i = Raise e -> e = CsvError.
Proof.
  unfold parse_process_char, start_field.
  destruct i as [c|]; simpl;
    destruct (state r); simpl;
    repeat match goal with
           | |- context [if ?b then _ else _] => destruct b; simpl
           end;
    try discriminate;
    try (destruct (parse_add_char_cases r c) as [[_ ->]|[_ ->]]; simpl);
    try (destruct (parse_add_char_cases (set_state START_FIELD r) c)
           as [[_ ->]|[_ ->]]; simpl);
    congruence.
Qed.

Lemma for_each_error {A S} (body : S -> A -> result S) (P : exn -> Prop) :
  (forall s x e, body s x = Raise e -> P e) ->
  forall xs s e, for_each body xs s = Raise e -> P e.
Proof.
  intros Hbody xs. induction xs as [|x xs IH]; intros s e; simpl; [done|].
  destruct (body s x) as [s'|e'] eqn:Hb; simpl.
  - apply IH.
  - intros [= <-]. by eapply Hbody.
Qed.

Lemma parse_line_error r line e : parse_line r line = Raise e -> e = CsvError.
Proof.
  unfold parse_line.
  apply (for_each_error parse_process_char (fun e => e = CsvError)).
  intros. by eapply parse_process_char_error.
Qed.

Lemma process_char_mid r c r' :
  is_newline (Ch c) = false -> state r <> EAT_CRNL ->
  parse_process_char r (Ch c) = OK r' -> mid r'.
Proof.
  intros Hnl Hst. unfold parse_process_char, start_field.
  rewrite Hnl; simpl.
  destruct r as [st f fs]; simpl in *.
  destruct st; try done;
    destruct (c =? QUOTE)%N; destruct (c =? COMMA)%N; simpl;
    unfold parse_add_char; simpl;
    repeat match goal with
           | |- context [if ?b then _ else _] => destruct b; simpl
           end;
    first [discriminate | intros [= <-]; by split].
Qed.

Lemma process_chars_mid line r r' :
  Forall (fun c => isspace c = false) line ->
  (line <> [] /\ state r <> EAT_CRNL) \/ mid r ->
  for_each parse_process_char (List.map Ch line) r = OK r' -> mid r'.
Proof.
  revert r; induction line as [|c line IH]; intros r Hline Hr.
  - destruct Hr as [[? _]|Hr]; [done|]. simpl. by intros [= <-].
  - apply Forall_cons in Hline as [Hc Hline].
    apply not_space_not_newline in Hc. simpl.
    destruct (parse_process_char r (Ch c)) as [r1|] eqn:Hr1; simpl; [|done].
    apply IH; [done|]. right.
    eapply process_char_mid; [exact Hc| |exact Hr1].
    destruct Hr as [[_ ?]|[_ ?]]; done.
Qed.

Lemma process_EOL_mid r :
  mid r ->
  exists r', parse_process_char r EOL = OK r'
    /\ ((state r' = START_RECORD /\ fields r' <> [])
        \/ state r' = IN_QUOTED_FIELD).
Proof.
  intros [H1 H2]. destruct r as [st f fs]; simpl in *.
  unfold parse_process_char, start_field; simpl.
  destruct st; try done; simpl; eexists; (split; [reflexivity|]); simpl;
    first [ by right | left; split; [done|]; by destruct fs ].
Qed.

Lemma parse_line_token r line r' :
  token line -> r = parse_reset \/ state r = IN_QUOTED_FIELD ->
  parse_line r line = OK r' ->
  (state r' = START_RECORD /\ fields r' <> [])
  \/ state r' = IN_QUOTED_FIELD.
Proof.
  intros [Hne Hline] Hr. unfold parse_line. rewrite for_each_app.
  destruct (for_each parse_process_char (List.map Ch line) r) as [r1|] eqn:H1;
    simpl; [|done].
  apply process_chars_mid in H1; [|done|].
  - destruct (process_EOL_mid r1 H1) as (r2 & -> & H2).
    simpl. by intros [= <-].
  - destruct Hr as [->|Hr]; [left; by split|right; split; congruence].
Qed.

Lemma read_rows_tokens lines r :
  Forall token lines -> r = parse_reset \/ state r = IN_QUOTED_FIELD ->
  (snd (read_rows r lines) = None \/ snd (read_rows r lines) = Some CsvError)
  /\ Forall (fun row => row <> []) (fst (read_rows r lines)).
Proof.
  revert r; induction lines as [|line lines IH]; intros r Hlines Hr.
  - simpl. destruct Hr as [->|Hr]; simpl; [split; [by left|done]|].
    rewrite Hr. destruct (field r); simpl; (split; [by left|]);
      repeat constructor; by destruct (fields r).
  - apply Forall_cons in Hlines as [Hline Hlines]. simpl.
    destruct (parse_line r line) as [r'|e] eqn:Hp.
    + destruct (parse_line_token r line r' Hline Hr Hp) as [[Hst Hf]|Hst];
        rewrite Hst.
      * destruct (IH parse_reset Hlines (or_introl eq_refl)) as [He Hrows].
        destruct (read_rows parse_reset lines) as [rows e]; simpl in *.
        split; [done|]. by constructor.
      * apply IH; auto.
    + apply parse_line_error in Hp as ->. simpl. split; [by right|done].
Qed.

(** On the tokens of [split], every row the reader yields has at least one
    field, and the reader raises nothing but its own error. *)
Lemma records_nonempty text : Forall (fun row => row <> []) (records text).
Proof.
  unfold records, csv_reader.
  by destruct (read_rows_tokens (split text) parse_reset (split_tokens text)
                 (or_introl eq_refl)) as [_ ?].
Qed.

Lemma reader_error_cases text :
  reader_error text = None \/ reader_error text = Some CsvError.
Proof.
  unfold reader_error, csv_reader.
  by destruct (read_rows_tokens (split text) parse_reset (split_tokens text)
                 (or_introl eq_refl)) as [? _].
Qed.

Lemma for_rows_split {S} (body : S -> list str -> result S) text s :
  for_rows body (csv_reader (split text)) s
  = for_each body (records text) s ≫= then_raise (reader_error text).
Proof. reflexivity. Qed.

(** ** The plain format *)

Lemma pieces_nonempty sep s : pieces sep s <> [].
Proof.
  destruct s as [|c s]; simpl; [done|].
  destruct (sep c); [done|]. by destruct (pieces sep s).
Qed.

Lemma glue_nil ps : ps <> [] -> glue [] ps = ps.
Proof. by destruct ps. Qed.

Lemma glue_glue p q ps : glue p (glue q ps) = glue (p ++ q) ps.
Proof. destruct ps; simpl; by rewrite <- ?app_assoc. Qed.

Lemma pieces_ext sep sep' s :
  Forall (fun c => sep c = sep' c) s -> pieces sep s = pieces sep' s.
Proof.
  induction 1 as [|c s Hc _ IH]; simpl; [done|]. by rewrite Hc, IH.
Qed.

Lemma Forall_glue (P : N -> Prop) p ps :
  Forall P p -> Forall (Forall P) ps -> Forall (Forall P) (glue p ps).
Proof.
  intros Hp Hps. destruct ps as [|q qs]; simpl.
  - by repeat constructor.
  - apply Forall_cons in Hps as [Hq Hqs]. constructor; [|done].
    by apply Forall_app.
Qed.

Lemma pieces_Forall (P : N -> Prop) sep s :
  Forall P s -> Forall (Forall P) (pieces sep s).
Proof.
  induction 1 as [|c s Hc _ IH]; simpl; [by repeat constructor|].
  destruct (sep c); [by constructor|].
  apply Forall_glue; [by repeat constructor|done].
Qed.

Lemma pieces_free sep s :
  Forall (Forall (fun c => sep c = false)) (pieces sep s).
Proof.
  induction s as [|c s IH]; simpl; [by repeat constructor|].
  destruct (sep c) eqn:Hc; [by constructor|].
  apply Forall_glue; [by repeat constructor|done].
Qed.

Lemma pieces_none sep s :
  Forall (fun c => sep c = false) s -> pieces sep s = [s].
Proof.
  induction 1 as [|c s Hc _ IH]; simpl; [done|]. by rewrite Hc, IH.
Qed.

Lemma pieces_app sep p c s :
  Forall (fun c => sep c = false) p -> sep c = true ->
  pieces sep (p ++ c :: s) = p :: pieces sep s.
Proof.
  intros Hp Hc. induction Hp as [|d p Hd _ IH]; simpl.
  - by rewrite Hc.
  - by rewrite Hd, IH.
Qed.

(** [str.split] yields the non-empty pieces between its whitespace. *)
Lemma split_from_pieces cur s :
  split_from cur s
  = filter (fun tok => tok <> []) (glue cur (pieces isspace s)).
Proof.
  revert cur; induction s as [|c s IH]; intros cur; simpl.
  - rewrite app_nil_r. destruct cur; simpl; [done|].
    by rewrite filter_cons_True.
  - destruct (isspace c); simpl.
    + rewrite app_nil_r.
      assert (Hs : split_from [] s
                   = filter (fun tok => tok <> []) (pieces isspace s)).
      { rewrite IH, glue_nil; [done|apply pieces_nonempty]. }
      destruct cur as [|d cur].
      * by rewrite filter_cons_False by (intros H; by apply H).
      * by rewrite filter_cons_True, Hs.
    + by rewrite IH, glue_glue.
Qed.

Lemma split_pieces s :
  split s = filter (fun tok => tok <> []) (pieces isspace s).
Proof.
  unfold split. rewrite split_from_pieces, glue_nil; [done|].
  apply pieces_nonempty.
Qed.

(** A line without quote and line break, all of whose fields the reader
    accepts, is cut at its commas. *)
Lemma parse_line_plain line r :
  state r = START_FIELD /\ field r = [] \/ state r = IN_FIELD ->
  Forall (fun c => c <> QUOTE /\ isspace c = false) line ->
  Forall (fun f => (N.of_nat (length f) <= field_limit)%N)
    (glue (field r) (pieces is_comma line)) ->
  parse_line r line
  = OK (mkReader START_RECORD []
          (fields r ++ glue (field r) (pieces is_comma line))).
Proof.
  unfold parse_line.
  revert r; induction line as [|c line IH]; intros r Hst Hline Hlim.
  - simpl. rewrite app_nil_r. unfold parse_process_char, start_field.
    destruct r as [st f fs]; simpl in *.
    by destruct Hst as [[-> ->]| ->].
  - apply Forall_cons in Hline as [[Hq Hc] Hline].
    pose proof (not_space_not_newline c Hc) as Hnl.
    assert (Hquote : (c =? QUOTE)%N = false) by by apply N.eqb_neq.
    revert Hlim. cbn [List.map app for_each pieces].
    destruct (is_comma c) eqn:Hcomma; intros Hlim; unfold is_comma in Hcomma.
    + (* a comma ends the field *)
      assert (Hstep : parse_process_char r (Ch c)
                = OK (mkReader START_FIELD [] (fields r ++ [field r]))).
      { unfold parse_process_char, start_field. rewrite Hnl.
        destruct r as [st f fs]; simpl in *.
        destruct Hst as [[-> ->]| ->]; simpl; by rewrite ?Hquote, Hcomma. }
      rewrite Hstep. simpl. simpl in Hlim. rewrite app_nil_r in Hlim |- *.
      apply Forall_cons in Hlim as [_ Hlim].
      rewrite IH; simpl.
      * rewrite glue_nil by apply pieces_nonempty.
        by rewrite <- app_assoc.
      * by left.
      * done.
      * by rewrite glue_nil by apply pieces_nonempty.
    + (* any other character joins the field *)
      rewrite glue_glue in Hlim |- *.
      assert (Hroom : (N.of_nat (length (field r)) < field_limit)%N).
      { destruct (pieces is_comma line) as [|p ps]; simpl in Hlim;
          apply Forall_cons in Hlim as [Hlen _];
          rewrite !length_app in Hlen; simpl in Hlen; lia. }
      assert (Hstep : parse_process_char r (Ch c)
                = OK (mkReader IN_FIELD (field r ++ [c]) (fields r))).
      { unfold parse_process_char, start_field. rewrite Hnl.
        destruct (parse_add_char_cases r c) as [[? _]|[_ Ha]]; [lia|].
        destruct r as [st f fs]; simpl in *.
        destruct Hst as [[-> ->]| ->]; simpl; rewrite ?Hquote, Hcomma;
          simpl; [|by rewrite Ha].
        unfold parse_add_char in Ha |- *. simpl in *.
        destruct (field_limit <=? 0)%N; [done|]. done. }
      rewrite Hstep. simpl. apply IH; [by right|done|done].
Qed.

Lemma parse_line_record line :
  line <> [] ->
  Forall (fun c => c <> QUOTE /\ isspace c = false) line ->
  Forall (fun f => (N.of_nat (length f) <= field_limit)%N)
    (pieces is_comma line) ->
  parse_line parse_reset line
  = OK (mkReader START_RECORD [] (pieces is_comma line)).
Proof.
  intros Hne Hline Hlim.
  transitivity (parse_line (mkReader START_FIELD [] []) line).
  - destruct line as [|c line]; [done|].
    apply Forall_cons in Hline as [[_ Hc] _].
    unfold parse_line. cbn [List.map app for_each]. f_equal.
    pose proof (not_space_not_newline c Hc) as Hnl.
    unfold parse_process_char. simpl. simpl in Hnl. by rewrite Hnl.
  - rewrite parse_line_plain; simpl.
    + by rewrite glue_nil by apply pieces_nonempty.
    + by left.
    + done.
    + by rewrite glue_nil by apply pieces_nonempty.
Qed.

Lemma read_rows_plain lines :
  Forall (fun line => line <> []
            /\ Forall (fun c => c <> QUOTE /\ isspace c = false) line
            /\ Forall (fun f => (N.of_nat (length f) <= field_limit)%N)
                 (pieces is_comma line)) lines ->
  read_rows parse_reset lines = (pieces is_comma <$> lines, None).
Proof.
  induction 1 as [|line lines (Hne & Hline & Hlim) _ IH]; [done|].
  simpl. rewrite parse_line_record by done. simpl. by rewrite IH.
Qed.

(** On a plain text the reader yields the records of the spec, and does
    not raise. *)
Lemma reader_plain text :
  plain text -> csv_reader (split text) = (spec_records text, None).
Proof.
  intros [Hchars Hlim]. unfold csv_reader, spec_records in *.
  assert (Hsame : pieces isspace text = pieces ascii_whitespace text).
  { apply pieces_ext. eapply Forall_impl; [exact Hchars|]. by intros c [_ ?]. }
  rewrite split_pieces, Hsame. apply read_rows_plain.
  rewrite <- Hsame.
  apply Forall_forall. intros tok Htok.
  apply list_elem_of_filter in Htok as [Hne Htok].
  split; [done|]. split.
  - pose proof (pieces_free isspace text) as Hfree.
    assert (Hq : Forall (Forall (fun c => c <> QUOTE)) (pieces isspace text)).
    { apply pieces_Forall. eapply Forall_impl; [exact Hchars|].
      by intros c [? _]. }
    eapply Forall_forall in Hfree; [|exact Htok].
    eapply Forall_forall in Hq; [|exact Htok].
    apply Forall_forall. intros c Hc. split.
    + by eapply Forall_forall in Hq.
    + by eapply Forall_forall in Hfree.
  - rewrite Forall_fmap in Hlim. eapply Forall_forall in Hlim; [exact Hlim|].
    apply list_elem_of_filter. split; [done|]. by rewrite <- Hsame.
Qed.

Lemma records_plain text : plain text -> records text = spec_records text.
Proof. intros H. unfold records. by rewrite reader_plain. Qed.

Lemma reader_error_plain text : plain text -> reader_error text = None.
Proof. intros H. unfold reader_error. by rewrite reader_plain. Qed.

(** ** A field too long *)

(** Once the characters of one field outnumber the limit, the reader
    raises. *)
Lemma parse_overflow (s : str) (rest : list input) r :
  state r = START_FIELD /\ field r = [] \/ state r = IN_FIELD ->
  Forall (fun c => c <> QUOTE /\ c <> COMMA /\ isspace c = false) s ->
  (N.of_nat (length (field r)) <= field_limit)%N ->
  (field_limit < N.of_nat (length (field r) + length s))%N ->
  for_each parse_process_char (List.map Ch s ++ rest) r = Raise CsvError.
Proof.
  revert r; induction s as [|c s IH]; intros r Hst Hs Hle Hlt.
  - simpl in Hlt. lia.
  - apply Forall_cons in Hs as [(Hq & Hcomma & Hc) Hs].
    pose proof (not_space_not_newline c Hc) as Hnl.
    apply N.eqb_neq in Hq, Hcomma.
    cbn [List.map app for_each].
    assert (Hstep : parse_process_char r (Ch c)
              = (r' ← parse_add_char r (Ch c); OK (set_state IN_FIELD r'))).
    { unfold parse_process_char, start_field. rewrite Hnl.
      destruct r as [st f fs]; simpl in *.
      destruct Hst as [[-> ->]| ->]; simpl; rewrite ?Hq, Hcomma; [done|].
      unfold parse_add_char; simpl.
      by destruct (field_limit <=? N.of_nat (length f))%N. }
    rewrite Hstep.
    destruct (parse_add_char_cases r c) as [[_ ->]|[Hroom ->]]; [done|].
    simpl. apply IH; simpl; [by right|done|..].
    + rewrite length_app. simpl. lia.
    + rewrite length_app. simpl. simpl in Hlt. lia.
Qed.

Lemma split_token tok :
  tok <> [] -> Forall (fun c => isspace c = false) tok -> split tok = [tok].
Proof.
  intros Hne Htok. rewrite split_pieces, pieces_none by done.
  by rewrite filter_cons_True.
Qed.

Lemma parse_line_overflow (s rest : str) :
  Forall (fun c => c <> QUOTE /\ c <> COMMA /\ isspace c = false) s ->
  (field_limit < N.of_nat (length s))%N ->
  parse_line parse_reset (s ++ rest) = Raise CsvError.
Proof.
  intros Hs Hlong. unfold parse_line. rewrite map_app, <- app_assoc.
  destruct s as [|c s]; [simpl in Hlong; lia|].
  assert (Hfirst : parse_process_char parse_reset (Ch c)
            = parse_process_char (mkReader START_FIELD [] []) (Ch c)).
  { apply Forall_cons in Hs as [(_ & _ & Hc) _].
    pose proof (not_space_not_newline c Hc) as Hnl.
    unfold parse_process_char. simpl. simpl in Hnl. by rewrite Hnl. }
  cbn [List.map app for_each]. rewrite Hfirst.
  apply (parse_overflow (c :: s) (List.map Ch rest ++ [EOL])
           (mkReader START_FIELD [] [])); [by left|done|..].
  - simpl. unfold field_limit. lia.
  - exact Hlong.
Qed.

(** A text that is one token beginning with an over-long field: the
    reader raises before it yields a row. *)
Lemma reader_overflow (s rest : str) :
  Forall (fun c => c <> QUOTE /\ c <> COMMA /\ isspace c = false) s ->
  Forall (fun c => isspace c = false) rest ->
  (field_limit < N.of_nat (length s))%N ->
  csv_reader (split (s ++ rest)) = ([], Some CsvError).
Proof.
  intros Hs Hrest Hlong.
  assert (Hne : s ++ rest <> []).
  { destruct s; [simpl in Hlong; lia|done]. }
  rewrite split_token; [|done|].
  2:{ apply Forall_app. split; [|done].
      eapply Forall_impl; [exact Hs|]. by intros c (_ & _ & ?). }
  unfold csv_reader. cbn [read_rows].
  by rewrite parse_line_overflow.
Qed.

(** ** The mapping loop *)

Lemma blag_map_step_short blag_map row :
  (length row < 2)%nat -> blag_map_step blag_map row = Raise IndexError.
Proof.
  destruct row as [|v [|k row]]; simpl; intros; first [done | lia].
Qed.

Lemma blag_map_step_long blag_map row :
  (2 <= length row)%nat ->
  exists v k, row !! 0%nat = Some v /\ row !! 1%nat = Some k
    /\ blag_map_step blag_map row = OK (<[k := v]> blag_map).
Proof.
  destruct row as [|v [|k row]]; simpl; intros; try lia. by exists v, k.
Qed.

Lemma blag_map_loop_short rows blag_map :
  Exists (fun row => (length row < 2)%nat) rows ->
  for_each blag_map_step rows blag_map = Raise IndexError.
Proof.
  revert blag_map; induction rows as [|row rows IH]; intros blag_map Hex.
  - by apply Exists_nil in Hex.
  - simpl. destruct (decide (length row < 2)%nat) as [Hs|Hl].
    + by rewrite blag_map_step_short.
    + destruct (blag_map_step_long blag_map row) as (v & k & _ & _ & ->);
        [lia|]. simpl. apply IH.
      apply Exists_cons in Hex as [?|?]; [lia|done].
Qed.

Lemma blag_map_loop_long rows blag_map :
  Forall (fun row => (2 <= length row)%nat) rows ->
  exists table, for_each blag_map_step rows blag_map = OK table
    /\ forall code, table !! code
         = match last_descriptor rows code with
           | Some d => Some d
           | None => blag_map !! code
           end.
Proof.
  revert blag_map; induction rows as [|row rows IH]; intros blag_map Hall.
  - exists blag_map. by split.
  - apply Forall_cons in Hall as [Hrow Hall]. simpl.
    destruct (blag_map_step_long blag_map row Hrow) as (v & k & Hv & Hk & ->).
    simpl. destruct (IH (<[k := v]> blag_map) Hall) as (table & -> & Htab).
    exists table; split; [done|]. intros code. rewrite Htab.
    destruct (last_descriptor rows code); [done|].
    rewrite Hk, Hv. case_bool_decide as Hc.
    + injection Hc as ->. by rewrite lookup_insert_eq.
    + rewrite lookup_insert_ne; [done|congruence].
Qed.

Lemma Main_read_blag_map_unfold map_list :
  Main.read_blag_map map_list
  = for_each blag_map_step (records map_list) ∅
      ≫= then_raise (reader_error map_list).
Proof. unfold Main.read_blag_map. by rewrite for_rows_split. Qed.

Lemma BlagBL_read_blag_map_unfold map_list :
  BlagBL.read_blag_map map_list
  = for_each blag_map_step (records map_list) ∅
      ≫= then_raise (reader_error map_list).
Proof. unfold BlagBL.read_blag_map. by rewrite for_rows_split. Qed.

Lemma read_blag_map_agree map_list :
  BlagBL.read_blag_map map_list = Main.read_blag_map map_list.
Proof.
  by rewrite BlagBL_read_blag_map_unfold, Main_read_blag_map_unfold.
Qed.

(** ** The entries loop *)

Lemma comprehension_cons {A B} (f : A -> result B) x xs :
  comprehension f (x :: xs)
  = f x ≫= fun y => comprehension f xs ≫= fun ys => OK (y :: ys).
Proof. reflexivity. Qed.

Lemma dict_getitem_Some {V} (d : gmap str V) k v :
  d !! k = Some v -> dict_getitem d k = OK v.
Proof. unfold dict_getitem. by intros ->. Qed.

Lemma dict_getitem_None {V} (d : gmap str V) k :
  d !! k = None -> dict_getitem d k = Raise (KeyError k).
Proof. unfold dict_getitem. by intros ->. Qed.

Lemma comprehension_resolved (table : gmap str str) (codes : list str) :
  Forall (fun c => is_Some (table !! c)) codes ->
  exists ds, comprehension (dict_getitem table) codes = OK ds
    /\ resolve table codes = Some ds.
Proof.
  induction codes as [|c codes IH]; intros Hall.
  - by exists [].
  - apply Forall_cons in Hall as [[d Hd] Hall].
    destruct (IH Hall) as (ds & Hc & Hr).
    rewrite comprehension_cons, Hc, (dict_getitem_Some _ _ _ Hd). simpl.
    rewrite Hd, Hr. by exists (d :: ds).
Qed.

Lemma comprehension_unresolved (table : gmap str str) (codes : list str) :
  Exists (fun c => table !! c = None) codes ->
  exists c, c ∈ codes /\ table !! c = None
    /\ comprehension (dict_getitem table) codes = Raise (KeyError c).
Proof.
  induction codes as [|c codes IH]; intros Hex.
  - by apply Exists_nil in Hex.
  - rewrite comprehension_cons.
    destruct (table !! c) as [d|] eqn:Hd.
    + rewrite (dict_getitem_Some _ _ _ Hd).
      apply Exists_cons in Hex as [?|Hex]; [congruence|].
      destruct (IH Hex) as (c' & Hin & Hc' & Hr).
      exists c'; split; [by right|]. split; [done|]. simpl. by rewrite Hr.
    + rewrite (dict_getitem_None _ _ Hd).
      exists c; split; [by left|done].
Qed.

Lemma not_unresolved (table : gmap str str) (row : list str) :
  ~ unresolved table row ->
  Forall (fun c => is_Some (table !! c)) (tail row).
Proof.
  unfold unresolved; intros H. apply Forall_forall; intros c Hc.
  destruct (table !! c) eqn:Hl; [eauto|].
  exfalso; apply H. apply Exists_exists; eauto.
Qed.

Lemma for_each_cons {A S} (body : S -> A -> result S) x xs s :
  for_each body (x :: xs) s = body s x ≫= for_each body xs.
Proof. reflexivity. Qed.

Lemma Main_ips_step_cons table ips a codes :
  Main_ips_step table ips (a :: codes)
  = comprehension (dict_getitem table) codes
      ≫= fun descs => OK (<[a := descs]> ips).
Proof. reflexivity. Qed.

Lemma BlagBL_ips_step_cons table ips a codes :
  BlagBL_ips_step table ips (a :: codes)
  = comprehension (dict_getitem table) codes
      ≫= fun descs => OK (dd_setitem ips a descs).
Proof. reflexivity. Qed.

Lemma Main_ips_loop_unresolved (table : gmap str str) (rows : list (list str))
  (ips : gmap str (list str)) :
  Forall (fun row => row <> []) rows ->
  Exists (unresolved table) rows ->
  exists c, table !! c = None
    /\ for_each (Main_ips_step table) rows ips = Raise (KeyError c).
Proof.
  revert ips; induction rows as [|row rows IH]; intros ips Hne Hex.
  - by apply Exists_nil in Hex.
  - apply Forall_cons in Hne as [Hrow Hne].
    destruct row as [|a codes]; [done|].
    rewrite for_each_cons, Main_ips_step_cons.
    destruct (decide (unresolved table (a :: codes))) as [Hu|Hu].
    + destruct (comprehension_unresolved table codes Hu) as (c & _ & Hc & ->).
      by exists c.
    + destruct (comprehension_resolved table codes (not_unresolved _ _ Hu))
        as (ds & -> & _). simpl.
      apply IH; [done|]. apply Exists_cons in Hex as [?|?]; done.
Qed.

Lemma Main_ips_loop_resolved (table : gmap str str) (rows : list (list str))
  (ips : gmap str (list str)) :
  Forall (fun row => row <> []) rows ->
  Forall (fun row => ~ unresolved table row) rows ->
  exists ips', for_each (Main_ips_step table) rows ips = OK ips'
    /\ forall addr, ips' !! addr
         = match last_codes rows addr with
           | Some codes => resolve table codes
           | None => ips !! addr
           end.
Proof.
  revert ips; induction rows as [|row rows IH]; intros ips Hne Hall.
  - exists ips. by split.
  - apply Forall_cons in Hne as [Hrow Hne].
    apply Forall_cons in Hall as [Hu Hall].
    destruct row as [|a codes]; [done|].
    rewrite for_each_cons, Main_ips_step_cons.
    destruct (comprehension_resolved table codes (not_unresolved _ _ Hu))
      as (ds & -> & Hds). simpl.
    destruct (IH (<[a := ds]> ips) Hne Hall) as (ips' & -> & Hips').
    exists ips'; split; [done|]. intros addr. rewrite Hips'.
    destruct (last_codes rows addr); [done|].
    case_bool_decide as Ha.
    + subst. by rewrite lookup_insert_eq.
    + by rewrite lookup_insert_ne.
Qed.

(** The two entries loops run in lockstep: same exceptions, and the
    [defaultdict] holds the plain dictionary. *)
Lemma ips_loops_agree table rows ips :
  for_each (BlagBL_ips_step table) rows (mkDefaultdict [] ips)
  = for_each (Main_ips_step table) rows ips
      ≫= fun ips' => OK (mkDefaultdict [] ips').
Proof.
  revert ips; induction rows as [|row rows IH]; intros ips; [done|].
  destruct row as [|a codes]; [done|].
  rewrite !for_each_cons, Main_ips_step_cons, BlagBL_ips_step_cons.
  destruct (comprehension (dict_getitem table) codes); simpl; [|done].
  apply IH.
Qed.

Lemma Main_read_ips_unfold table blag_list :
  Main.read_ips table blag_list
  = for_each (Main_ips_step table) (records blag_list) ∅
      ≫= then_raise (reader_error blag_list).
Proof. unfold Main.read_ips. by rewrite for_rows_split. Qed.

Lemma BlagBL_read_ips_unfold table blag_list :
  BlagBL.read_ips table blag_list
  = for_each (BlagBL_ips_step table) (records blag_list) (mkDefaultdict [] ∅)
      ≫= then_raise (reader_error blag_list).
Proof. unfold BlagBL.read_ips. by rewrite for_rows_split. Qed.

Lemma read_ips_agree table blag_list :
  BlagBL.read_ips table blag_list
  = Main.read_ips table blag_list ≫= fun ips => OK (mkDefaultdict [] ips).
Proof.
  rewrite BlagBL_read_ips_unfold, Main_read_ips_unfold, ips_loops_agree.
  destruct (for_each (Main_ips_step table) (records blag_list) ∅); simpl;
    [|done].
  by destruct (reader_error blag_list).
Qed.

(** ** The parse functions *)

Lemma Main_parse_unfold blag_list map_list :
  Main.parse_blag_contents blag_list map_list
  = Main.read_blag_map map_list ≫= fun table => Main.read_ips table blag_list.
Proof.
  unfold Main.parse_blag_contents.
  destruct (Main.read_blag_map map_list) as [table|]; simpl; [|done].
  by destruct (Main.read_ips table blag_list).
Qed.

Lemma BlagBL_parse_unfold self self' blag_text map_text :
  BlagBL.ensure_extracted self = OK self' ->
  BlagBL.blag_list self' = Some blag_text ->
  BlagBL.map_list self' = Some map_text ->
  BlagBL.parse_blag_contents self
  = BlagBL.read_blag_map map_text ≫= fun table =>
    BlagBL.read_ips table blag_text ≫= fun ips =>
    OK (ips, BlagBL.mkBlagBL (BlagBL.database self') (Some blag_text)
               (Some map_text) (Some ips)).
Proof.
  intros He Hb Hm. unfold BlagBL.parse_blag_contents.
  rewrite He; simpl. rewrite Hm, Hb; simpl. done.
Qed.

Lemma BlagBL_loaded self :
  BlagBL.truthy (BlagBL.blag_list self) = true ->
  BlagBL.truthy (BlagBL.map_list self) = true ->
  BlagBL.ensure_extracted self = OK self.
Proof. unfold BlagBL.ensure_extracted. by intros -> ->. Qed.


(** ** Texts outside the plain format *)

Lemma spec_records_token (tok : str) :
  tok <> [] -> Forall (fun c => ascii_whitespace c = false) tok ->
  spec_records tok = [pieces is_comma tok].
Proof.
  intros Hne Htok. unfold spec_records.
  by rewrite pieces_none, filter_cons_True.
Qed.

Lemma long_field_length : (field_limit < N.of_nat (length long_field))%N.
Proof. unfold long_field. rewrite length_replicate, N2Nat.id. lia. Qed.

Lemma long_field_nonempty : long_field <> [].
Proof.
  intros H. pose proof long_field_length as Hlen. rewrite H in Hlen.
  simpl in Hlen. lia.
Qed.

Lemma long_field_chars (P : N -> Prop) : P 97%N -> Forall P long_field.
Proof. intros H. unfold long_field. by apply Forall_replicate. Qed.

(** The reader gives up on the over-long field before it yields a row. *)
Lemma long_field_reader (rest : str) :
  Forall (fun c => isspace c = false) rest ->
  records (long_field ++ rest) = []
  /\ reader_error (long_field ++ rest) = Some CsvError.
Proof.
  intros Hrest. unfold records, reader_error.
  rewrite reader_overflow; [by split|..].
  - apply long_field_chars. by split_and!.
  - exact Hrest.
  - apply long_field_length.
Qed.

Lemma long_field_records : spec_records long_field = [[long_field]].
Proof.
  rewrite spec_records_token.
  - rewrite pieces_none; [reflexivity|].
    apply long_field_chars. reflexivity.
  - apply long_field_nonempty.
  - apply long_field_chars. reflexivity.
Qed.

Lemma long_mapping_records :
  spec_records long_mapping = [[long_field; lit "m1"]].
Proof.
  unfold long_mapping. rewrite spec_records_token.
  - rewrite pieces_app.
    + reflexivity.
    + apply long_field_chars. reflexivity.
    + reflexivity.
  - intros H. apply app_eq_nil in H as [_ H]. discriminate H.
  - apply Forall_app. split; [apply long_field_chars; reflexivity|].
    repeat constructor.
Qed.

(** ** The mapping parse *)

Lemma read_blag_map_plain (map_list : str) :
  plain map_list ->
  Main.read_blag_map map_list
  = for_each blag_map_step (spec_records map_list) ∅.
Proof.
  intros Hp. rewrite Main_read_blag_map_unfold.
  rewrite (records_plain _ Hp), (reader_error_plain _ Hp).
  by destruct (for_each blag_map_step (spec_records map_list) ∅).
Qed.

(** C6 as stated fails.  A quoted field runs across whitespace: of the
    two records of the first text the first has one field, yet the text
    is read as the single row [ab,c].  A record that is one over-long
    field makes the reader raise its own error, not [IndexError].  A
    no-break space is a record of the spec but whitespace for
    [str.split], which finds no record at all. *)
Lemma C6_counterexample :
  (Exists (fun row => (length row < 2)%nat) (spec_records quoted_space_mapping)
   /\ Main.read_blag_map quoted_space_mapping
      = OK {[ lit "c" := lit "ab" ]})
  /\ (Exists (fun row => (length row < 2)%nat) (spec_records long_field)
      /\ Main.read_blag_map long_field = Raise CsvError)
  /\ (Exists (fun row => (length row < 2)%nat) (spec_records [NBSP])
      /\ Main.read_blag_map [NBSP] = OK ∅).
Proof.
  split_and!.
  - apply (bool_decide_unpack _). vm_compute. reflexivity.
  - vm_compute. reflexivity.
  - rewrite long_field_records. left. simpl. lia.
  - rewrite Main_read_blag_map_unfold.
    rewrite <- (app_nil_r long_field).
    by destruct (long_field_reader [] ltac:(constructor)) as [-> ->].
  - apply (bool_decide_unpack _). vm_compute. reflexivity.
  - vm_compute. reflexivity.
Qed.

(** C6, amended.  In a mapping text in the plain format (no double quote,
    no whitespace but the ASCII one, no field over the reader's limit) a
    record with fewer than two comma-separated fields makes the mapping
    parse fail: [row[1]] (or [row[0]]) raises [IndexError], the exception
    the spec calls MalformedRowError.  The whole [parse_blag_contents]
    fails with it, whatever the entries text, in the module-level
    function and in the method once it has these texts behind its
    guard. *)
Theorem C6_short_mapping_record_rejected (blag_list map_list : str) :
  plain map_list ->
  Exists (fun row => (length row < 2)%nat) (spec_records map_list) ->
  Main.read_blag_map map_list = Raise IndexError
  /\ Main.parse_blag_contents blag_list map_list = Raise IndexError
  /\ BlagBL.read_blag_map map_list = Raise IndexError
  /\ forall self self',
       BlagBL.ensure_extracted self = OK self' ->
       BlagBL.blag_list self' = Some blag_list ->
       BlagBL.map_list self' = Some map_list ->
       BlagBL.parse_blag_contents self = Raise IndexError.
Proof.
  intros Hp Hshort.
  assert (HM : Main.read_blag_map map_list = Raise IndexError)
    by (rewrite (read_blag_map_plain _ Hp); by apply blag_map_loop_short).
  assert (HB : BlagBL.read_blag_map map_list = Raise IndexError)
    by by rewrite read_blag_map_agree.
  repeat split; try done.
  - by rewrite Main_parse_unfold, HM.
  - intros self self' He Hb Hm.
    by rewrite (BlagBL_parse_unfold _ _ _ _ He Hb Hm), HB.
Qed.

Lemma C6_witness :
  plain acme_mapping
  /\ Exists (fun row => (length row < 2)%nat) (spec_records acme_mapping)
  /\ Main.parse_blag_contents (lit "10.0.0.5,m1") acme_mapping
     = Raise IndexError.
Proof.
  assert (Hp : plain acme_mapping)
    by (apply (bool_decide_unpack _); vm_compute; reflexivity).
  assert (H : Exists (fun row => (length row < 2)%nat)
                (spec_records acme_mapping))
    by (apply (bool_decide_unpack _); vm_compute; reflexivity).
  split; [exact Hp|]. split; [exact H|].
  apply (C6_short_mapping_record_rejected (lit "10.0.0.5,m1") acme_mapping
           Hp H).
Defined.

(** C8 as stated fails.  In the first text the quotes hide a comma: the
    one record has the three comma-separated fields of the spec, whose
    table has no code [c], yet the code reads the row [a,b | c] and files
    [a,b] under [c].  The second text is well-formed and raises the
    reader's error.  In the third the no-break space makes two rows of
    the one record of the spec. *)
Lemma C8_counterexample :
  (Forall (fun row => (2 <= length row)%nat) (spec_records quoted_comma_mapping)
   /\ Main.read_blag_map quoted_comma_mapping = OK {[ lit "c" := lit "a,b" ]}
   /\ last_descriptor (spec_records quoted_comma_mapping) (lit "c") = None)
  /\ (Forall (fun row => (2 <= length row)%nat) (spec_records long_mapping)
      /\ Main.read_blag_map long_mapping = Raise CsvError)
  /\ (Forall (fun row => (2 <= length row)%nat)
        (spec_records (lit "a,b" ++ [NBSP] ++ lit "c,d"))
      /\ Main.read_blag_map (lit "a,b" ++ [NBSP] ++ lit "c,d")
         = OK {[ lit "b" := lit "a"; lit "d" := lit "c" ]}
      /\ last_descriptor (spec_records (lit "a,b" ++ [NBSP] ++ lit "c,d"))
           (lit "d") = None).
Proof.
  split_and!.
  - apply (bool_decide_unpack _). vm_compute. reflexivity.
  - vm_compute. reflexivity.
  - vm_compute. reflexivity.
  - rewrite long_mapping_records. repeat constructor.
  - rewrite Main_read_blag_map_unfold. unfold long_mapping.
    by destruct (long_field_reader (COMMA :: lit "m1")
                   ltac:(repeat constructor)) as [-> ->].
  - apply (bool_decide_unpack _). vm_compute. reflexivity.
  - vm_compute. reflexivity.
  - vm_compute. reflexivity.
Qed.

(** C8, amended.  For a mapping text in the plain format all of whose
    records have at least two fields, the mapping parse succeeds and
    builds the table with field 1 of each record as the key and field 0
    as the value; of several records with one code the last one wins, and
    nothing is raised.  Both implementations build the same table. *)
Theorem C8_mapping_table_last_wins (map_list : str) :
  plain map_list ->
  Forall (fun row => (2 <= length row)%nat) (spec_records map_list) ->
  exists table : gmap str str,
    Main.read_blag_map map_list = OK table
    /\ BlagBL.read_blag_map map_list = OK table
    /\ forall code,
         table !! code = last_descriptor (spec_records map_list) code.
Proof.
  intros Hp Hwf.
  destruct (blag_map_loop_long (spec_records map_list) ∅ Hwf)
    as (table & Ht & Hl).
  assert (HM : Main.read_blag_map map_list = OK table)
    by by rewrite (read_blag_map_plain _ Hp).
  exists table. split; [done|]. split; [by rewrite read_blag_map_agree|].
  intros code. rewrite Hl. destruct (last_descriptor _ code); [done|].
  apply lookup_empty.
Qed.

Lemma C8_witness :
  plain twice_mapping
  /\ Forall (fun row => (2 <= length row)%nat) (spec_records twice_mapping)
  /\ exists table : gmap str str,
       Main.read_blag_map twice_mapping = OK table
       /\ BlagBL.read_blag_map twice_mapping = OK table
       /\ table !! lit "m1" = Some (lit "OwnerZ")
       /\ table !! lit "m2" = Some (lit "OwnerY")
       /\ table !! lit "m3" = None.
Proof.
  assert (Hp : plain twice_mapping)
    by (apply (bool_decide_unpack _); vm_compute; reflexivity).
  assert (H : Forall (fun row => (2 <= length row)%nat)
                (spec_records twice_mapping))
    by (apply (bool_decide_unpack _); vm_compute; reflexivity).
  split; [exact Hp|]. split; [exact H|].
  destruct (C8_mapping_table_last_wins twice_mapping Hp H)
    as (table & HM & HB & Htable).
  exists table. split; [exact HM|]. split; [exact HB|].
  rewrite !Htable. repeat split; vm_compute; reflexivity.
Defined.

Example twice_mapping_table :
  Main.read_blag_map twice_mapping
  = OK {[ lit "m1" := lit "OwnerZ"; lit "m2" := lit "OwnerY" ]}.
Proof. vm_compute. reflexivity. Qed.

(** ** The entry parse *)

(** An entries loop ends in one of three ways: with the [KeyError] of an
    absent code, with the error of the reader after rows that all
    resolve, or with the dictionary. *)
Lemma Main_read_ips_cases (table : gmap str str) (blag_list : str) :
  (Exists (unresolved table) (records blag_list)
   /\ exists c, table !! c = None
        /\ Main.read_ips table blag_list = Raise (KeyError c))
  \/ (Forall (fun row => ~ unresolved table row) (records blag_list)
      /\ exists ips : gmap str (list str),
           Main.read_ips table blag_list
           = then_raise (reader_error blag_list) ips
           /\ forall addr, ips !! addr
                = last_codes (records blag_list) addr ≫= resolve table).
Proof.
  rewrite Main_read_ips_unfold.
  destruct (decide (Exists (unresolved table) (records blag_list))) as [Hex|Hno].
  - left; split; [done|].
    destruct (Main_ips_loop_unresolved table (records blag_list) ∅
                (records_nonempty _) Hex) as (c & Hc & ->).
    by exists c.
  - right. apply not_Exists_Forall in Hno; [|intros ?; apply _].
    split; [done|].
    destruct (Main_ips_loop_resolved table (records blag_list) ∅
                (records_nonempty _) Hno) as (ips & -> & Hips).
    exists ips; split; [done|]. intros addr. rewrite Hips.
    destruct (last_codes _ addr); [done|]. apply lookup_empty.
Qed.

Lemma Main_read_ips_OK (table : gmap str str) (blag_list : str)
  (ips : gmap str (list str)) :
  Main.read_ips table blag_list = OK ips ->
  Forall (fun row => ~ unresolved table row) (records blag_list)
  /\ forall addr, ips !! addr
       = last_codes (records blag_list) addr ≫= resolve table.
Proof.
  intros HM.
  destruct (Main_read_ips_cases table blag_list)
    as [(_ & c & _ & HM')|(Hall & ips' & HM' & Hips)]; [congruence|].
  rewrite HM in HM'. destruct (reader_error blag_list); simpl in HM'; [done|].
  injection HM' as ->. by split.
Qed.

Lemma read_ips_plain (table : gmap str str) (blag_list : str) :
  plain blag_list ->
  (Exists (unresolved table) (spec_records blag_list)
   /\ exists c, table !! c = None
        /\ Main.read_ips table blag_list = Raise (KeyError c))
  \/ (Forall (fun row => ~ unresolved table row) (spec_records blag_list)
      /\ exists ips : gmap str (list str),
           Main.read_ips table blag_list = OK ips
           /\ forall addr, ips !! addr
                = last_codes (spec_records blag_list) addr ≫= resolve table).
Proof.
  intros Hp.
  pose proof (Main_read_ips_cases table blag_list) as H.
  by rewrite (records_plain _ Hp), (reader_error_plain _ Hp) in H.
Qed.

(** C5 as stated fails.  The reader strips the quotes of a field: the
    quoted code of the first text is absent from the table as the record
    has it, yet it resolves.  The second text has no code at all, and
    the reader raises on its over-long address.  In the third the
    no-break space is part of the code for the spec and the end of the
    record for [str.split]. *)
Lemma C5_counterexample :
  (Exists (unresolved one_code_table) (spec_records quoted_code_entries)
   /\ Main.read_ips one_code_table quoted_code_entries
      = OK {[ lit "10.0.0.5" := [lit "OwnerX"] ]})
  /\ (Forall (fun row => ~ unresolved one_code_table row)
        (spec_records long_field)
      /\ Main.read_ips one_code_table long_field = Raise CsvError)
  /\ (Exists (unresolved one_code_table)
        (spec_records (lit "10.0.0.5,m1" ++ [NBSP]))
      /\ Main.read_ips one_code_table (lit "10.0.0.5,m1" ++ [NBSP])
         = OK {[ lit "10.0.0.5" := [lit "OwnerX"] ]}).
Proof.
  split_and!.
  - apply (bool_decide_unpack _). vm_compute. reflexivity.
  - vm_compute. reflexivity.
  - rewrite long_field_records. constructor; [|constructor].
    unfold unresolved. simpl. by intros ?%Exists_nil.
  - rewrite Main_read_ips_unfold. rewrite <- (app_nil_r long_field).
    by destruct (long_field_reader [] ltac:(constructor)) as [-> ->].
  - apply (bool_decide_unpack _). vm_compute. reflexivity.
  - vm_compute. reflexivity.
Qed.

(** C5, amended.  For every mapping table and every entries text in the
    plain format: if some record references a code that the table lacks,
    the entry parse produces no result at all but raises [KeyError] for
    an absent code (the spec's UnresolvedCodeError); if every code of
    every record resolves, the parse succeeds.  This holds for both
    implementations. *)
Theorem C5_unresolved_code_fails_whole_parse
  (table : gmap str str) (blag_list : str) :
  plain blag_list ->
  (Exists (unresolved table) (spec_records blag_list) ->
   exists c, table !! c = None
     /\ Main.read_ips table blag_list = Raise (KeyError c)
     /\ BlagBL.read_ips table blag_list = Raise (KeyError c))
  /\ (Forall (fun row => ~ unresolved table row) (spec_records blag_list) ->
      exists ips : gmap str (list str),
        Main.read_ips table blag_list = OK ips
        /\ BlagBL.read_ips table blag_list = OK (mkDefaultdict [] ips)).
Proof.
  intros Hp. split.
  - intros Hex.
    destruct (read_ips_plain table blag_list Hp)
      as [(_ & c & Hc & HM)|(Hall & _)].
    + exists c. rewrite read_ips_agree, HM. by repeat split.
    + exfalso. apply Exists_exists in Hex as (row & Hin & Hu).
      by eapply Forall_forall in Hall.
  - intros Hall.
    destruct (read_ips_plain table blag_list Hp)
      as [(Hex & _)|(_ & ips & HM & _)].
    + exfalso. apply Exists_exists in Hex as (row & Hin & Hu).
      by eapply Forall_forall in Hall.
    + exists ips. rewrite read_ips_agree, HM. by split.
Qed.

Lemma C5_witness :
  (plain (lit "10.0.0.5,m1,m9")
   /\ Exists (unresolved one_code_table) (spec_records (lit "10.0.0.5,m1,m9"))
   /\ Main.read_ips one_code_table (lit "10.0.0.5,m1,m9")
      = Raise (KeyError (lit "m9")))
  /\ (plain (lit "10.0.0.5,m1")
      /\ Forall (fun row => ~ unresolved one_code_table row)
           (spec_records (lit "10.0.0.5,m1"))
      /\ exists ips : gmap str (list str),
           Main.read_ips one_code_table (lit "10.0.0.5,m1") = OK ips
           /\ BlagBL.read_ips one_code_table (lit "10.0.0.5,m1")
              = OK (mkDefaultdict [] ips)).
Proof.
  assert (Hp1 : plain (lit "10.0.0.5,m1,m9"))
    by (apply (bool_decide_unpack _); vm_compute; reflexivity).
  assert (H1 : Exists (unresolved one_code_table)
                 (spec_records (lit "10.0.0.5,m1,m9")))
    by (apply (bool_decide_unpack _); vm_compute; reflexivity).
  assert (Hp2 : plain (lit "10.0.0.5,m1"))
    by (apply (bool_decide_unpack _); vm_compute; reflexivity).
  assert (H2 : Forall (fun row => ~ unresolved one_code_table row)
                 (spec_records (lit "10.0.0.5,m1")))
    by (apply (bool_decide_unpack _); vm_compute; reflexivity).
  split; (split; [assumption|]); (split; [assumption|]).
  - destruct (proj1 (C5_unresolved_code_fails_whole_parse _ _ Hp1) H1)
      as (c & _ & HM & _).
    rewrite HM. vm_compute in HM. symmetry. exact HM.
  - apply (proj2 (C5_unresolved_code_fails_whole_parse _ _ Hp2) H2).
Defined.

Lemma address_only_read_ips :
  Main.read_ips one_code_table (lit "10.0.0.5") = OK {[ lit "10.0.0.5" := [] ]}.
Proof. vm_compute; reflexivity. Qed.

(** C9 as stated fails: a record that is only an address is accepted, and
    the address is listed with no descriptor. *)
Lemma C9_counterexample :
  spec_records (lit "10.0.0.5") = [[lit "10.0.0.5"]]
  /\ Main.read_ips one_code_table (lit "10.0.0.5")
     = OK {[ lit "10.0.0.5" := [] ]}
  /\ BlagBL.read_ips one_code_table (lit "10.0.0.5")
     = OK (mkDefaultdict [] {[ lit "10.0.0.5" := [] ]})
  /\ Main.parse_blag_contents (lit "10.0.0.5") (lit "OwnerX,m1")
     = OK {[ lit "10.0.0.5" := [] ]}.
Proof. repeat split; vm_compute; reflexivity. Qed.

Lemma read_ips_no_IndexError (table : gmap str str) (blag_list : str) e :
  Main.read_ips table blag_list = Raise e -> e <> IndexError.
Proof.
  destruct (Main_read_ips_cases table blag_list)
    as [(_ & c & _ & ->)|(_ & ips & -> & _)].
  - by intros [= <-].
  - destruct (reader_error_cases blag_list) as [-> | ->]; simpl;
      [done|by intros [= <-]].
Qed.

(** C9, amended.  An entry record that is only an address is accepted,
    not rejected.  No record has too few fields for the entry parse:
    neither entries loop ever raises [IndexError], which is what stands
    for MalformedRowError.  In a text in the plain format whose codes all
    resolve the parse succeeds, and an address whose last record is only
    the address is listed with the empty descriptor sequence. *)
Theorem C9_address_only_record_accepted
  (table : gmap str str) (blag_list : str) :
  (forall e, Main.read_ips table blag_list = Raise e -> e <> IndexError)
  /\ (forall e, BlagBL.read_ips table blag_list = Raise e -> e <> IndexError)
  /\ (plain blag_list ->
      Forall (fun row => ~ unresolved table row) (spec_records blag_list) ->
      exists ips : gmap str (list str),
        Main.read_ips table blag_list = OK ips
        /\ BlagBL.read_ips table blag_list = OK (mkDefaultdict [] ips)
        /\ forall addr,
             last_codes (spec_records blag_list) addr = Some [] ->
             ips !! addr = Some []).
Proof.
  split_and!.
  - intros e. apply read_ips_no_IndexError.
  - intros e. rewrite read_ips_agree.
    destruct (Main.read_ips table blag_list) as [ips|e'] eqn:HM; simpl;
      [done|].
    intros [= <-]. by eapply read_ips_no_IndexError.
  - intros Hp Hall.
    destruct (read_ips_plain table blag_list Hp)
      as [(Hex & _)|(_ & ips & HM & Hips)].
    + exfalso. apply Exists_exists in Hex as (row & Hin & Hu).
      by eapply Forall_forall in Hall.
    + exists ips. rewrite read_ips_agree, HM. split_and!; [done|done|].
      intros addr Hl. by rewrite Hips, Hl.
Qed.

Lemma C9_witness :
  plain (lit "10.0.0.5")
  /\ last_codes (spec_records (lit "10.0.0.5")) (lit "10.0.0.5") = Some []
  /\ exists ips : gmap str (list str),
       Main.read_ips one_code_table (lit "10.0.0.5") = OK ips
       /\ ips !! lit "10.0.0.5" = Some [].
Proof.
  assert (Hp : plain (lit "10.0.0.5"))
    by (apply (bool_decide_unpack _); vm_compute; reflexivity).
  assert (Hall : Forall (fun row => ~ unresolved one_code_table row)
                   (spec_records (lit "10.0.0.5")))
    by (apply (bool_decide_unpack _); vm_compute; reflexivity).
  assert (H : last_codes (spec_records (lit "10.0.0.5")) (lit "10.0.0.5")
              = Some []) by (vm_compute; reflexivity).
  split; [exact Hp|]. split; [exact H|].
  destruct (proj2 (proj2 (C9_address_only_record_accepted one_code_table
                            (lit "10.0.0.5"))) Hp Hall)
    as (ips & HM & _ & Hlisted).
  exists ips. split; [exact HM|]. apply Hlisted. exact H.
Defined.

(** C10.  The two entry-parse implementations agree: on every table and
    entries text the method's loop raises exactly when the module-level
    loop does, with the same exception, and otherwise its [defaultdict]
    holds exactly the module-level dictionary.  The same holds for the two
    whole functions once the method has its texts (it loads them from the
    archive unless both are already there and non-empty).  Both are
    last-write-wins: an address maps to the resolved codes of the last
    record that carries it, since both assign a fresh list per record. *)
Theorem C10_parse_implementations_agree :
  (forall (table : gmap str str) (blag_list : str),
     BlagBL.read_ips table blag_list
     = Main.read_ips table blag_list ≫= fun ips => OK (mkDefaultdict [] ips))
  /\ (forall self self' blag_list map_list,
        BlagBL.ensure_extracted self = OK self' ->
        BlagBL.blag_list self' = Some blag_list ->
        BlagBL.map_list self' = Some map_list ->
        fst <$> BlagBL.parse_blag_contents self
        = Main.parse_blag_contents blag_list map_list
            ≫= fun ips => OK (mkDefaultdict [] ips))
  /\ (forall self,
        BlagBL.truthy (BlagBL.blag_list self) = true ->
        BlagBL.truthy (BlagBL.map_list self) = true ->
        BlagBL.ensure_extracted self = OK self)
  /\ (forall (table : gmap str str) (blag_list : str)
             (ips : gmap str (list str)) addr,
        Main.read_ips table blag_list = OK ips ->
        ips !! addr = last_codes (records blag_list) addr ≫= resolve table
        /\ exists ips', BlagBL.read_ips table blag_list = OK ips'
             /\ data ips' !! addr
                = last_codes (records blag_list) addr ≫= resolve table).
Proof.
  split; [exact read_ips_agree|]. split; [|split; [exact BlagBL_loaded|]].
  - intros self self' blag_list map_list He Hb Hm.
    rewrite (BlagBL_parse_unfold _ _ _ _ He Hb Hm), Main_parse_unfold.
    rewrite read_blag_map_agree.
    destruct (Main.read_blag_map map_list) as [table|]; simpl; [|done].
    rewrite read_ips_agree.
    by destruct (Main.read_ips table blag_list).
  - intros table blag_list ips addr HM.
    destruct (Main_read_ips_OK table blag_list ips HM) as [_ Hips].
    split; [apply Hips|].
    exists (mkDefaultdict [] ips). rewrite read_ips_agree, HM.
    split; [done|apply Hips].
Qed.

Lemma repeated_entries_read_ips :
  Main.read_ips two_code_table repeated_entries
  = OK {[ lit "10.0.0.5" := [lit "OwnerY"]; lit "10.0.0.7" := [lit "OwnerX"] ]}.
Proof. vm_compute; reflexivity. Qed.

Lemma C10_witness :
  Main.read_ips two_code_table repeated_entries
  = OK {[ lit "10.0.0.5" := [lit "OwnerY"]; lit "10.0.0.7" := [lit "OwnerX"] ]}
  /\ last_codes (records repeated_entries) (lit "10.0.0.5") = Some [lit "m2"]
  /\ exists ips', BlagBL.read_ips two_code_table repeated_entries = OK ips'
       /\ data ips' !! lit "10.0.0.5"
          = last_codes (records repeated_entries) (lit "10.0.0.5")
              ≫= resolve two_code_table.
Proof.
  split; [exact repeated_entries_read_ips|].
  split; [vm_compute; reflexivity|].
  apply (proj2 (proj2 (proj2 (proj2 C10_parse_implementations_agree))
                  two_code_table repeated_entries _ (lit "10.0.0.5")
                  repeated_entries_read_ips)).
Defined.


(** ** The archive reader *)

Lemma bind_cons_raises (m : result str) (c : N) e :
  (forall e', m = Raise e' -> e' = UnicodeDecodeError) ->
  m ≫= (fun s => OK (c :: s)) = Raise e -> e = UnicodeDecodeError.
Proof. destruct m; simpl; [discriminate|]. intros H [= <-]. by apply H. Qed.

Lemma decode_utf8_raises bs e :
  decode_utf8 bs = Raise e -> e = UnicodeDecodeError.
Proof.
  remember (length bs) as n eqn:Hn.
  revert bs Hn e. induction n as [n IH] using lt_wf_ind. intros bs -> e.
  assert (Hrec : forall r c e', (length r < length bs)%nat ->
             decode_utf8 r ≫= (fun s => OK (c :: s)) = Raise e' ->
             e' = UnicodeDecodeError).
  { intros r c e' Hr. apply bind_cons_raises. intros e''.
    by apply (IH _ Hr r eq_refl). }
  destruct bs as [|b1 r1]; simpl in *; [discriminate|].
  destruct (b1 <? 128)%N; [apply Hrec; lia|].
  destruct r1 as [|b2 r2]; simpl in *; [by intros [= <-]|].
  destruct (in_range 194 223 b1 && cont b2); [apply Hrec; lia|].
  destruct r2 as [|b3 r3]; simpl in *; [by intros [= <-]|].
  destruct (in_range 224 239 b1 && _ && cont b3); [apply Hrec; lia|].
  destruct r3 as [|b4 r4]; simpl in *; [by intros [= <-]|].
  destruct (in_range 240 244 b1 && _ && cont b3 && cont b4);
    [apply Hrec; lia|by intros [= <-]].
Qed.

Lemma NameToInfo_fold (zfile : list ZipInfo) (tbl : gmap str ZipInfo) name :
  fold_left (fun tbl x => <[filename x := x]> tbl) zfile tbl !! name
  = match last (filter (fun x => filename x = name) zfile) with
    | Some x => Some x
    | None => tbl !! name
    end.
Proof.
  revert tbl; induction zfile as [|x zfile IH]; intros tbl; simpl; [done|].
  rewrite IH, filter_cons. case_decide as Hx.
  - rewrite last_cons. destruct (last (filter _ zfile)); [done|].
    subst. by rewrite lookup_insert_eq.
  - destruct (last (filter _ zfile)); [done|]. by rewrite lookup_insert_ne.
Qed.

(** [open(name)] opens the last member filed under [name]. *)
Lemma NameToInfo_lookup (zfile : list ZipInfo) name :
  NameToInfo zfile !! name = last (filter (fun x => filename x = name) zfile).
Proof.
  unfold NameToInfo. rewrite NameToInfo_fold.
  destruct (last _); [done|apply lookup_empty].
Qed.

Lemma NameToInfo_member (zfile : list ZipInfo) x :
  x ∈ zfile -> exists y, NameToInfo zfile !! filename x = Some y
                 /\ y ∈ zfile /\ filename y = filename x.
Proof.
  intros Hx. rewrite NameToInfo_lookup.
  destruct (last (filter (fun y => filename y = filename x) zfile))
    as [y|] eqn:Hl.
  - exists y; split; [done|].
    apply last_Some_elem_of in Hl. apply list_elem_of_filter in Hl.
    destruct Hl as [Hname Hin]. by split.
  - apply last_None in Hl.
    assert (Hin : x ∈ filter (fun y => filename y = filename x) zfile)
      by (by apply list_elem_of_filter).
    rewrite Hl in Hin. by apply not_elem_of_nil in Hin.
Qed.

Lemma NameToInfo_unique (pre post : list ZipInfo) x :
  filename x ∉ List.map filename post ->
  NameToInfo (pre ++ x :: post) !! filename x = Some x.
Proof.
  intros Hpost. rewrite NameToInfo_lookup, filter_app, filter_cons.
  rewrite decide_True by done.
  assert (filter (fun y => filename y = filename x) post = []) as ->.
  { induction post as [|y post IH]; [done|]. rewrite filter_cons.
    simpl in Hpost. apply not_elem_of_cons in Hpost as [Hy Hpost].
    rewrite decide_False by congruence. by apply IH. }
  by rewrite last_app.
Qed.

Lemma extract_agree self :
  BlagBL.extract_blag_files self
  = Main.fetch_blag_files (BlagBL.database self) ≫= fun texts =>
      OK (texts, BlagBL.mkBlagBL (BlagBL.database self) (Some texts.1)
                   (Some texts.2) (BlagBL.ips self)).
Proof.
  unfold BlagBL.extract_blag_files, Main.fetch_blag_files.
  repeat match goal with
         | |- context [mbind _ ?m] =>
             match m with
             | getitem _ _ => destruct m
             | zip_read _ _ => destruct m
             | decode_utf8 _ => destruct m
             end; simpl; try done
         end.
Qed.

Lemma fetch_short (zfile : list ZipInfo) :
  (length zfile < 3)%nat -> Main.fetch_blag_files zfile = Raise IndexError.
Proof.
  destruct zfile as [|x [|e [|m rest]]]; simpl; intros; first [done | lia].
Qed.

Lemma zip_read_opened (zfile : list ZipInfo) name x :
  NameToInfo zfile !! name = Some x -> zip_read zfile name = OK (content x).
Proof. unfold zip_read. by intros ->. Qed.

Lemma fetch_long (x e m : ZipInfo) (rest : list ZipInfo) :
  let zfile := x :: e :: m :: rest in
  exists e' m',
    NameToInfo zfile !! filename e = Some e'
    /\ NameToInfo zfile !! filename m = Some m'
    /\ Main.fetch_blag_files zfile
       = decode_utf8 (content e') ≫= fun blag_text =>
         decode_utf8 (content m') ≫= fun map_text =>
         OK (blag_text, map_text).
Proof.
  intros zfile.
  destruct (NameToInfo_member zfile e) as (e' & He & _);
    [subst zfile; set_solver|].
  destruct (NameToInfo_member zfile m) as (m' & Hm & _);
    [subst zfile; set_solver|].
  exists e', m'. repeat split; try done.
  unfold Main.fetch_blag_files, infolist.
  change (getitem zfile 1) with (OK e). change (getitem zfile 2) with (OK m).
  simpl. rewrite (zip_read_opened _ _ _ He), (zip_read_opened _ _ _ Hm).
  reflexivity.
Qed.

(** C7 as stated fails: the text returned as the blocklist entries is the
    content of the fourth member, not of the second. *)
Lemma C7_counterexample :
  content <$> duplicate_archive !! 1%nat = Some (lit "1.1.1.1,m1")
  /\ Main.fetch_blag_files duplicate_archive
     = OK (lit "2.2.2.2,m1", lit "OwnerX,m1")
  /\ fst <$> BlagBL.extract_blag_files (BlagBL.init duplicate_archive)
     = OK (lit "2.2.2.2,m1", lit "OwnerX,m1").
Proof. repeat split; vm_compute; reflexivity. Qed.

(** C7, amended.  [extract] takes the names of the second and third
    members of the archive's member list and reads the members that the
    archive opens under these names: the second and third members
    themselves when no later member carries the same name, otherwise the
    last member of that name.  It fails (with [IndexError]) for every
    archive with fewer than three members and (with [UnicodeDecodeError])
    whenever a member so read is not UTF-8; the spec calls both
    ArchiveFormatError.  Both implementations behave alike. *)
Theorem C7_extract_by_position_then_name :
  (forall zfile : list ZipInfo,
     (length zfile < 3)%nat ->
     Main.fetch_blag_files zfile = Raise IndexError
     /\ forall self, BlagBL.database self = zfile ->
          BlagBL.extract_blag_files self = Raise IndexError)
  /\ (forall (x e m : ZipInfo) (rest : list ZipInfo),
        let zfile := x :: e :: m :: rest in
        exists e' m',
          NameToInfo zfile !! filename e = Some e'
          /\ NameToInfo zfile !! filename m = Some m'
          /\ (filename e ∉ List.map filename (m :: rest) -> e' = e)
          /\ (filename m ∉ List.map filename rest -> m' = m)
          /\ Main.fetch_blag_files zfile
             = (decode_utf8 (content e') ≫= fun blag_text =>
                decode_utf8 (content m') ≫= fun map_text =>
                OK (blag_text, map_text))
          /\ (is_OK (decode_utf8 (content e')) = false
              \/ is_OK (decode_utf8 (content m')) = false ->
              Main.fetch_blag_files zfile = Raise UnicodeDecodeError)
          /\ forall self, BlagBL.database self = zfile ->
               fst <$> BlagBL.extract_blag_files self
               = Main.fetch_blag_files zfile).
Proof.
  split.
  - intros zfile Hlen. split; [by apply fetch_short|].
    intros self <-. by rewrite extract_agree, fetch_short.
  - intros x e m rest zfile.
    destruct (fetch_long x e m rest) as (e' & m' & He & Hm & Hf).
    fold zfile in He, Hm, Hf.
    exists e', m'. repeat split; try done.
    + intros Hu.
      pose proof (NameToInfo_unique [x] (m :: rest) e Hu) as He'.
      simpl in He'. fold zfile in He'. congruence.
    + intros Hu.
      pose proof (NameToInfo_unique [x; e] rest m Hu) as Hm'.
      simpl in Hm'. fold zfile in Hm'. congruence.
    + rewrite Hf. intros [Hbad|Hbad].
      * destruct (decode_utf8 (content e')) as [|err] eqn:Hd; [done|].
        by rewrite (decode_utf8_raises _ _ Hd).
      * destruct (decode_utf8 (content m')) as [|err] eqn:Hd; [done|].
        rewrite (decode_utf8_raises _ _ Hd).
        destruct (decode_utf8 (content e')) as [|err'] eqn:Hd'; [done|].
        by rewrite (decode_utf8_raises _ _ Hd').
    + intros self <-. rewrite extract_agree.
      by destruct (Main.fetch_blag_files _) as [[]|].
Qed.

Lemma C7_witness :
  (length [mkZipInfo (lit "only") []] < 3)%nat
  /\ Main.fetch_blag_files [mkZipInfo (lit "only") []] = Raise IndexError
  /\ Main.fetch_blag_files dataset_archive
     = OK (lit "10.0.0.5,m1", lit "OwnerX,m1").
Proof.
  assert (H : (length [mkZipInfo (lit "only") []] < 3)%nat) by (simpl; lia).
  split; [exact H|]. split.
  - apply (proj1 (proj1 C7_extract_by_position_then_name _ H)).
  - vm_compute; reflexivity.
Defined.

Example undecodable_member :
  Main.fetch_blag_files
    [ mkZipInfo (lit "README") []; mkZipInfo (lit "list") [128%N];
      mkZipInfo (lit "map") [] ]
  = Raise UnicodeDecodeError.
Proof. vm_compute; reflexivity. Qed.

(** ** Lookups *)

Lemma last_codes_Some (rows : list (list str)) addr codes :
  last_codes rows addr = Some codes -> (addr :: codes) ∈ rows.
Proof.
  induction rows as [|row rows IH]; simpl; [done|].
  destruct (last_codes rows addr) as [codes'|].
  - intros [= <-]. right. by apply IH.
  - destruct row as [|a cs]; [done|]. case_bool_decide; [|done].
    intros [= <-]. subst. by left.
Qed.

Lemma last_codes_listed (rows : list (list str)) addr :
  listed rows addr <-> is_Some (last_codes rows addr).
Proof.
  unfold listed. induction rows as [|row rows IH]; simpl.
  - split; [by intros ?%Exists_nil|by intros [? ?]].
  - rewrite Exists_cons, IH.
    destruct (last_codes rows addr) as [codes'|]; [split; eauto|].
    destruct row as [|a cs]; simpl.
    + split; [by intros [?|[? ?]]|by intros [? ?]].
    + case_bool_decide as Ha.
      * subst. split; eauto.
      * split; [intros [[= ?]|[? ?]]; done|by intros [? ?]].
Qed.

Lemma Main_lookup_unfold (ips : gmap str (list str)) q :
  Main.lookup ips q
  = OK (match ips !! q with
        | Some ds => Main.Found ds
        | None => Main.Absent
        end).
Proof.
  unfold Main.lookup, dict_getitem.
  destruct (ips !! q) eqn:Hq; case_decide as Hs; simpl; try done.
  exfalso; eauto.
Qed.

Lemma Tools_lookup_unfold (ips : gmap str (list str)) q :
  Tools.lookup (mkDefaultdict [] ips) q
  = match ips !! q with
    | Some ds => (Main.Found ds, mkDefaultdict [] ips)
    | None => (Main.Found [], mkDefaultdict [] (<[q := []]> ips))
    end.
Proof.
  unfold Tools.lookup, dd_getitem; simpl. by destruct (ips !! q).
Qed.

Lemma read_ips_listed (table : gmap str str) (blag_list : str)
  (ips : gmap str (list str)) (q : str) :
  Main.read_ips table blag_list = OK ips ->
  listed (records blag_list) q <-> is_Some (ips !! q).
Proof.
  intros HM.
  destruct (Main_read_ips_OK table blag_list ips HM) as [Hall Hips].
  rewrite last_codes_listed, Hips.
  destruct (last_codes (records blag_list) q) as [codes|] eqn:Hl; simpl.
  - apply last_codes_Some in Hl.
    eapply Forall_forall in Hall; [|exact Hl].
    destruct (comprehension_resolved table codes (not_unresolved _ _ Hall))
      as (ds & _ & ->). split; eauto.
  - split; by intros [? ?].
Qed.

Lemma dataset_read_ips :
  Main.read_ips one_code_table (lit "10.0.0.5,m1") = OK dataset_ips.
Proof. vm_compute; reflexivity. Qed.

Lemma other_address_not_listed :
  ~ listed (records (lit "10.0.0.5,m1")) (lit "10.0.0.6").
Proof.
  intros H. apply (read_ips_listed _ _ _ _ dataset_read_ips) in H.
  destruct H as [ds H]. vm_compute in H. discriminate.
Qed.

(** C3 as stated fails on the path of [tools/main.py]: the lookup of an
    address that is not listed is not absent, it is an empty descriptor
    list, and [print] is called for it (the builtin writes the padded
    address as a line); [main.py] prints none. *)
Lemma C3_counterexample :
  ~ listed (records (lit "10.0.0.5,m1")) (lit "10.0.0.6")
  /\ fst (Tools.lookup (mkDefaultdict [] dataset_ips) (lit "10.0.0.6"))
     = Main.Found []
  /\ Tools.main builtin_print dataset_archive [lit "10.0.0.6"]
     = OK [ljust 40 (lit "10.0.0.6") ++ lit " " ++ [LF]]
  /\ Main.main dataset_archive [lit "10.0.0.6"] = OK [].
Proof.
  split; [exact other_address_not_listed|].
  repeat split; vm_compute; reflexivity.
Qed.

(** C3, amended.  The address lookup is an exact match on the string as
    the dataset has it.  In [main.py] it yields the resolved descriptor
    sequence if and only if the query equals a listed address, and nothing
    otherwise.  In [tools/main.py] a listed address yields its descriptor
    sequence too, but a query that is not listed yields the empty
    descriptor sequence (and enters the [defaultdict] with it) instead of
    an absent result.  On neither path is a miss an error, and on neither
    is there any range containment. *)
Theorem C3_lookup_is_exact_match
  (table : gmap str str) (blag_list : str) (ips : gmap str (list str))
  (q : str) :
  Main.read_ips table blag_list = OK ips ->
  (listed (records blag_list) q ->
     exists ds, ips !! q = Some ds
       /\ Main.lookup ips q = OK (Main.Found ds)
       /\ Tools.lookup (mkDefaultdict [] ips) q
          = (Main.Found ds, mkDefaultdict [] ips))
  /\ (~ listed (records blag_list) q ->
        Main.lookup ips q = OK Main.Absent
        /\ Tools.lookup (mkDefaultdict [] ips) q
           = (Main.Found [], mkDefaultdict [] (<[q := []]> ips))).
Proof.
  intros HM. rewrite Main_lookup_unfold, Tools_lookup_unfold.
  rewrite (read_ips_listed _ _ _ q HM). split.
  - intros [ds Hds]. exists ds. by rewrite Hds.
  - intros Hno. destruct (ips !! q) eqn:Hq; [exfalso; eauto|done].
Qed.

Lemma C3_witness :
  Main.read_ips one_code_table (lit "10.0.0.5,m1") = OK dataset_ips
  /\ ~ listed (records (lit "10.0.0.5,m1")) (lit "10.0.0.6")
  /\ Main.lookup dataset_ips (lit "10.0.0.6") = OK Main.Absent
  /\ Tools.lookup (mkDefaultdict [] dataset_ips) (lit "10.0.0.6")
     = (Main.Found [],
        mkDefaultdict [] (<[lit "10.0.0.6" := []]> dataset_ips)).
Proof.
  split; [exact dataset_read_ips|].
  split; [exact other_address_not_listed|].
  apply (proj2 (C3_lookup_is_exact_match one_code_table (lit "10.0.0.5,m1")
                  dataset_ips (lit "10.0.0.6") dataset_read_ips)
           other_address_not_listed).
Defined.

(** ** The ASN lookup *)

Lemma scan_asn_filter index asn :
  Main.scan_asn index asn = filter (fun r => Main.ASN r = asn) index.
Proof.
  induction index as [|r index IH]; simpl; [done|].
  rewrite filter_cons, IH. case_bool_decide; by case_decide.
Qed.

(** C4.  On the spec's [lookup_asn]: with a limit [k > 0] at most [k]
    records come back, and they are a prefix of what the lookup returns
    without a limit; a limit of 0 returns every entry whose ASN is the
    query, in index order.  [process_fsdb], which asks with limit 1, thus
    annotates a row with the first matching entry. *)
Theorem C4_lookup_asn_limit (index : list Main.record) (asn : str) (k : Z) :
  0 < k ->
  (length (Main.lookup_asn index asn k) <= Z.to_nat k)%nat
  /\ Main.lookup_asn index asn k `prefix_of` Main.lookup_asn index asn 0
  /\ Main.lookup_asn index asn 0
     = filter (fun r => Main.ASN r = asn) index
  /\ forall lookup_address row,
       Main.process_row (Main.lookup_asn index) lookup_address true asn row
       = OK (row ++ match filter (fun r => Main.ASN r = asn) index with
                    | [] => replicate 5 (Main.Text (lit "-"))
                    | r :: _ => [Main.Text (Main.owner r);
                                 Main.Text (Main.country r);
                                 Main.Range (Main.ip_range r)]
                    end).
Proof.
  intros Hk. unfold Main.lookup_asn. rewrite scan_asn_filter.
  destruct (Z.gtb_spec k 0) as [_|]; [|lia].
  change (0 >? 0) with false; cbv iota.
  split; [rewrite length_take; lia|]. split; [apply prefix_take|].
  split; [done|]. intros lookup_address row.
  unfold Main.process_row. rewrite scan_asn_filter. simpl.
  by destruct (filter _ index).
Qed.

Lemma C4_witness :
  0 < 1
  /\ Main.lookup_asn asn_index (lit "111") 1
     = [Main.mkRecord None (lit "111") (lit "OwnerX") (lit "US") (1, 2)]
  /\ Main.lookup_asn asn_index (lit "111") 1
       `prefix_of` Main.lookup_asn asn_index (lit "111") 0.
Proof.
  assert (H : 0 < 1) by lia.
  split; [exact H|]. split; [vm_compute; reflexivity|].
  apply (proj1 (proj2 (C4_lookup_asn_limit asn_index (lit "111") 1 H))).
Defined.

(** ** Networks and the range summarizer *)

(** *** Bits *)

Lemma odd_decomposition n :
  0 < n -> exists j m, 0 <= j /\ 0 <= m /\ n = 2 ^ j * (2 * m + 1).
Proof.
  destruct n as [|p|p]; try lia. intros _.
  induction p as [p _|p IH|].
  - exists 0, (Z.pos p). lia.
  - destruct IH as (j & m & Hj & Hm & Hp). exists (j + 1), m.
    rewrite Z.pow_add_r by lia. lia.
  - exists 0, 0. lia.
Qed.

Lemma trailing_ones j m :
  0 <= j -> 0 <= m ->
  Z.land (Z.lnot (2 ^ j * (2 * m + 1))) (2 ^ j * (2 * m + 1) - 1) = Z.ones j.
Proof.
  intros Hj Hm.
  assert (Hn : 2 ^ j * (2 * m + 1) = Z.shiftl (2 * m + 1) j)
    by (rewrite Z.shiftl_mul_pow2; lia).
  assert (Hp : 2 ^ j * (2 * m + 1) - 1
               = Z.lxor (Z.shiftl (2 * m) j) (Z.ones j)).
  { rewrite <- Z.add_nocarry_lxor.
    - rewrite Z.shiftl_mul_pow2, Z.ones_equiv by lia. lia.
    - rewrite Z.land_ones, Z.shiftl_mul_pow2 by lia. apply Z.mod_mul.
      apply Z.pow_nonzero; lia. }
  rewrite Hp, Hn. apply Z.bits_inj'. intros i Hi.
  rewrite Z.land_spec, Z.lnot_spec, Z.lxor_spec, !Z.shiftl_spec by lia.
  rewrite Z.testbit_ones_nonneg by lia.
  destruct (Z.ltb_spec i j) as [Hlt|Hge].
  - rewrite !Z.testbit_neg_r by lia. reflexivity.
  - destruct (Z.eq_dec i j) as [->|Hne].
    + rewrite Z.sub_diag, Z.testbit_odd_0. reflexivity.
    + replace (i - j) with (Z.succ (i - j - 1)) by lia.
      rewrite Z.testbit_odd_succ, Z.testbit_even_succ by lia.
      by destruct (Z.testbit m (i - j - 1)).
Qed.

Lemma bit_length_ones j : 0 <= j -> bit_length (Z.ones j) = j.
Proof.
  intros Hj. unfold bit_length. rewrite Z.ones_equiv.
  destruct (Z.eq_dec j 0) as [->|Hne]; [reflexivity|].
  assert (1 < 2 ^ j) by (apply Z.pow_gt_1; lia).
  destruct (Z.eqb_spec (Z.pred (2 ^ j)) 0); [lia|].
  rewrite Z.abs_eq by lia. rewrite Z.log2_pred_pow2 by lia. lia.
Qed.

Lemma pow2_divide_le a b : 0 <= a <= b -> (2 ^ a | 2 ^ b).
Proof.
  intros H. exists (2 ^ (b - a)). rewrite <- Z.pow_add_r by lia.
  f_equal; lia.
Qed.

Lemma count_righthand_zero_bits_spec number bits :
  0 <= bits -> 0 <= number ->
  let t := count_righthand_zero_bits number bits in
  0 <= t <= bits /\ (2 ^ t | number)
  /\ forall k, 0 <= k <= bits -> (2 ^ k | number) -> k <= t.
Proof.
  intros Hb Hn t. subst t. unfold count_righthand_zero_bits.
  destruct (Z.eqb_spec number 0) as [->|Hne].
  - split; [lia|]. split; [apply Z.divide_0_r|]. lia.
  - destruct (odd_decomposition number) as (j & m & Hj & Hm & ->); [lia|].
    rewrite trailing_ones, bit_length_ones by lia.
    split; [lia|]. split.
    + etransitivity; [apply (pow2_divide_le (Z.min bits j) j); lia|].
      apply Z.divide_factor_l.
    + intros k Hk [q Hq]. destruct (Z_le_gt_dec k j) as [Hle|Hgt]; [lia|].
      exfalso.
      replace k with (j + 1 + (k - j - 1)) in Hq by lia.
      rewrite !Z.pow_add_r in Hq by lia.
      assert (0 < 2 ^ j) by (apply Z.pow_pos_nonneg; lia).
      set (P := 2 ^ (k - j - 1)) in *.
      assert (2 * m + 1 = 2 * (q * P)) by nia. lia.
Qed.

Lemma nbits_of_spec bits first_int last_int :
  0 <= bits -> 0 <= first_int <= last_int ->
  let n := nbits_of bits first_int last_int in
  0 <= n <= bits /\ (2 ^ n | first_int) /\ first_int + 2 ^ n - 1 <= last_int
  /\ forall k, 0 <= k <= bits -> (2 ^ k | first_int) ->
       first_int + 2 ^ k - 1 <= last_int -> k <= n.
Proof.
  intros Hb Hfl n. subst n. unfold nbits_of.
  destruct (count_righthand_zero_bits_spec first_int bits Hb)
    as (Ht & Hdiv & Hmax); [lia|].
  set (t := count_righthand_zero_bits first_int bits) in *.
  set (s := last_int - first_int + 1).
  assert (Hs : 0 < s) by (subst s; lia).
  assert (HL : bit_length s - 1 = Z.log2 s).
  { unfold bit_length. destruct (Z.eqb_spec s 0); [lia|].
    rewrite Z.abs_eq by lia. lia. }
  rewrite HL. pose proof (Z.log2_nonneg s) as HL0.
  destruct (Z.log2_spec s Hs) as [Hlo Hhi].
  split; [lia|]. split.
  - etransitivity; [apply (pow2_divide_le _ t); lia|done].
  - split.
    + assert (2 ^ Z.min t (Z.log2 s) <= 2 ^ Z.log2 s)
        by (apply Z.pow_le_mono_r; lia).
      subst s; lia.
    + intros k Hk Hkd Hfit. specialize (Hmax k Hk Hkd).
      assert (2 ^ k < 2 ^ Z.succ (Z.log2 s)) by (subst s; lia).
      apply Z.pow_lt_mono_r_iff in H; lia.
Qed.

Lemma ALL_ONES_ones v : ALL_ONES v = Z.ones (max_prefixlen v).
Proof. unfold ALL_ONES. rewrite Z.ones_equiv. lia. Qed.

Lemma max_prefixlen_nonneg v : 0 <= max_prefixlen v.
Proof. destruct v; simpl; lia. Qed.

Lemma IPAddress_ok v n :
  0 <= n <= ALL_ONES v -> IPAddress v n = OK (mkAddress v n).
Proof.
  intros H. unfold IPAddress.
  destruct (Z.ltb_spec n 0); [lia|].
  destruct (Z.gtb_spec n (ALL_ONES v)); [lia|done].
Qed.

Lemma IPNetwork_ok v first_int n :
  0 <= first_int <= ALL_ONES v -> 0 <= n <= max_prefixlen v ->
  (2 ^ n | first_int) ->
  IPNetwork v first_int (max_prefixlen v - n)
  = OK (mkNetwork v first_int (max_prefixlen v - n)).
Proof.
  intros Hf Hn [q Hq]. unfold IPNetwork. rewrite IPAddress_ok by done.
  simpl.
  destruct (Z.leb_spec 0 (max_prefixlen v - n)); [|lia].
  destruct (Z.leb_spec (max_prefixlen v - n) (max_prefixlen v)); [|lia].
  simpl.
  assert (Hland : Z.land first_int
            (ip_int_from_prefix v (max_prefixlen v - n)) = first_int).
  { unfold ip_int_from_prefix. rewrite ALL_ONES_ones.
    pose proof (max_prefixlen_nonneg v) as Hb.
    apply Z.bits_inj'. intros i Hi.
    rewrite Z.land_spec, Z.lxor_spec, Z.shiftr_spec by lia.
    rewrite !Z.testbit_ones_nonneg by lia.
    destruct (Z.ltb_spec i n) as [Hlo|Hhi].
    - rewrite Hq, Z.mul_pow2_bits_low by lia. reflexivity.
    - destruct (Z.ltb_spec i (max_prefixlen v)) as [Hin|Hout].
      + destruct (Z.ltb_spec (i + (max_prefixlen v - n)) (max_prefixlen v));
          [lia|]. simpl. by rewrite andb_true_r.
      + rewrite <- (Z.mod_small first_int (2 ^ max_prefixlen v)).
        * rewrite Z.mod_pow2_bits_high by lia. reflexivity.
        * rewrite ALL_ONES_ones, Z.ones_equiv in Hf. lia. }
  rewrite Hland, Z.eqb_refl. reflexivity.
Qed.

(** *** The loop of the summarizer *)

Lemma pow2_pos n : 0 <= n -> 0 < 2 ^ n.
Proof. intros. apply Z.pow_pos_nonneg; lia. Qed.

(** Two multiples of [2 ^ k] less than [2 ^ k] apart are equal. *)
Lemma aligned_close k s f :
  0 <= k -> (2 ^ k | s) -> (2 ^ k | f) -> s <= f < s + 2 ^ k -> s = f.
Proof.
  intros Hk [p ->] [q ->] H. pose proof (pow2_pos k Hk) as Hp. f_equal.
  assert (p <= q) by (apply (Z.mul_le_mono_pos_r _ _ (2 ^ k)); lia).
  assert (q < p + 1) by (apply (Z.mul_lt_mono_pos_r (2 ^ k)); lia).
  lia.
Qed.

(** A multiple of [2 ^ n] below a multiple of [2 ^ k], [n <= k], stays a
    whole block below it. *)
Lemma aligned_fit n k f e :
  0 <= n <= k -> (2 ^ n | f) -> (2 ^ k | e) -> f < e -> f + 2 ^ n <= e.
Proof.
  intros Hnk [q ->] He Hlt.
  destruct (Z.divide_trans _ _ _ (pow2_divide_le n k Hnk) He) as [p ->].
  pose proof (pow2_pos n ltac:(lia)) as Hp.
  assert (q < p) by (apply (Z.mul_lt_mono_pos_r (2 ^ n)); lia).
  assert ((q + 1) * 2 ^ n <= p * 2 ^ n)
    by (apply Z.mul_le_mono_nonneg_r; lia).
  lia.
Qed.

Lemma straddle_free_step bits a b first :
  0 <= bits -> 0 <= a <= first -> first <= b -> b <= 2 ^ bits - 1 ->
  straddle_free a b first ->
  let n := nbits_of bits first b in
  maximal bits a b first n /\ straddle_free a b (first + 2 ^ n).
Proof.
  intros Hb Ha Hfb Hbb Hfree n.
  destruct (nbits_of_spec bits first b Hb ltac:(lia))
    as (Hn & Hdiv & Hfit & Hmax). fold n in Hn, Hdiv, Hfit, Hmax.
  pose proof (pow2_pos n ltac:(lia)) as Hpn.
  split.
  - intros s k Hk Hks Has Hsb Hsf Hincl.
    pose proof (pow2_pos k ltac:(lia)) as Hpk.
    destruct (Z.eq_dec s first) as [->|Hne].
    + split; [done|]. specialize (Hmax k Hk Hks Hsb).
      destruct (Z_lt_le_dec k n) as [Hlt|Hge]; [|lia].
      assert (2 ^ k < 2 ^ n) by (apply Z.pow_lt_mono_r; lia). lia.
    + exfalso. apply (Hfree s k); first [done | lia].
  - intros s k Hk Hks Has Hsb Hlt Hgt.
    pose proof (pow2_pos k Hk) as Hpk.
    destruct (Z_lt_le_dec s first) as [Hsf|Hsf];
      [apply (Hfree s k); first [done | lia]|].
    destruct (Z.eq_dec s first) as [->|Hne].
    + assert (Hkb : k <= bits).
      { destruct (Z_le_gt_dec k bits) as [|Hgtb]; [done|].
        assert (2 ^ bits < 2 ^ k) by (apply Z.pow_lt_mono_r; lia). lia. }
      specialize (Hmax k ltac:(lia) Hks Hsb).
      assert (2 ^ k <= 2 ^ n) by (apply Z.pow_le_mono_r; lia). lia.
    + destruct (Z_le_gt_dec n k) as [Hnk|Hkn].
      * pose proof (aligned_fit n k first s ltac:(lia) Hdiv Hks ltac:(lia)).
        lia.
      * assert (Hkf : (2 ^ k | first + 2 ^ n)).
        { apply Z.divide_add_r.
          - etransitivity; [apply (pow2_divide_le k n); lia|done].
          - apply pow2_divide_le; lia. }
        pose proof (aligned_close k s (first + 2 ^ n) Hk Hks Hkf ltac:(lia)).
        lia.
Qed.

Lemma summarize_loop_tiling v a last_int :
  0 <= a -> last_int <= ALL_ONES v ->
  forall (fuel : nat) first_int,
    (Z.to_nat (last_int + 1 - first_int) <= fuel)%nat ->
    a <= first_int <= last_int + 1 ->
    straddle_free a last_int first_int ->
    exists nets, summarize_loop v first_int last_int = OK nets
      /\ tiling v a last_int first_int nets.
Proof.
  intros Ha Hlast fuel.
  pose proof (max_prefixlen_nonneg v) as Hbits.
  induction fuel as [|fuel IH]; intros first_int Hfuel Hfirst Hfree;
    simp summarize_loop;
    destruct (decide (first_int <= last_int)) as [Hle|Hgt]; simpl;
    try lia.
  - replace first_int with (last_int + 1) by lia.
    eexists; split; [reflexivity|constructor].
  - destruct (nbits_of_spec (max_prefixlen v) first_int last_int Hbits
                ltac:(lia)) as (Hn & Hdiv & Hfit & Hmax).
    destruct (straddle_free_step (max_prefixlen v) a last_int first_int
                Hbits ltac:(lia) Hle ltac:(unfold ALL_ONES in Hlast; lia)
                Hfree) as [Hmaxi Hfree'].
    set (n := nbits_of (max_prefixlen v) first_int last_int) in *.
    pose proof (pow2_pos n ltac:(lia)) as Hpn.
    destruct (decide (0 <= n)) as [H0|]; [|lia]. simpl.
    rewrite IPNetwork_ok by (done || lia). simpl.
    rewrite Z.shiftl_1_l. fold n.
    destruct (Z.eqb_spec (first_int + 2 ^ n - 1) (ALL_ONES v)) as [Hend|Hmore].
    + eexists; split; [reflexivity|].
      apply tiling_block; try done.
      replace (first_int + 2 ^ n) with (last_int + 1) by lia. constructor.
    + destruct (IH (first_int + 2 ^ n)) as (rest & -> & Hrest);
        [lia|lia|done|].
      eexists; split; [reflexivity|]. by apply tiling_block.
  - replace first_int with (last_int + 1) by lia.
    eexists; split; [reflexivity|constructor].
Qed.

(** *** Tilings *)

Lemma num_addresses_block v f n :
  num_addresses (mkNetwork v f (max_prefixlen v - n)) = 2 ^ n.
Proof. unfold num_addresses; simpl. f_equal; lia. Qed.

Lemma tiling_blocks v a b first nets :
  tiling v a b first nets -> Forall (greedy_block v a b first) nets.
Proof.
  induction 1 as [|first n rest Hn Hdiv Hfit Hmax Hrest IH]; [constructor|].
  pose proof (pow2_pos n ltac:(lia)).
  constructor.
  - exists n. simpl. split_and!; first [done | lia].
  - eapply Forall_impl; [exact IH|].
    intros net (k & Hnet & Hk & Hlow & Hd & Hf & Hm). exists k.
    split_and!; first [done | lia].
Qed.

Lemma tiling_bound v a b first nets :
  tiling v a b first nets -> first <= b + 1.
Proof.
  induction 1 as [|first n rest Hn Hdiv Hfit Hmax Hrest IH]; [lia|].
  pose proof (pow2_pos n ltac:(lia)). lia.
Qed.

Lemma tiling_covers v a b first nets :
  tiling v a b first nets ->
  forall x, Exists (fun net => contains net x) nets <-> first <= x <= b.
Proof.
  induction 1 as [|first n rest Hn Hdiv Hfit Hmax Hrest IH]; intros x.
  - rewrite Exists_nil. lia.
  - pose proof (tiling_bound _ _ _ _ _ Hrest).
    pose proof (pow2_pos n ltac:(lia)).
    rewrite Exists_cons, IH. unfold contains at 1.
    rewrite num_addresses_block. simpl. lia.
Qed.

Lemma tiling_NoDup v a b first nets :
  tiling v a b first nets -> NoDup nets.
Proof.
  induction 1 as [|first n rest Hn Hdiv Hfit Hmax Hrest IH]; constructor;
    [|done].
  intros Hin. apply tiling_blocks in Hrest.
  eapply Forall_forall in Hrest as (k & _ & _ & Hlow & _); [|exact Hin].
  pose proof (pow2_pos n ltac:(lia)). simpl in Hlow. lia.
Qed.

Lemma tiling_address_unique v a b first nets g1 g2 :
  tiling v a b first nets -> g1 ∈ nets -> g2 ∈ nets ->
  network_address g1 = network_address g2 -> g1 = g2.
Proof.
  induction 1 as [|first n rest Hn Hdiv Hfit Hmax Hrest IH]; intros H1 H2 Heq.
  - by apply not_elem_of_nil in H1.
  - pose proof (pow2_pos n ltac:(lia)).
    pose proof (tiling_blocks _ _ _ _ _ Hrest) as Hblocks.
    apply elem_of_cons in H1 as [->|H1]; apply elem_of_cons in H2 as [->|H2];
      auto.
    + eapply Forall_forall in Hblocks as (k & _ & _ & Hlow & _); [|exact H2].
      simpl in Heq. lia.
    + eapply Forall_forall in Hblocks as (k & _ & _ & Hlow & _); [|exact H1].
      simpl in Heq. lia.
Qed.

Lemma greedy_block_cidr v a b first net :
  0 <= a <= first -> b <= ALL_ONES v ->
  greedy_block v a b first net -> cidr_prefix v net.
Proof.
  intros Ha Hb (n & Hnet & Hn & Hlow & Hdiv & Hfit & _).
  rewrite Hnet. unfold cidr_prefix. rewrite num_addresses_block. simpl.
  unfold ALL_ONES in Hb. split_and!; first [done | lia].
Qed.

(** An aligned block that holds the first address of a maximal block of
    the interval, and lies inside the interval, starts there too. *)
Lemma block_at_greedy_start bits a b f n s k :
  0 <= n -> 0 <= k <= bits -> (2 ^ n | f) -> (2 ^ k | s) ->
  maximal bits a b f n ->
  a <= s -> s + 2 ^ k - 1 <= b -> s <= f < s + 2 ^ k -> s = f.
Proof.
  intros Hn Hk Hnf Hks Hmax Has Hsb Hin.
  destruct (Z_le_gt_dec n k) as [Hnk|Hkn].
  - assert (Hend : (2 ^ k | s + 2 ^ k))
      by (apply Z.divide_add_r; [done|apply Z.divide_refl]).
    pose proof (aligned_fit n k f (s + 2 ^ k) ltac:(lia) Hnf Hend ltac:(lia)).
    by destruct (Hmax s k Hk Hks Has Hsb ltac:(lia) ltac:(lia)).
  - apply (aligned_close k); try done; [lia|].
    etransitivity; [apply (pow2_divide_le k n); lia|done].
Qed.

(** Counting: if every element of [G] has a partner in [M] and no element
    of [M] is the partner of two, [M] is at least as long as [G]. *)
Lemma length_le_by_partners {A B} (R : A -> B -> Prop) (G : list A) :
  forall M : list B,
    NoDup G ->
    (forall g, g ∈ G -> exists m, m ∈ M /\ R g m) ->
    (forall g1 g2 m, g1 ∈ G -> g2 ∈ G -> m ∈ M -> R g1 m -> R g2 m ->
       g1 = g2) ->
    (length G <= length M)%nat.
Proof.
  induction G as [|g G IH]; intros M Hnd Htot Hinj; simpl; [lia|].
  apply NoDup_cons in Hnd as [Hg Hnd].
  destruct (Htot g) as (m & Hm & Hgm); [by left|].
  apply list_elem_of_split in Hm as (M1 & M2 & ->).
  rewrite length_app; simpl.
  assert (length G <= length (M1 ++ M2))%nat as Hlen.
  { apply IH; [done| |].
    - intros g' Hg'. destruct (Htot g') as (m' & Hm' & Hgm'); [by right|].
      exists m'. split; [|done].
      apply elem_of_app in Hm' as [?|Hm']; [set_solver|].
      apply elem_of_cons in Hm' as [->|?]; [|set_solver].
      exfalso. apply Hg.
      rewrite (Hinj g g' m); [done|by left|by right|set_solver|done|done].
    - intros g1 g2 m' H1 H2 Hm'. apply Hinj; [by right|by right|].
      apply elem_of_app. apply elem_of_app in Hm' as [?|?]; [by left|].
      right; by right. }
  rewrite length_app in Hlen. lia.
Qed.

Lemma covers_inside M lo hi m x :
  covers M lo hi -> m ∈ M -> contains m x -> lo <= x <= hi.
Proof.
  intros Hc Hm Hx. apply Hc. apply Exists_exists. eauto.
Qed.

Lemma tiling_minimal v a b nets :
  0 <= a -> b <= ALL_ONES v ->
  tiling v a b a nets ->
  forall M, Forall (cidr_prefix v) M -> covers M a b ->
    (length nets <= length M)%nat.
Proof.
  intros Ha Hb Ht M HM Hc.
  pose proof (tiling_blocks _ _ _ _ _ Ht) as Hblocks.
  assert (Hstart : forall g m, g ∈ nets -> m ∈ M ->
            contains m (network_address g) ->
            network_address m = network_address g).
  { intros g m Hg Hm Hin.
    eapply Forall_forall in Hblocks as (n & _ & Hn & Hlow & Hdiv & Hfit & Hmax);
      [|exact Hg].
    eapply Forall_forall in HM as (Hv & Hk & Hs0 & Htop & Hks); [|exact Hm].
    unfold contains, num_addresses in *. rewrite Hv in *.
    set (k := max_prefixlen v - prefixlen m) in *.
    pose proof (pow2_pos k ltac:(lia)) as Hpk.
    assert (a <= network_address m <= b)
      by (apply (covers_inside M a b m); [done|done|];
          unfold contains, num_addresses; rewrite Hv; fold k; lia).
    assert (a <= network_address m + 2 ^ k - 1 <= b)
      by (apply (covers_inside M a b m); [done|done|];
          unfold contains, num_addresses; rewrite Hv; fold k; lia).
    apply (block_at_greedy_start (max_prefixlen v) a b _ n _ k);
      first [done | lia]. }
  apply (length_le_by_partners
           (fun g m => contains m (network_address g))).
  - by eapply tiling_NoDup.
  - intros g Hg.
    eapply Forall_forall in Hblocks as (n & _ & Hn & Hlow & _ & Hfit & _);
      [|exact Hg].
    pose proof (pow2_pos n ltac:(lia)).
    assert (Hex : Exists (fun m => contains m (network_address g)) M)
      by (apply Hc; lia).
    apply Exists_exists in Hex. exact Hex.
  - intros g1 g2 m H1 H2 Hm Hc1 Hc2.
    apply (tiling_address_unique v a b a nets); try done.
    rewrite <- (Hstart g1 m), <- (Hstart g2 m); done.
Qed.

(** *** The summarizer *)

Lemma straddle_free_start a b : straddle_free a b a.
Proof. intros s k _ _ ? _ ? _. lia. Qed.

Lemma summarize_address_range_tiling v low high :
  0 <= low <= high -> high <= ALL_ONES v ->
  exists nets,
    summarize_address_range (mkAddress v low) (mkAddress v high) = OK nets
    /\ tiling v low high low nets.
Proof.
  intros Hlh Hhigh. unfold summarize_address_range; simpl.
  rewrite bool_decide_eq_true_2 by done. simpl.
  destruct (Z.gtb_spec low high); [lia|].
  apply (summarize_loop_tiling v low high ltac:(lia) Hhigh
           (Z.to_nat (high + 1 - low))); [lia|lia|].
  apply straddle_free_start.
Qed.

(** The branch that [output_pcap_filter] takes for a range. *)
Lemma range_networks_family low high :
  Main.range_networks (low, high)
  = if low <=? 2 ^ 33
    then l ← IPv4Address low; r ← IPv4Address high;
         summarize_address_range l r
    else l ← IPv6Address low; r ← IPv6Address high;
         summarize_address_range l r.
Proof. reflexivity. Qed.

Lemma range_networks_tiling v low high :
  0 <= low <= high ->
  (v = V4 /\ high < 2 ^ 32) \/ (v = V6 /\ 2 ^ 33 < low /\ high < 2 ^ 128) ->
  exists nets, Main.range_networks (low, high) = OK nets
    /\ tiling v low high low nets.
Proof.
  intros Hlh Hfam. rewrite range_networks_family.
  assert (Hhigh : high <= ALL_ONES v)
    by (destruct Hfam as [[-> ?]|(-> & ? & ?)]; unfold ALL_ONES; simpl; lia).
  destruct (summarize_address_range_tiling v low high Hlh Hhigh)
    as (nets & Hs & Ht).
  exists nets; split; [|done].
  destruct Hfam as [[-> ?]|(-> & ? & ?)].
  - destruct (Z.leb_spec low (2 ^ 33)); [|lia].
    unfold IPv4Address. rewrite !IPAddress_ok by lia. exact Hs.
  - destruct (Z.leb_spec low (2 ^ 33)); [lia|].
    unfold IPv6Address. rewrite !IPAddress_ok by lia. exact Hs.
Qed.

(** C2, amended.  For every range with [0 <= low <= high] that lies in
    one address family as the code tells them apart -- [high < 2^32]
    (IPv4), or [2^33 < low] and [high < 2^128] (IPv6) -- the summarizer
    returns CIDR prefixes of that family whose union is exactly the
    interval from [low] to [high], without repetition, and no list of CIDR
    prefixes with that union is shorter.  (Ranges with
    [2^32 <= low <= 2^33] are left out of this statement.) *)
Theorem C2_summarize_minimal_cover (v : version) (low high : Z) :
  0 <= low <= high ->
  (v = V4 /\ high < 2 ^ 32) \/ (v = V6 /\ 2 ^ 33 < low /\ high < 2 ^ 128) ->
  exists nets,
    Main.range_networks (low, high) = OK nets
    /\ Forall (cidr_prefix v) nets
    /\ covers nets low high
    /\ NoDup nets
    /\ forall M, Forall (cidr_prefix v) M -> covers M low high ->
         (length nets <= length M)%nat.
Proof.
  intros Hlh Hfam.
  destruct (range_networks_tiling v low high Hlh Hfam) as (nets & Hr & Ht).
  assert (Hhigh : high <= ALL_ONES v)
    by (destruct Hfam as [[-> ?]|(-> & ? & ?)]; unfold ALL_ONES; simpl; lia).
  exists nets. split_and!; [done| | | |].
  - eapply Forall_impl; [by apply tiling_blocks in Ht|].
    intros net. apply greedy_block_cidr; [lia|done].
  - exact (tiling_covers _ _ _ _ _ Ht).
  - by eapply tiling_NoDup.
  - apply (tiling_minimal v low high nets); [lia|done|done].
Qed.

Lemma C2_witness :
  0 <= 167772160 <= 167772161
  /\ ((V4 = V4 /\ 167772161 < 2 ^ 32)
      \/ (V4 = V6 /\ 2 ^ 33 < 167772160 /\ 167772161 < 2 ^ 128))
  /\ Main.range_networks (167772160, 167772161)
     = OK [mkNetwork V4 167772160 31]
  /\ List.map str_network [mkNetwork V4 167772160 31] = [lit "10.0.0.0/31"]
  /\ Main.expressions [Main.mkRecord None [] [] [] (167772160, 167772161)]
     = OK [lit "net 10.0.0.0/31"]
  /\ exists nets,
       Main.range_networks (167772160, 167772161) = OK nets
       /\ Forall (cidr_prefix V4) nets
       /\ covers nets 167772160 167772161
       /\ NoDup nets
       /\ forall M, Forall (cidr_prefix V4) M ->
            covers M 167772160 167772161 -> (length nets <= length M)%nat.
Proof.
  assert (H1 : 0 <= 167772160 <= 167772161) by lia.
  assert (H2 : (V4 = V4 /\ 167772161 < 2 ^ 32)
      \/ (V4 = V6 /\ 2 ^ 33 < 167772160 /\ 167772161 < 2 ^ 128))
    by (left; split; [reflexivity|lia]).
  split; [exact H1|]. split; [exact H2|].
  split; [vm_compute; reflexivity|]. split; [vm_compute; reflexivity|].
  split; [vm_compute; reflexivity|].
  apply (C2_summarize_minimal_cover V4 167772160 167772161 H1 H2).
Defined.

(** C2 as stated fails: the family is chosen from [low] alone, so a range
    that starts below [2^32] and ends at or above it is not decomposed;
    [IPv4Address(high)] raises instead. *)
Lemma C2_counterexample :
  4294967295 <= 4294967296
  /\ Main.range_networks (4294967295, 4294967296) = Raise AddressValueError
  /\ Main.expressions
       [Main.mkRecord None [] [] [] (4294967295, 4294967296)]
     = Raise AddressValueError.
Proof. split; [lia|]. split; vm_compute; reflexivity. Qed.

(** C1.  The code compares [left <= 2**33], not [low < 2**32]: a range
    whose [low] is [2^32] (or anything up to [2^33]) is sent down the IPv4
    branch, where [IPv4Address(low)] raises, although it is an IPv6 range
    that the IPv6 branch decomposes; from [2^33 + 1] on the IPv6 branch is
    taken. *)
Theorem C1_boundary_low_taken_as_IPv4 :
  Main.range_networks (2 ^ 32, 2 ^ 32) = Raise AddressValueError
  /\ Main.range_networks (2 ^ 33, 2 ^ 33) = Raise AddressValueError
  /\ summarize_address_range (mkAddress V6 (2 ^ 32)) (mkAddress V6 (2 ^ 32))
     = OK [mkNetwork V6 (2 ^ 32) 128]
  /\ Main.range_networks (2 ^ 33 + 1, 2 ^ 33 + 1)
     = OK [mkNetwork V6 (2 ^ 33 + 1) 128].
Proof. repeat split; vm_compute; reflexivity. Qed.

(** Every range that starts between [2^32] and [2^33] is rejected. *)
Lemma range_networks_boundary low high :
  2 ^ 32 <= low <= 2 ^ 33 ->
  Main.range_networks (low, high) = Raise AddressValueError.
Proof.
  intros H. rewrite range_networks_family.
  destruct (Z.leb_spec low (2 ^ 33)); [|lia].
  unfold IPv4Address, IPAddress.
  destruct (Z.ltb_spec low 0); [done|].
  destruct (Z.gtb_spec low (ALL_ONES V4)) as [|Hle]; [done|].
  unfold ALL_ONES in Hle; simpl in Hle. lia.
Qed.


(** ** More on the parse functions *)

Lemma comprehension_unresolved_tail (table : gmap str str)
  (rows : list (list str)) (ips : gmap str (list str)) :
  Forall (fun row => row <> []) rows ->
  Exists (unresolved table) rows ->
  exists c row, row ∈ rows /\ c ∈ tail row /\ table !! c = None
    /\ for_each (Main_ips_step table) rows ips = Raise (KeyError c).
Proof.
  revert ips; induction rows as [|row rows IH]; intros ips Hne Hex.
  - by apply Exists_nil in Hex.
  - apply Forall_cons in Hne as [Hrow Hne].
    destruct row as [|a codes]; [done|].
    rewrite for_each_cons, Main_ips_step_cons.
    destruct (decide (unresolved table (a :: codes))) as [Hu|Hu].
    + destruct (comprehension_unresolved table codes Hu) as (c & Hin & Hc & ->).
      exists c, (a :: codes). split_and!; [by left|done|done|done].
    + destruct (comprehension_resolved table codes (not_unresolved _ _ Hu))
        as (ds & -> & _). simpl.
      destruct (IH (<[a := ds]> ips) Hne) as (c & row & Hin & Hc & Ht & Hr).
      { apply Exists_cons in Hex as [?|?]; done. }
      exists c, row. split_and!; [by right|done|done|done].
Qed.

(** A mapping loop ends in one of three ways: with the [IndexError] of a
    short row, with the error of the reader after rows that all have two
    fields, or with the table. *)
Lemma read_blag_map_cases (map_list : str) :
  (Exists (fun row => (length row < 2)%nat) (records map_list)
   /\ Main.read_blag_map map_list = Raise IndexError)
  \/ (Forall (fun row => (2 <= length row)%nat) (records map_list)
      /\ exists table : gmap str str,
           Main.read_blag_map map_list
           = then_raise (reader_error map_list) table
           /\ forall code,
                table !! code = last_descriptor (records map_list) code).
Proof.
  rewrite Main_read_blag_map_unfold.
  destruct (decide (Exists (fun row => (length row < 2)%nat)
                      (records map_list))) as [Hex|Hno].
  - left. split; [done|]. by rewrite blag_map_loop_short.
  - right. apply not_Exists_Forall in Hno; [|intros ?; apply _].
    assert (Hall : Forall (fun row => (2 <= length row)%nat)
                     (records map_list))
      by (eapply Forall_impl; [exact Hno|]; simpl; intros; lia).
    split; [done|].
    destruct (blag_map_loop_long (records map_list) ∅ Hall)
      as (table & -> & Hl).
    exists table; split; [done|]. intros code. rewrite Hl.
    destruct (last_descriptor _ code); [done|apply lookup_empty].
Qed.

Lemma then_raise_cases {A} (text : str) (a : A) :
  (reader_error text = None /\ then_raise (reader_error text) a = OK a)
  \/ (reader_error text = Some CsvError
      /\ then_raise (reader_error text) a = Raise CsvError).
Proof.
  destruct (reader_error_cases text) as [H|H]; rewrite H; simpl;
    [by left | by right].
Qed.

Lemma Main_parse_raises (blag_list map_list : str) (e : exn) :
  Main.parse_blag_contents blag_list map_list = Raise e ->
  (e = IndexError
   /\ Exists (fun row => (length row < 2)%nat) (records map_list))
  \/ (e = CsvError
      /\ (reader_error map_list = Some CsvError
          \/ reader_error blag_list = Some CsvError))
  \/ (exists c row, e = KeyError c /\ row ∈ records blag_list
        /\ c ∈ tail row
        /\ last_descriptor (records map_list) c = None).
Proof.
  intros Hp. rewrite Main_parse_unfold in Hp.
  destruct (read_blag_map_cases map_list)
    as [(Hshort & Hm)|(_ & table & Hm & Htab)]; rewrite Hm in Hp.
  { left. split; [simpl in Hp; congruence|done]. }
  destruct (then_raise_cases map_list table) as [[_ Hr]|[Herr Hr]];
    rewrite Hr in Hp; simpl in Hp.
  2:{ right; left. split; [congruence|by left]. }
  right. rewrite Main_read_ips_unfold in Hp.
  destruct (decide (Exists (unresolved table) (records blag_list)))
    as [Hex|Hno].
  - right.
    destruct (comprehension_unresolved_tail table (records blag_list) ∅
                (records_nonempty _) Hex) as (c & row & Hin & Hc & Ht & Hr').
    rewrite Hr' in Hp. simpl in Hp.
    exists c, row. rewrite <- Htab. split_and!; try done. congruence.
  - left. apply not_Exists_Forall in Hno; [|intros ?; apply _].
    destruct (Main_ips_loop_resolved table (records blag_list) ∅
                (records_nonempty _) Hno) as (ips & Hr' & _).
    rewrite Hr' in Hp. simpl in Hp.
    destruct (then_raise_cases blag_list ips) as [[_ Hr'']|[Herr Hr'']];
      rewrite Hr'' in Hp; [done|].
    split; [congruence|by right].
Qed.

(** Whatever the two texts, [parse_blag_contents] raises nothing but the
    [IndexError] of a mapping row with fewer than two fields, the error
    of the reader for a field over its limit, and the [KeyError] of a
    code that an entries row uses and no mapping row defines.  The rows
    are those the reader yields.  The method raises the same on an
    instance that holds the two texts, both non-empty: its guard then
    keeps them. *)
Theorem parse_blag_contents_exceptions (blag_list map_list : str) (e : exn) :
  Main.parse_blag_contents blag_list map_list = Raise e ->
  ((e = IndexError
    /\ Exists (fun row => (length row < 2)%nat) (records map_list))
   \/ (e = CsvError
       /\ (reader_error map_list = Some CsvError
           \/ reader_error blag_list = Some CsvError))
   \/ (exists c row, e = KeyError c /\ row ∈ records blag_list
         /\ c ∈ tail row
         /\ last_descriptor (records map_list) c = None))
  /\ forall self,
       BlagBL.blag_list self = Some blag_list ->
       BlagBL.map_list self = Some map_list ->
       blag_list <> [] -> map_list <> [] ->
       BlagBL.parse_blag_contents self = Raise e.
Proof.
  intros Hp. split; [by apply Main_parse_raises|].
  intros self Hb Hm Hbne Hmne.
  assert (He : BlagBL.ensure_extracted self = OK self).
  { apply BlagBL_loaded; [rewrite Hb; by destruct blag_list
                         |rewrite Hm; by destruct map_list]. }
  rewrite (BlagBL_parse_unfold _ _ _ _ He Hb Hm).
  rewrite Main_parse_unfold in Hp. rewrite read_blag_map_agree.
  destruct (Main.read_blag_map map_list) as [table|]; simpl in *;
    [|congruence].
  rewrite read_ips_agree, Hp. done.
Qed.

Lemma parse_blag_contents_exceptions_witness :
  Main.parse_blag_contents (lit "10.0.0.5,m1,m9") (lit "OwnerX,m1")
  = Raise (KeyError (lit "m9"))
  /\ BlagBL.parse_blag_contents
       (BlagBL.mkBlagBL [] (Some (lit "10.0.0.5,m1,m9"))
          (Some (lit "OwnerX,m1")) None)
     = Raise (KeyError (lit "m9")).
Proof.
  assert (H : Main.parse_blag_contents (lit "10.0.0.5,m1,m9")
                (lit "OwnerX,m1") = Raise (KeyError (lit "m9")))
    by (vm_compute; reflexivity).
  split; [exact H|].
  apply (proj2 (parse_blag_contents_exceptions _ _ _ H)); simpl;
    first [reflexivity | discriminate].
Defined.

(** ** Texts without records *)

Lemma split_from_whitespace (text : str) :
  Forall (fun c => isspace c = true) text -> split_from [] text = [].
Proof.
  induction 1 as [|c text Hc _ IH]; simpl; [done|]. by rewrite Hc.
Qed.

Lemma records_whitespace (text : str) :
  Forall (fun c => isspace c = true) text ->
  records text = [] /\ reader_error text = None.
Proof.
  intros H. unfold records, reader_error, split.
  by rewrite split_from_whitespace.
Qed.

(** An entries text that is empty or all whitespace adds nothing: the
    parse returns the empty dictionary if the mapping parse succeeds, and
    raises what the mapping parse raises otherwise.  With a mapping text
    that is empty or all whitespace no code is defined, and the parse
    succeeds exactly when the reader accepts the entries text and none of
    its rows carries a code. *)
Theorem parse_blag_contents_blank (blag_list map_list : str) :
  (Forall (fun c => isspace c = true) blag_list ->
   Main.parse_blag_contents blag_list map_list
   = Main.read_blag_map map_list ≫= fun _ => OK ∅)
  /\ (Forall (fun c => isspace c = true) map_list ->
      (Forall (fun row => tail row = []) (records blag_list)
       /\ reader_error blag_list = None
       <-> exists ips, Main.parse_blag_contents blag_list map_list = OK ips)).
Proof.
  split.
  - intros Hb. rewrite Main_parse_unfold.
    destruct (Main.read_blag_map map_list) as [table|]; simpl; [|done].
    rewrite Main_read_ips_unfold.
    by destruct (records_whitespace _ Hb) as [-> ->].
  - intros Hm. rewrite Main_parse_unfold, Main_read_blag_map_unfold.
    destruct (records_whitespace _ Hm) as [-> ->]. simpl.
    destruct (Main_read_ips_cases ∅ blag_list)
      as [(Hex & c & _ & ->)|(Hall & ips & -> & _)].
    + split; [|by intros [? ?]]. intros [Hnone _]. exfalso.
      apply Exists_exists in Hex as (row & Hin & Hu).
      eapply Forall_forall in Hnone; [|exact Hin]. simpl in Hnone.
      unfold unresolved in Hu. rewrite Hnone in Hu.
      by apply Exists_nil in Hu.
    + assert (Hcodes : Forall (fun row => tail row = []) (records blag_list)).
      { eapply Forall_impl; [exact Hall|]. intros row Hu.
        destruct (tail row) as [|c cs] eqn:Ht; [done|]. exfalso. apply Hu.
        unfold unresolved. rewrite Ht. left. apply lookup_empty. }
      destruct (then_raise_cases blag_list ips) as [[He ->]|[He ->]].
      * split; [by eauto|]. by intros _.
      * split; [|by intros [? ?]]. intros [_ He']. congruence.
Qed.

Lemma parse_blag_contents_blank_witness :
  Forall (fun c => isspace c = true) ([LF; 32%N; 9%N] : str)
  /\ Main.parse_blag_contents [LF; 32%N; 9%N] (lit "OwnerX,m1") = OK ∅.
Proof.
  assert (H1 : Forall (fun c => isspace c = true) ([LF; 32%N; 9%N] : str))
    by (repeat constructor).
  split; [exact H1|].
  rewrite (proj1 (parse_blag_contents_blank _ (lit "OwnerX,m1")) H1).
  vm_compute. reflexivity.
Defined.


(** ** The instance, call after call *)

Lemma extract_database self texts self' :
  BlagBL.extract_blag_files self = OK (texts, self') ->
  BlagBL.database self' = BlagBL.database self
  /\ BlagBL.blag_list self' = Some texts.1
  /\ BlagBL.map_list self' = Some texts.2
  /\ BlagBL.ips self' = BlagBL.ips self
  /\ Main.fetch_blag_files (BlagBL.database self) = OK texts.
Proof.
  rewrite extract_agree.
  destruct (Main.fetch_blag_files (BlagBL.database self)) as [t|]; simpl;
    [|done].
  intros [= <- <-]. done.
Qed.

Lemma ensure_extracted_texts self self' :
  BlagBL.ensure_extracted self = OK self' ->
  BlagBL.database self' = BlagBL.database self
  /\ exists blag_text map_text,
       BlagBL.blag_list self' = Some blag_text
       /\ BlagBL.map_list self' = Some map_text
       /\ ((self' = self
            /\ BlagBL.truthy (BlagBL.blag_list self) = true
            /\ BlagBL.truthy (BlagBL.map_list self) = true)
           \/ Main.fetch_blag_files (BlagBL.database self)
              = OK (blag_text, map_text)).
Proof.
  unfold BlagBL.ensure_extracted.
  destruct (BlagBL.truthy (BlagBL.blag_list self)) eqn:Hb;
    destruct (BlagBL.truthy (BlagBL.map_list self)) eqn:Hm; simpl;
    try (destruct (BlagBL.extract_blag_files self) as [[[b m] s]|] eqn:He;
         simpl; [|done]; intros [= <-];
         destruct (extract_database _ _ _ He) as (Hd & Hbl & Hml & _ & Hf);
         split; [done|]; exists b, m; split_and!; try done; by right).
  intros [= <-]. split; [done|].
  destruct (BlagBL.blag_list self) as [[|c b]|] eqn:Hbl; try done.
  destruct (BlagBL.map_list self) as [[|c' m]|] eqn:Hml; try done.
  exists (c :: b), (c' :: m). split_and!; try done. by left.
Qed.

(** [parse_blag_contents] is repeatable: a second call on the instance
    that the first call leaves behind returns the same dictionary and the
    same instance. *)
Theorem parse_blag_contents_repeatable self ips self' :
  BlagBL.parse_blag_contents self = OK (ips, self') ->
  BlagBL.database self' = BlagBL.database self
  /\ BlagBL.ips self' = Some ips
  /\ BlagBL.parse_blag_contents self' = OK (ips, self').
Proof.
  intros Hp.
  destruct (BlagBL.ensure_extracted self) as [s1|] eqn:He;
    [|by unfold BlagBL.parse_blag_contents in Hp; rewrite He in Hp].
  destruct (ensure_extracted_texts _ _ He) as (Hd & b & m & Hb & Hm & Hsrc).
  rewrite (BlagBL_parse_unfold _ _ _ _ He Hb Hm) in Hp.
  destruct (BlagBL.read_blag_map m) as [table|] eqn:Ht; simpl in Hp; [|done].
  destruct (BlagBL.read_ips table b) as [ips0|] eqn:Hi; simpl in Hp; [|done].
  injection Hp as <- <-. simpl. split; [done|]. split; [done|].
  set (s2 := BlagBL.mkBlagBL (BlagBL.database s1) (Some b) (Some m)
               (Some ips0)).
  assert (He2 : exists s3, BlagBL.ensure_extracted s2 = OK s3
            /\ BlagBL.database s3 = BlagBL.database s1
            /\ BlagBL.blag_list s3 = Some b /\ BlagBL.map_list s3 = Some m).
  { unfold BlagBL.ensure_extracted.
    destruct (negb (BlagBL.truthy (BlagBL.blag_list s2))
              || negb (BlagBL.truthy (BlagBL.map_list s2))) eqn:Hg.
    - (* a text is empty: it came from the archive, and comes again *)
      destruct Hsrc as [(-> & Hb1 & Hm1)|Hf].
      + exfalso. rewrite Hb in Hb1. rewrite Hm in Hm1.
        destruct b; [done|]. destruct m; [done|]. done.
      + rewrite extract_agree. subst s2; simpl. rewrite Hd, Hf. simpl.
        eexists; split; [reflexivity|]. done.
    - exists s2. done. }
  destruct He2 as (s3 & He3 & Hd3 & Hb3 & Hm3).
  rewrite (BlagBL_parse_unfold _ _ _ _ He3 Hb3 Hm3), Ht. simpl.
  rewrite Hi. simpl. by rewrite Hd3.
Qed.

Lemma parse_blag_contents_repeatable_witness :
  exists ips self',
    BlagBL.parse_blag_contents (BlagBL.init dataset_archive) = OK (ips, self')
    /\ BlagBL.parse_blag_contents self' = OK (ips, self').
Proof.
  destruct (BlagBL.parse_blag_contents (BlagBL.init dataset_archive))
    as [[ips self']|] eqn:Hp; [|vm_compute in Hp; discriminate Hp].
  exists ips, self'. split; [reflexivity|].
  apply (parse_blag_contents_repeatable _ _ _ Hp).
Defined.

(** ** Lookups on the [defaultdict] *)

(** The subscript of [tools/main.py] may grow the [defaultdict], but it
    never changes what any later lookup returns. *)
Theorem Tools_lookup_stable (ips : defaultdict (list str)) (q a : str) :
  fst (Tools.lookup (snd (Tools.lookup ips q)) a) = fst (Tools.lookup ips a)
  /\ (forall ds, data ips !! a = Some ds ->
        data (snd (Tools.lookup ips q)) !! a = Some ds)
  /\ default_factory (snd (Tools.lookup ips q)) = default_factory ips.
Proof.
  unfold Tools.lookup, dd_getitem.
  destruct (data ips !! q) as [v|] eqn:Hq; simpl.
  - split; [done|]. by split.
  - destruct (decide (q = a)) as [->|Hne].
    + rewrite lookup_insert_eq, Hq. simpl. split; [done|].
      split; [by intros ? [=]|done].
    + rewrite lookup_insert_ne by done.
      destruct (data ips !! a); simpl; by split_and!.
Qed.


(** ** The two [main] functions *)












(** ** Exceptions of a whole run *)





(** ** The filter expressions of several results *)

Lemma expressions_from (results : list Main.record) (acc : list str) :
  for_each (fun expressions result =>
              ranges ← Main.range_networks (Main.ip_range result);
              OK (expressions ++ List.map expression_of ranges))
           results acc
  = Main.expressions results ≫= fun es => OK (acc ++ es).
Proof.
  unfold Main.expressions. fold expression_of.
  revert acc.
  induction results as [|r results IH]; intros acc; simpl.
  - by rewrite app_nil_r.
  - destruct (Main.range_networks (Main.ip_range r)) as [nets|]; simpl;
      [|done].
    rewrite IH, (IH (List.map expression_of nets)).
    destruct (for_each _ results []) as [es|]; simpl; [|done].
    by rewrite app_assoc.
Qed.

(** The expressions of a list of results are those of each result, one
    list after the other in input order: nothing is merged or dropped
    across results, and the first range that fails fails the whole. *)
Theorem expressions_concatenate (results1 results2 : list Main.record) :
  Main.expressions (results1 ++ results2)
  = (es1 ← Main.expressions results1;
     es2 ← Main.expressions results2;
     OK (es1 ++ es2))
  /\ forall r,
       Main.expressions [r]
       = (nets ← Main.range_networks (Main.ip_range r);
          OK (List.map expression_of nets)).
Proof.
  split.
  - unfold Main.expressions at 1. rewrite for_each_app.
    fold (Main.expressions results1).
    destruct (Main.expressions results1) as [es1|]; simpl; [|done].
    apply expressions_from.
  - intros r. unfold Main.expressions. simpl.
    by destruct (Main.range_networks (Main.ip_range r)).
Qed.

(** ** More on the range summarizer *)

Lemma decomposable_family low high :
  decomposable low high ->
  0 <= low <= high
  /\ ((family_of low = V4 /\ high < 2 ^ 32)
      \/ (family_of low = V6 /\ 2 ^ 33 < low /\ high < 2 ^ 128)).
Proof.
  intros [Hlh Hfam]. split; [done|]. unfold family_of.
  destruct (Z.leb_spec low (2 ^ 33)); destruct Hfam as [?|[? ?]];
    first [by left | by right | lia].
Qed.

Lemma tiling_consecutive v a b first nets :
  tiling v a b first nets -> consecutive first nets (b + 1).
Proof.
  induction 1 as [|first n rest Hn Hdiv Hfit Hmax Hrest IH]; simpl; [done|].
  split; [done|]. by rewrite num_addresses_block.
Qed.

(** For a decomposable range the networks come in ascending order and
    without gap or overlap: the first begins at [low], each next one
    begins right after the one before, and the last ends at [high]. *)
Theorem range_networks_consecutive (low high : Z) (nets : list network) :
  decomposable low high ->
  Main.range_networks (low, high) = OK nets ->
  consecutive low nets (high + 1)
  /\ Forall (fun net => net_version net = family_of low) nets.
Proof.
  intros Hd Hr. apply decomposable_family in Hd as [Hlh Hfam].
  destruct (range_networks_tiling (family_of low) low high Hlh Hfam)
    as (nets' & Hr' & Ht).
  assert (nets' = nets) as -> by congruence.
  split; [by eapply tiling_consecutive|].
  eapply Forall_impl; [by apply tiling_blocks in Ht|].
  intros net (n & -> & _). done.
Qed.

Lemma range_networks_consecutive_witness :
  decomposable 1 6
  /\ Main.range_networks (1, 6)
     = OK [mkNetwork V4 1 32; mkNetwork V4 2 31; mkNetwork V4 4 31;
           mkNetwork V4 6 32]
  /\ consecutive 1 [mkNetwork V4 1 32; mkNetwork V4 2 31; mkNetwork V4 4 31;
                    mkNetwork V4 6 32] 7.
Proof.
  assert (H1 : decomposable 1 6) by (unfold decomposable; lia).
  assert (H2 : Main.range_networks (1, 6)
     = OK [mkNetwork V4 1 32; mkNetwork V4 2 31; mkNetwork V4 4 31;
           mkNetwork V4 6 32]) by (vm_compute; reflexivity).
  split; [exact H1|]. split; [exact H2|].
  apply (proj1 (range_networks_consecutive 1 6 _ H1 H2)).
Defined.

(** Round trip: the address range of a CIDR prefix is summarized to that
    one prefix; in particular a single address gives its host prefix. *)
Theorem range_networks_of_prefix (net : network) :
  cidr_prefix (net_version net) net ->
  (net_version net = V4 \/ 2 ^ 33 < network_address net) ->
  Main.range_networks
    (network_address net, network_address net + num_addresses net - 1)
  = OK [net].
Proof.
  intros (_ & Hplen & Hnn & Htop & Hdiv) Hfam.
  destruct net as [v a plen].
  unfold num_addresses in *; cbn [network_address net_version prefixlen] in *.
  set (n := max_prefixlen v - plen) in *.
  pose proof (pow2_pos n ltac:(lia)) as Hpn.
  set (b := a + 2 ^ n - 1).
  assert (Hfam' : (v = V4 /\ b < 2 ^ 32) \/ (v = V6 /\ 2 ^ 33 < a /\ b < 2 ^ 128)).
  { destruct v; simpl in *; [left|right]; subst b; split_and?; try done; try lia.
    destruct Hfam; [done|lia]. }
  destruct (range_networks_tiling v a b ltac:(subst b; lia) Hfam')
    as (nets & -> & Ht).
  f_equal. inversion Ht as [Hab|first k rest Hk Hkd Hfit Hmax Hrest Hfirst Hnets].
  { subst b. lia. }
  pose proof (pow2_pos k ltac:(lia)) as Hpk.
  destruct (Hmax a n ltac:(lia) Hdiv ltac:(lia) ltac:(subst b; lia)
              ltac:(lia) ltac:(subst b; lia)) as [_ <-].
  replace (max_prefixlen v - n) with plen by (subst n; lia).
  f_equal.
  inversion Hrest as [Hend|first' k' rest' Hk' Hkd' Hfit' _ _ Hfirst' Hnets'];
    [done|].
  pose proof (pow2_pos k' ltac:(lia)). subst b. lia.
Qed.

Lemma range_networks_of_prefix_witness :
  cidr_prefix V4 (mkNetwork V4 167772160 8)
  /\ Main.range_networks (167772160, 167772160 + 2 ^ 24 - 1)
     = OK [mkNetwork V4 167772160 8].
Proof.
  assert (H : cidr_prefix V4 (mkNetwork V4 167772160 8)).
  { unfold cidr_prefix, num_addresses; simpl. split_and!; try done; try lia.
    exists 10. reflexivity. }
  split; [exact H|].
  apply (range_networks_of_prefix (mkNetwork V4 167772160 8) H
           (or_introl eq_refl)).
Defined.

Lemma IPAddress_cases v n :
  (0 <= n <= ALL_ONES v /\ IPAddress v n = OK (mkAddress v n))
  \/ (~ 0 <= n <= ALL_ONES v /\ IPAddress v n = Raise AddressValueError).
Proof.
  unfold IPAddress.
  destruct (Z.ltb_spec n 0); [right; split; [lia|done]|].
  destruct (Z.gtb_spec n (ALL_ONES v)); [right|left]; (split; [lia|done]).
Qed.

(** [output_pcap_filter] decomposes a range exactly when it is
    decomposable.  A bound outside the family chosen from [low] raises
    [AddressValueError]; a range inside one family whose [low] is above
    its [high] raises [ValueError]. *)
Theorem range_networks_succeeds_iff (low high : Z) :
  (decomposable low high <-> exists nets, Main.range_networks (low, high) = OK nets)
  /\ forall e, Main.range_networks (low, high) = Raise e ->
       (e = ValueError /\ high < low
        /\ 0 <= high /\ low <= ALL_ONES (family_of low))
       \/ (e = AddressValueError
           /\ ~ (0 <= low <= ALL_ONES (family_of low)
                 /\ 0 <= high <= ALL_ONES (family_of low))).
Proof.
  assert (Hcases :
    (decomposable low high /\ exists nets, Main.range_networks (low, high) = OK nets)
    \/ (~ decomposable low high
        /\ ((Main.range_networks (low, high) = Raise ValueError /\ high < low
             /\ 0 <= high /\ low <= ALL_ONES (family_of low))
            \/ (Main.range_networks (low, high) = Raise AddressValueError
                /\ ~ (0 <= low <= ALL_ONES (family_of low)
                      /\ 0 <= high <= ALL_ONES (family_of low)))))).
  { destruct (decide (decomposable low high)) as [Hd|Hn].
    - left. split; [done|]. apply decomposable_family in Hd as [Hlh Hfam].
      destruct (range_networks_tiling _ low high Hlh Hfam) as (nets & ? & _).
      eauto.
    - right. split; [done|]. rewrite range_networks_family.
      unfold decomposable in Hn. unfold family_of, IPv4Address, IPv6Address.
      destruct (Z.leb_spec low (2 ^ 33)) as [Hle|Hgt].
      + destruct (IPAddress_cases V4 low) as [[Hl ->]|[Hl ->]]; simpl;
          [|right; split; [done|tauto]].
        destruct (IPAddress_cases V4 high) as [[Hh ->]|[Hh ->]]; simpl;
          [|right; split; [done|tauto]].
        unfold summarize_address_range; simpl.
        unfold ALL_ONES in *; simpl in *.
        destruct (Z.gtb_spec low high); [|lia].
        left. split; [done|lia].
      + destruct (IPAddress_cases V6 low) as [[Hl ->]|[Hl ->]]; simpl;
          [|right; split; [done|tauto]].
        destruct (IPAddress_cases V6 high) as [[Hh ->]|[Hh ->]]; simpl;
          [|right; split; [done|tauto]].
        unfold summarize_address_range; simpl.
        unfold ALL_ONES in *; simpl in *.
        destruct (Z.gtb_spec low high); [|lia].
        left. split; [done|lia]. }
  split.
  - destruct Hcases as [[Hd Hex]|[Hn [[Hr _]|[Hr _]]]]; [done| |];
      rewrite Hr; (split; [done|by intros [? ?]]).
  - intros e He.
    destruct Hcases as [[_ [nets Hok]]|[_ [[Hr Hrest]|[Hr Hrest]]]];
      [congruence| |].
    + left. split; [congruence|done].
    + right. split; [congruence|done].
Qed.

Lemma range_networks_succeeds_iff_witness :
  Main.range_networks (7, 3) = Raise ValueError
  /\ ((ValueError = ValueError /\ 3 < 7 /\ 0 <= 3
       /\ 7 <= ALL_ONES (family_of 7))
      \/ (ValueError = AddressValueError
          /\ ~ (0 <= 7 <= ALL_ONES (family_of 7)
                /\ 0 <= 3 <= ALL_ONES (family_of 7)))).
Proof.
  assert (H : Main.range_networks (7, 3) = Raise ValueError)
    by (vm_compute; reflexivity).
  split; [exact H|].
  apply (proj2 (range_networks_succeeds_iff 7 3) _ H).
Defined.

(** ** The rows of [process_fsdb] *)

(** A row of [process_fsdb] keeps its input fields and gets as many new
    ones as columns were declared -- except for a by-ASN lookup without a
    match, which appends five dashes where three columns were declared. *)
Theorem process_row_columns
  (lookup_asn : str -> Z -> list Main.record)
  (lookup_address : str -> option Main.record)
  (by_asn : bool) (key : str) (row out : list Main.cell)
  (column_names : list str) :
  length row = length column_names ->
  Main.process_row lookup_asn lookup_address by_asn key row = OK out ->
  row `prefix_of` out
  /\ length out
     = (length (Main.out_column_names by_asn column_names)
        + (if by_asn && bool_decide (lookup_asn key 1%Z = []) then 2 else 0))%nat.
Proof.
  intros Hlen. unfold Main.process_row, Main.out_column_names.
  destruct by_asn; simpl.
  - destruct (lookup_asn key 1) as [|r rs]; simpl.
    + intros [= <-]. split; [by apply prefix_app_r|].
      rewrite !length_app, Hlen. simpl. lia.
    + intros [= <-]. split; [by apply prefix_app_r|].
      rewrite !length_app, Hlen. simpl. lia.
  - destruct (lookup_address key) as [r|]; simpl.
    + destruct (Main.ip_numeric r); simpl; [|done].
      intros [= <-]. split; [by apply prefix_app_r|].
      rewrite !length_app, Hlen. simpl. lia.
    + intros [= <-]. split; [by apply prefix_app_r|].
      rewrite !length_app, Hlen. simpl. lia.
Qed.

Lemma process_row_columns_witness :
  length [Main.Text (lit "64500")] = length [lit "key"]
  /\ Main.process_row (fun _ _ => []) (fun _ => None) true
       (lit "64500") [Main.Text (lit "64500")]
     = OK (Main.Text (lit "64500") :: replicate 5 (Main.Text (lit "-")))
  /\ length (Main.Text (lit "64500") :: replicate 5 (Main.Text (lit "-")))
     = (length (Main.out_column_names true [lit "key"]) + 2)%nat.
Proof.
  assert (H1 : length [Main.Text (lit "64500")] = length [lit "key"])
    by reflexivity.
  assert (H2 : Main.process_row (fun _ _ => []) (fun _ => None)
                 true (lit "64500") [Main.Text (lit "64500")]
     = OK (Main.Text (lit "64500") :: replicate 5 (Main.Text (lit "-"))))
    by (vm_compute; reflexivity).
  split; [exact H1|]. split; [exact H2|].
  apply (proj2 (process_row_columns _ _ _ _ _ _ _ H1 H2)).
Defined.

(** ** The file system *)

Lemma and_then_Return {A B} (m : run A) (k : filesystem -> A -> run B) fs b :
  and_then m k = Return fs b ->
  exists fs1 a, m = Return fs1 a /\ k fs1 a = Return fs b.
Proof. destruct m as [fs1 a|]; simpl; [|done]. intros H. by exists fs1, a. Qed.

Lemma and_then_Throw {A B} (m : run A) (k : filesystem -> A -> run B) fs e :
  and_then m k = Throw fs e ->
  m = Throw fs e \/ exists fs1 a, m = Return fs1 a /\ k fs1 a = Throw fs e.
Proof.
  destruct m as [fs1 a|]; simpl; intros H; [|injection H as -> ->; by left].
  right. by exists fs1, a.
Qed.

Lemma same_files_refl fs : same_files fs fs.
Proof. by split. Qed.

Lemma same_files_trans fs1 fs2 fs3 :
  same_files fs1 fs2 -> same_files fs2 fs3 -> same_files fs1 fs3.
Proof. intros [? ?] [? ?]. split; [congruence|set_solver]. Qed.

Lemma os_mkdir_same_files fs p : same_files fs (left_by (os_mkdir fs p)).
Proof.
  unfold os_mkdir.
  repeat match goal with |- context [if ?c then _ else _] => destruct c end;
    simpl; try apply same_files_refl.
  split; [done|]. simpl. set_solver.
Qed.

Lemma os_mkdir_Return fs p fs' u :
  os_mkdir fs p = Return fs' u -> is_dir fs' p = true.
Proof.
  unfold os_mkdir.
  repeat match goal with |- context [if ?c then _ else _] => destruct c end;
    try done.
  intros [= <- _]. unfold is_dir. simpl. apply bool_decide_eq_true.
  right. set_solver.
Qed.

Lemma mkdir_single_same_files fs p exist_ok :
  same_files fs (left_by (mkdir_single fs p exist_ok)).
Proof.
  unfold mkdir_single. pose proof (os_mkdir_same_files fs p) as H.
  destruct (os_mkdir fs p) as [fs' u|fs' [e|[]|c]]; simpl in *; try done;
    by destruct (negb exist_ok || negb (is_dir fs' p)).
Qed.

Lemma mkdir_single_Return fs p exist_ok fs' u :
  mkdir_single fs p exist_ok = Return fs' u -> is_dir fs' p = true.
Proof.
  unfold mkdir_single.
  destruct (os_mkdir fs p) as [fs1 u1|fs1 [e|[]|c]] eqn:Hm; try done;
    try (intros [= <- _]; by eapply os_mkdir_Return);
    destruct exist_ok; simpl; try done;
    destruct (is_dir fs1 p) eqn:Hd; simpl; try done; by intros [= <- _].
Qed.

Lemma mkdir_parents_same_files fs p exist_ok :
  same_files fs (left_by (mkdir_parents fs p exist_ok)).
Proof.
  funelim (mkdir_parents fs p exist_ok);
    match goal with
    | Hm : os_mkdir fs p = _ |- _ =>
        pose proof (os_mkdir_same_files fs p) as Hos; rewrite Hm in Hos;
        simpl in Hos
    end;
    try (destruct (negb exist_ok || negb (is_dir _ p)); by simpl);
    try done.
  match goal with
  | IH : same_files _ (left_by (mkdir_parents _ _ _)) |- _ =>
      destruct (mkdir_parents fs' (parent p) true) as [fs1 u1|fs1 e1];
      simpl in IH |- *
  end.
  - pose proof (mkdir_single_same_files fs1 p exist_ok).
    eauto using same_files_trans.
  - eauto using same_files_trans.
Qed.

Lemma mkdir_parents_Return fs p exist_ok fs' u :
  mkdir_parents fs p exist_ok = Return fs' u -> is_dir fs' p = true.
Proof.
  funelim (mkdir_parents fs p exist_ok); try done;
    try (intros [= <- _]; by eapply os_mkdir_Return);
    try (destruct exist_ok; simpl; try done;
         destruct (is_dir fs' p) eqn:Hd; simpl; try done;
         by intros [= <- _]).
  intros Hr. apply and_then_Return in Hr as (fs1 & [] & _ & Hs).
  by eapply mkdir_single_Return.
Qed.

Lemma open_wb_same_dirs fs p :
  dirs (left_by (open_wb fs p)) = dirs fs
  /\ forall fs' e, open_wb fs p = Throw fs' e -> fs' = fs.
Proof.
  unfold open_wb.
  repeat match goal with |- context [if ?c then _ else _] => destruct c end;
    simpl; (split; [done|]); intros ? ? [=]; done.
Qed.

Lemma open_wb_Return fs p fs' u :
  open_wb fs p = Return fs' u ->
  dirs fs' = dirs fs /\ files fs' = <[p := []]> (files fs).
Proof.
  unfold open_wb.
  repeat match goal with |- context [if ?c then _ else _] => destruct c end;
    try done.
  by intros [= <- _].
Qed.

Lemma write_chunks fs p chunks acc :
  files fs !! p = Some acc ->
  let fs' := fold_left (fun fs chunk => write fs p chunk) chunks fs in
  dirs fs' = dirs fs
  /\ files fs' = <[p := acc ++ concat chunks]> (files fs).
Proof.
  revert fs acc; induction chunks as [|c chunks IH]; intros fs acc Hp; simpl.
  - split; [done|]. rewrite app_nil_r. by rewrite insert_id.
  - destruct (IH (write fs p c) (acc ++ c)) as [Hd Hf].
    { unfold write; simpl. by rewrite Hp, lookup_insert_eq. }
    split; [by rewrite Hd|]. rewrite Hf. unfold write; simpl.
    by rewrite insert_insert_eq, app_assoc.
Qed.

(** ** Fetching the archive *)

Lemma date_path_or_yesterday_cases yesterday fs date_path :
  (exists text, Main.date_path_or_yesterday yesterday fs date_path
                = Return fs text)
  \/ (Main.date_path_or_yesterday yesterday fs date_path
      = Throw fs (Exn AttributeError)
      /\ yesterday = None).
Proof.
  unfold Main.date_path_or_yesterday.
  destruct date_path as [[|c s]|]; destruct yesterday; eauto.
Qed.

Lemma mkdir_parents_exists fs p :
  is_file fs p = true ->
  mkdir_parents fs p false = Throw fs (OSError FileExistsError).
Proof.
  intros Hf. simp mkdir_parents.
  assert (Hos : os_mkdir fs p = Throw fs (OSError FileExistsError))
    by (unfold os_mkdir; rewrite Hf, orb_true_r; done).
  rewrite Hos. reflexivity.
Qed.

Lemma os_mkdir_Throw fs p fs' e :
  os_mkdir fs p = Throw fs' e -> exists oe, e = OSError oe.
Proof.
  unfold os_mkdir.
  repeat match goal with |- context [if ?c then _ else _] => destruct c end;
    intros [= <- <-]; eauto.
Qed.

Lemma mkdir_single_Throw fs p exist_ok fs' e :
  mkdir_single fs p exist_ok = Throw fs' e -> exists oe, e = OSError oe.
Proof.
  unfold mkdir_single.
  destruct (os_mkdir fs p) as [fs1 u1|fs1 e1] eqn:Hos; [done|].
  apply os_mkdir_Throw in Hos as [oe ->].
  destruct oe; try (intros [= <- <-]; by eauto);
    destruct (negb exist_ok || negb (is_dir fs1 p)); intros [= <- <-];
    by eauto.
Qed.

Lemma mkdir_parents_Throw fs p exist_ok fs' e :
  mkdir_parents fs p exist_ok = Throw fs' e -> exists oe, e = OSError oe.
Proof.
  funelim (mkdir_parents fs p exist_ok); try done;
    try (apply os_mkdir_Throw in Heq as [oe Heq]; done);
    try (destruct (negb exist_ok || negb (is_dir _ p)); intros [= <- <-];
         by eauto).
  - intros [= <- <-]; by eauto.
  - intros Hm. apply and_then_Throw in Hm as [Hm|(fs2 & [] & _ & Hm)].
    + eauto.
    + by eapply mkdir_single_Throw.
Qed.

(** The directory that [fetch_blag] stores into, once it is sure of it. *)
Lemma storage_directory_cases fs sd :
  let m := if negb (is_dir fs sd) then mkdir_parents fs sd false
           else Return fs tt in
  same_files fs (left_by m)
  /\ forall fs1 u, m = Return fs1 u -> is_dir fs1 sd = true.
Proof.
  destruct (is_dir fs sd) eqn:Hd; simpl.
  - split; [apply same_files_refl|]. by intros ? ? [= <- _].
  - split; [apply mkdir_parents_same_files|].
    intros fs1 u. apply mkdir_parents_Return.
Qed.

Lemma open_wb_Throw fs p fs' e :
  open_wb fs p = Throw fs' e -> fs' = fs /\ exists oe, e = OSError oe.
Proof.
  unfold open_wb.
  repeat match goal with |- context [if ?c then _ else _] => destruct c end;
    intros [= <- <-]; eauto.
Qed.

Lemma fetch_blag_cases (http : str -> response) (yesterday : option date)
  (fs : filesystem) (storage_directory : list str) (date_path : option str) :
  (Main.date_path_or_yesterday yesterday fs date_path
   = Throw fs (Exn AttributeError)
   /\ Main.fetch_blag http yesterday fs storage_directory date_path
      = Throw fs (Exn AttributeError))
  \/ exists text,
       Main.date_path_or_yesterday yesterday fs date_path = Return fs text
       /\ fetch_end http fs storage_directory text
            (Main.fetch_blag http yesterday fs storage_directory date_path).
Proof.
  unfold Main.fetch_blag.
  destruct (date_path_or_yesterday_cases yesterday fs date_path)
    as [[text Hd]|[Hd _]]; rewrite Hd; simpl; [right|by left].
  exists text. split; [done|].
  destruct (storage_directory_cases fs storage_directory) as [Hsame Hdir].
  cbv zeta in Hsame, Hdir.
  destruct (if negb (is_dir fs storage_directory)
            then mkdir_parents fs storage_directory false
            else Return fs tt) as [fs1 []|fs1 e1] eqn:Hm; simpl in Hsame |- *;
    destruct Hsame as [Hfiles Hdirs].
  2:{ assert (exists oe, e1 = OSError oe) as [oe ->].
      { destruct (is_dir fs storage_directory); simpl in Hm; [done|].
        by apply mkdir_parents_Throw in Hm. }
      by constructor. }
  specialize (Hdir fs1 tt eq_refl).
  destruct (Z.eqb_spec (status_code (http (Main.request_url text))) 200)
    as [Hs|Hs]; simpl; [|by constructor].
  destruct (open_wb fs1 (joinpath storage_directory (lit "blag.zip")))
    as [fs2 []|fs2 e2] eqn:Ho; simpl.
  - apply open_wb_Return in Ho as [Hd2 Hf2].
    destruct (write_chunks fs2 (joinpath storage_directory (lit "blag.zip"))
                (iter_content (http (Main.request_url text))) [])
      as [Hd3 Hf3]; [by rewrite Hf2, lookup_insert_eq|].
    cbv zeta in Hd3, Hf3. constructor; try done.
    + by rewrite Hd3, Hd2.
    + unfold is_dir in *. apply bool_decide_eq_true.
      apply bool_decide_eq_true in Hdir. by rewrite Hd3, Hd2.
    + rewrite Hf3, Hf2, Hfiles. simpl. by rewrite insert_insert_eq.
  - apply open_wb_Throw in Ho as [-> [oe ->]]. by constructor.
Qed.


(** A [fetch_blag] that runs to its end got status 200 for the URL of the
    date, and has changed one file: [blag.zip] in the storage directory,
    which now is a directory, holds the chunks of the response one after
    the other. *)
Theorem fetch_blag_stores_response
  (http : str -> response) (yesterday : option date) (fs fs' : filesystem)
  (storage_directory : list str) (date_path : option str) (u : unit) :
  Main.fetch_blag http yesterday fs storage_directory date_path = Return fs' u ->
  exists text,
    Main.date_path_or_yesterday yesterday fs date_path = Return fs text
    /\ status_code (http (Main.request_url text)) = 200
    /\ files fs'
       = <[joinpath storage_directory (lit "blag.zip")
           := concat (iter_content (http (Main.request_url text)))]>
           (files fs)
    /\ is_dir fs' storage_directory = true
    /\ dirs fs ⊆ dirs fs'.
Proof.
  intros H.
  destruct (fetch_blag_cases http yesterday fs storage_directory date_path)
    as [[_ Hf]|(text & Hd & Hend)]; rewrite H in *; [done|].
  exists text. split; [done|].
  inversion Hend; subst. by split_and!.
Qed.

Lemma fetch_blag_stores_response_witness :
  exists fs',
    Main.fetch_blag two_chunks a_date empty_fs [lit "store"] None
    = Return fs' tt
    /\ files fs' !! [lit "store"; lit "blag.zip"] = Some (lit "PKzip")
    /\ exists text,
         Main.date_path_or_yesterday a_date empty_fs None
         = Return empty_fs text
         /\ text = lit "2024/03/2024-03-05.zip".
Proof.
  destruct (Main.fetch_blag two_chunks a_date empty_fs [lit "store"] None)
    as [fs' []|] eqn:Hf; [|vm_compute in Hf; discriminate Hf].
  exists fs'. split; [reflexivity|].
  destruct (fetch_blag_stores_response _ _ _ _ _ _ _ Hf)
    as (text & Hd & _ & Hfiles & _).
  split.
  - rewrite Hfiles. vm_compute in Hd. injection Hd as <-.
    rewrite lookup_insert_eq. vm_compute. reflexivity.
  - exists text. split; [exact Hd|]. vm_compute in Hd. by injection Hd as <-.
Defined.


(** ** [--fetch] from end to end *)

Lemma get_blag_path_cases home cwd fs blag_database exit_on_error :
  let database := joinpath (Main.default_store home) (lit "blag.zip") in
  (exists p, Main.get_blag_path home cwd fs blag_database exit_on_error
             = Return fs p
             /\ is_file fs p = true)
  \/ (is_file fs blag_database = false
      /\ is_file fs (joinpath cwd (lit "blag.zip")) = false
      /\ is_file fs database = false
      /\ Main.get_blag_path home cwd fs blag_database exit_on_error
         = if exit_on_error then Throw fs (SystemExit 1)
           else Return fs database).
Proof.
  intros database. unfold Main.get_blag_path. fold database.
  destruct (is_file fs blag_database) eqn:H1; [left; eauto|].
  destruct (is_file fs (joinpath cwd (lit "blag.zip"))) eqn:H2; [left; eauto|].
  destruct (is_file fs database) eqn:H3; [left; eauto|].
  right. done.
Qed.

(** [main --fetch] never refreshes a database and never stores one where
    [main] looks for it.  When a database file is found, the file itself
    is taken for the storage directory and [mkdir] fails with
    [FileExistsError], the files untouched.  When none is found and the
    download succeeds, the archive is stored as [blag.zip] in a new
    directory that is itself named [.../blag/blag.zip]; the next [main]
    without [--fetch] still finds no database and exits with status 1
    (unless it is pointed at that file or run from that directory). *)
Theorem main_fetch_never_serves_main
  (home cwd : list str) (http : str -> response) (yesterday : option date)
  (fs : filesystem) (blag_database : list str) :
  consistent fs ->
  let database := joinpath (Main.default_store home) (lit "blag.zip") in
  ((exists p, Main.get_blag_path home cwd fs blag_database false = Return fs p
        /\ is_file fs p = true) ->
   exists e,
     Main.main_fetch home cwd http yesterday fs blag_database = Throw fs e
     /\ (e = OSError FileExistsError \/ e = Exn AttributeError))
  /\ forall fs',
       Main.main_fetch home cwd http yesterday fs blag_database
       = Throw fs' (SystemExit 0) ->
       is_dir fs' database = true
       /\ (exists content,
             files fs' = <[joinpath database (lit "blag.zip") := content]>
                           (files fs))
       /\ (blag_database <> joinpath database (lit "blag.zip") ->
           cwd <> database ->
           Main.get_blag_path home cwd fs' blag_database true
           = Throw fs' (SystemExit 1)).
Proof.
  intros Hcons database. subst database.
  set (database := joinpath (Main.default_store home) (lit "blag.zip")).
  split.
  - intros (p & Hg & Hp). unfold Main.main_fetch. rewrite Hg. simpl.
    unfold Main.fetch_blag.
    destruct (date_path_or_yesterday_cases yesterday fs None)
      as [[text ->]|[-> _]]; simpl; [|eauto].
    rewrite (Hcons p Hp). simpl. rewrite (mkdir_parents_exists fs p Hp).
    simpl. eauto.
  - intros fs' Hm. unfold Main.main_fetch in Hm.
    pose proof (get_blag_path_cases home cwd fs blag_database false) as Hc.
    cbv zeta in Hc. fold database in Hc.
    destruct Hc as [(p & Hg & Hp)|(H1 & H2 & H3 & Hg)];
      rewrite Hg in Hm; simpl in Hm.
    + exfalso. unfold Main.fetch_blag in Hm.
      destruct (date_path_or_yesterday_cases yesterday fs None)
        as [[text Hd]|[Hd _]]; rewrite Hd in Hm; simpl in Hm; [|done].
      rewrite (Hcons p Hp) in Hm. simpl in Hm.
      rewrite (mkdir_parents_exists fs p Hp) in Hm. simpl in Hm. done.
    + assert (exists text fs1,
                fetch_end http fs database text (Return fs1 tt)
                /\ fs' = fs1) as (text & fs1 & Hend & ->).
      { destruct (fetch_blag_cases http yesterday fs database None)
          as [[_ Hf]|(text & _ & Hend)].
        - rewrite Hf in Hm. simpl in Hm. done.
        - destruct (Main.fetch_blag http yesterday fs database None)
            as [fs1 []|fs1 e]; simpl in Hm.
          + injection Hm as <-. eauto.
          + injection Hm as <- ->. inversion Hend. }
      inversion Hend as [| |fs2 _ Hdir _ Hfiles]; subst.
      split; [done|]. split; [eauto|].
      intros Hbd Hcwd.
      assert (Hno : forall q, q <> joinpath database (lit "blag.zip") ->
                is_file fs q = false -> is_file fs1 q = false).
      { intros q Hq Hfq. unfold is_file in *. rewrite Hfiles.
        by rewrite lookup_insert_ne. }
      unfold Main.get_blag_path. fold database.
      rewrite (Hno blag_database) by done.
      rewrite (Hno (joinpath cwd (lit "blag.zip"))); [|..|done].
      2:{ unfold joinpath. intros Heq. by apply app_inj_tail in Heq as [? _]. }
      rewrite (Hno database); [done|..|done].
      unfold joinpath. intros Heq.
      apply (f_equal length) in Heq. rewrite length_app in Heq.
      simpl in Heq. lia.
Qed.

(** ** [--fetch] of [tools/main.py] *)

(** [BlagBL.fetch] never downloads anything: whatever the database
    attribute, the date and the server, it raises before any request --
    [AttributeError] when no date is obtained or when the database is a
    [str], [TypeError] when it is a [Path] -- and the file system is as
    it was.  So does the [--fetch] run of [tools/main.py], which never
    reaches its [sys.exit()]. *)
Theorem BlagBL_fetch_always_raises
  (home cwd : list str) (http : str -> response) (yesterday : option date)
  (fs : filesystem) :
  (forall database date_path,
     exists e, BlagBL.fetch http yesterday fs database date_path
               = Throw fs (Exn e)
       /\ (e = TypeError \/ e = AttributeError)
       /\ (e = TypeError ->
           (exists p, database = BlagBL.PathObject p)
           /\ exists text,
                Main.date_path_or_yesterday yesterday fs date_path
                = Return fs text))
  /\ forall blag_database,
       exists e, Tools.main_fetch home cwd http yesterday fs blag_database
                 = Throw fs (Exn e)
         /\ (e = TypeError \/ e = AttributeError).
Proof.
  assert (Hfetch : forall database date_path,
     exists e, BlagBL.fetch http yesterday fs database date_path
               = Throw fs (Exn e)
       /\ (e = TypeError \/ e = AttributeError)
       /\ (e = TypeError ->
           (exists p, database = BlagBL.PathObject p)
           /\ exists text,
                Main.date_path_or_yesterday yesterday fs date_path
                = Return fs text)).
  { intros database date_path. unfold BlagBL.fetch.
    destruct (date_path_or_yesterday_cases yesterday fs date_path)
      as [[text ->]|[-> _]]; simpl.
    - destruct database as [p|p]; simpl.
      + exists AttributeError. split_and!; [done|by right|done].
      + exists TypeError. split_and!; [done|by left|]. intros _. eauto.
    - exists AttributeError. split_and!; [done|by right|done]. }
  split; [exact Hfetch|].
  intros blag_database. unfold Tools.main_fetch.
  assert (exists database,
            BlagBL.get_blag_path home cwd fs blag_database false
            = Return fs database) as [database ->].
  { unfold BlagBL.get_blag_path.
    destruct blag_database as [s|];
      repeat match goal with |- context [if ?c then _ else _] =>
               destruct c end; eauto. }
  simpl. destruct (Hfetch database None) as (e & -> & He & _).
  simpl. eauto.
Qed.

(** ** A run of [main --fetch] in the small world *)

Lemma empty_fs_consistent : consistent empty_fs.
Proof. intros p Hp. vm_compute in Hp. discriminate Hp. Qed.

Lemma main_fetch_never_serves_main_witness :
  consistent empty_fs
  /\ exists fs',
       Main.main_fetch [lit "home"] [lit "work"] two_chunks a_date empty_fs
         [lit "home"; lit ".local"; lit "share"; lit "blag"]
       = Throw fs' (SystemExit 0)
       /\ is_dir fs' [lit "home"; lit ".local"; lit "share"; lit "blag";
                      lit "blag.zip"] = true
       /\ Main.get_blag_path [lit "home"] [lit "work"] fs'
            [lit "home"; lit ".local"; lit "share"; lit "blag"] true
          = Throw fs' (SystemExit 1).
Proof.
  split; [exact empty_fs_consistent|].
  destruct (Main.main_fetch [lit "home"] [lit "work"] two_chunks a_date
              empty_fs [lit "home"; lit ".local"; lit "share"; lit "blag"])
    as [|fs' e] eqn:Hm; [vm_compute in Hm; discriminate Hm|].
  assert (e = SystemExit 0) as ->
    by (vm_compute in Hm; by injection Hm as _ <-).
  exists fs'. split; [reflexivity|].
  destruct (proj2 (main_fetch_never_serves_main [lit "home"] [lit "work"]
                     two_chunks a_date empty_fs
                     [lit "home"; lit ".local"; lit "share"; lit "blag"]
                     empty_fs_consistent) fs' Hm)
    as (Hdir & _ & Hnext).
  split; [exact Hdir|].
  apply Hnext; intros Heq; apply (f_equal length) in Heq;
    vm_compute in Heq; discriminate Heq.
Defined.

(** ** Rows and columns *)

(** [output_fsdb_row] writes one cell per column name: those of
    [COLUMN_NAMES] for a result with [ip_numeric], those of
    [ASN_COLUMN_NAMES] for one without.  A match of [process_fsdb]
    appends to the input row the cells of that row but the first, as its
    column declaration drops the first name. *)
Theorem output_fsdb_row_columns
  (lookup_asn : str -> Z -> list Main.record)
  (lookup_address : str -> option Main.record)
  (address : Main.cell) (key : str) (row : list Main.cell)
  (r : Main.record) :
  length (Main.output_fsdb_row address r)
  = length (match Main.ip_numeric r with
            | Some _ => Main.COLUMN_NAMES
            | None => Main.ASN_COLUMN_NAMES
            end)
  /\ (lookup_address key = Some r -> is_Some (Main.ip_numeric r) ->
      Main.process_row lookup_asn lookup_address false key row
      = OK (row ++ drop 1 (Main.output_fsdb_row address r)))
  /\ (head (lookup_asn key 1) = Some r -> Main.ip_numeric r = None ->
      Main.process_row lookup_asn lookup_address true key row
      = OK (row ++ drop 1 (Main.output_fsdb_row address r))).
Proof.
  unfold Main.output_fsdb_row, Main.process_row. split_and!.
  - by destruct (Main.ip_numeric r).
  - intros -> [n ->]. done.
  - intros Hh ->. destruct (lookup_asn key 1) as [|r' rs]; [done|].
    simpl in Hh |- *. by injection Hh as ->.
Qed.

Lemma output_fsdb_row_columns_witness :
  Main.process_row (fun _ _ => [])
    (fun _ => Some (Main.mkRecord (Some 167772165) (lit "64500")
                      (lit "OwnerX") (lit "US") (167772160, 167772415)))
    false (lit "10.0.0.5") [Main.Text (lit "10.0.0.5")]
  = OK [Main.Text (lit "10.0.0.5"); Main.Int 167772165;
        Main.Text (lit "64500"); Main.Text (lit "OwnerX");
        Main.Text (lit "US"); Main.Range (167772160, 167772415)].
Proof.
  apply (proj1 (proj2 (output_fsdb_row_columns (fun _ _ => [])
    (fun _ => Some (Main.mkRecord (Some 167772165) (lit "64500")
                      (lit "OwnerX") (lit "US") (167772160, 167772415)))
    (Main.Text (lit "10.0.0.5")) (lit "10.0.0.5")
    [Main.Text (lit "10.0.0.5")]
    (Main.mkRecord (Some 167772165) (lit "64500")
       (lit "OwnerX") (lit "US") (167772160, 167772415))))).
  - reflexivity.
  - exists 167772165. reflexivity.
Defined.
